(** * gradient-text: the gradient engine of [gradient_text.gradient] and
    [gradient_text._gradient_substring], embedded in Rocq.

    The Python sources are translated function by function.  Python
    exceptions become the [Raise] branch of a result type, Python floats
    are IEEE binary64 values ([spec_float] with precision 53), rich's
    [Style] and [Span] are small records with structural equality.  A
    [style] argument given as a string comes with what [Style.parse]
    reads from it. *)

From Stdlib Require Import ZArith List Bool Lia String Ascii.
From Stdlib Require Import Floats.SpecFloat.
Import ListNotations.

Open Scope Z_scope.

(** ** Python exceptions and results *)

Inductive Exception : Type :=
| AssertionError (msg : string)
| ValueError (msg : string)
| IndexError
| ZeroDivisionError
| OverflowError
| UnboundLocalError
| AttributeError
| ColorParseError (token : string)
| StyleSyntaxError.

Inductive Result (A : Type) : Type :=
| Ok (a : A)
| Raise (e : Exception).

Arguments Ok {A} a.
Arguments Raise {A} e.

Definition bind {A B : Type} (c : Result A) (k : A -> Result B) : Result B :=
  match c with
  | Ok a => k a
  | Raise e => Raise e
  end.

Notation "x <- c ;; k" := (bind c (fun x => k))
  (at level 61, c at next level, right associativity).
Notation "' p <- c ;; k" := (bind c (fun x => let p := x in k))
  (at level 61, p pattern, c at next level, right associativity).

(** [for x in xs: body], threading the loop state and stopping at the
    first exception. *)
Fixpoint for_each {A S : Type} (xs : list A) (body : S -> A -> Result S)
  (s : S) : Result S :=
  match xs with
  | [] => Ok s
  | x :: rest => s' <- body s x ;; for_each rest body s'
  end.

(** [[f(x) for x in xs]] for a fallible [f]. *)
Fixpoint map_result {A B : Type} (f : A -> Result B) (xs : list A)
  : Result (list B) :=
  match xs with
  | [] => Ok []
  | x :: rest => y <- f x ;; ys <- map_result f rest ;; Ok (y :: ys)
  end.

(** [range(n)]: empty when [n <= 0]. *)
Definition range (n : Z) : list Z :=
  map Z.of_nat (seq 0 (Z.to_nat n)).

(** [enumerate(xs)]. *)
Definition enumerate {A : Type} (xs : list A) : list (Z * A) :=
  combine (range (Z.of_nat (List.length xs))) xs.

(** [xs[i]]: a negative index counts from the end. *)
Definition getitem {A : Type} (xs : list A) (i : Z) : Result A :=
  let j := if i <? 0 then i + Z.of_nat (List.length xs) else i in
  if j <? 0 then Raise IndexError
  else match nth_error xs (Z.to_nat j) with
       | Some x => Ok x
       | None => Raise IndexError
       end.

(** [xs[st:en]]: a negative bound counts from the end, and both bounds
    are clipped to the list. *)
Definition slice {A : Type} (xs : list A) (st en : Z) : list A :=
  let len := Z.of_nat (List.length xs) in
  let clip (i : Z) := if i <? 0 then Z.max 0 (i + len) else Z.min i len in
  firstn (Z.to_nat (clip en - clip st)) (skipn (Z.to_nat (clip st)) xs).

(** [a // b]. *)
Definition floordiv (a b : Z) : Result Z :=
  if b =? 0 then Raise ZeroDivisionError else Ok (a / b).

(** ** Python floats: IEEE 754 binary64 *)

Module Float.

Definition prec : Z := 53.
Definition emax : Z := 1024.

(** [float(z)] as done implicitly by [int * float] and [int + float]:
    the nearest double, [OverflowError] beyond the double range. *)
Definition of_int (z : Z) : Result spec_float :=
  match binary_normalize prec emax z 0 false with
  | S754_infinity _ => Raise OverflowError
  | f => Ok f
  end.

(** [a / b] on two ints: the correctly rounded quotient. *)
Definition int_truediv (a b : Z) : Result spec_float :=
  if b =? 0 then Raise ZeroDivisionError
  else
    let s := xorb (a <? 0) (b <? 0) in
    if a =? 0 then Ok (S754_zero s)
    else
      let '(mz, ez, lz) :=
        SFdiv_core_binary prec emax (Z.abs a) 0 (Z.abs b) 0 in
      match binary_round_aux prec emax s mz ez lz with
      | S754_infinity _ => Raise OverflowError
      | f => Ok f
      end.

Definition mul (x y : spec_float) : spec_float := SFmul prec emax x y.
Definition add (x y : spec_float) : spec_float := SFadd prec emax x y.

(** The signed mantissa of a finite double. *)
Definition signed (s : bool) (m : positive) : Z :=
  if s then Zneg m else Zpos m.

(** [int(x)]: truncation toward zero. *)
Definition to_int (x : spec_float) : Result Z :=
  match x with
  | S754_zero _ => Ok 0
  | S754_finite s m e =>
      if 0 <=? e then Ok (signed s m * 2 ^ e)
      else Ok (Z.quot (signed s m) (2 ^ (- e)))
  | S754_infinity _ => Raise OverflowError
  | S754_nan => Raise (ValueError "cannot convert float NaN to integer")
  end.

(** [math.floor(x)]: the largest integer not above [x]. *)
Definition floor (x : spec_float) : Result Z :=
  match x with
  | S754_zero _ => Ok 0
  | S754_finite s m e =>
      if 0 <=? e then Ok (signed s m * 2 ^ e)
      else Ok (Z.div (signed s m) (2 ^ (- e)))
  | S754_infinity _ => Raise OverflowError
  | S754_nan => Raise (ValueError "cannot convert float NaN to integer")
  end.

End Float.

(** [r1 + dr * blend] with int [r1], [dr] and float [blend]. *)
Definition blend_value (r1 dr : Z) (blend : spec_float) : Result spec_float :=
  fdr <- Float.of_int dr ;;
  fr1 <- Float.of_int r1 ;;
  Ok (Float.add fr1 (Float.mul fdr blend)).

(** [int(r1 + dr * blend)]. *)
Definition blend_channel (r1 dr : Z) (blend : spec_float) : Result Z :=
  v <- blend_value r1 dr blend ;; Float.to_int v.

(** ** String formatting *)

(** One hexadecimal digit, upper case. *)
Definition hex_digit (d : Z) : ascii :=
  if d <? 10 then ascii_of_nat (48 + Z.to_nat d)
  else ascii_of_nat (55 + Z.to_nat d).

Fixpoint hex_digits (fuel : nat) (n : Z) (acc : string) : string :=
  match fuel with
  | O => acc
  | S fuel' =>
      let acc' := String (hex_digit (n mod 16)) acc in
      if n / 16 =? 0 then acc' else hex_digits fuel' (n / 16) acc'
  end.

(** [f"{n:02X}"]: upper-case hexadecimal, sign-aware zero padding to
    width 2. *)
Definition format_02X (n : Z) : string :=
  let digits (k : Z) := hex_digits (S (Z.to_nat (Z.log2 k))) k EmptyString in
  if n <? 0 then String "-" (digits (- n))
  else
    let d := digits n in
    if (String.length d <? 2)%nat then String "0" d else d.

(** [f"#{red}{green}{blue}"]. *)
Definition hex_token (red green blue : string) : string :=
  String "#" (red ++ green ++ blue).

(** ** The collaborators from rich and numpy *)

Module Rich.

(** [rich.control.strip_control_codes]: bell, backspace, vertical tab,
    form feed and carriage return are removed. *)
Definition is_control (c : ascii) : bool :=
  let n := nat_of_ascii c in
  existsb (Nat.eqb n) [7; 8; 11; 12; 13]%nat.

Fixpoint strip_control_codes (text : string) : string :=
  match text with
  | EmptyString => EmptyString
  | String c rest =>
      if is_control c then strip_control_codes rest
      else String c (strip_control_codes rest)
  end.

(** A parsed colour: a 24-bit triplet, or a colour known by name. *)
Inductive RichColor : Type :=
| TrueColor (red green blue : Z)
| NamedColor (name : string).

Definition hex_value (c : ascii) : option Z :=
  let n := Z.of_nat (nat_of_ascii c) in
  if (48 <=? n) && (n <=? 57) then Some (n - 48)
  else if (65 <=? n) && (n <=? 70) then Some (n - 55)
  else if (97 <=? n) && (n <=? 102) then Some (n - 87)
  else None.

Definition hex_pair (a b : ascii) : option Z :=
  match hex_value a, hex_value b with
  | Some x, Some y => Some (16 * x + y)
  | _, _ => None
  end.

(** [Color.parse] on a token that starts with [#]: six hexadecimal
    digits must follow (the token is lower-cased first, so either case
    is read). *)
Definition Color_parse (token : string) : Result RichColor :=
  match token with
  | String "#" (String r1 (String r2 (String g1 (String g2
      (String b1 (String b2 EmptyString)))))) =>
      match hex_pair r1 r2, hex_pair g1 g2, hex_pair b1 b2 with
      | Some r, Some g, Some b => Ok (TrueColor r g b)
      | _, _, _ => Raise (ColorParseError token)
      end
  | _ => Raise (ColorParseError token)
  end.

(** [rich.style.Style]: foreground and background colour and the two
    bit fields of the attributes (values, and which of them are set).
    Two styles are equal when all of these are. *)
Record Style : Type := mkStyle {
  color : option RichColor;
  bgcolor : option RichColor;
  attributes : Z;
  set_attributes : Z
}.

Definition Style_null : Style := mkStyle None None 0 0.

(** [bool(style)] is false exactly for the null style. *)
Definition Style_is_null (s : Style) : bool :=
  match color s, bgcolor s with
  | None, None => set_attributes s =? 0
  | _, _ => false
  end.

(** [Style(color=token)]. *)
Definition Style_of_color (token : string) : Result Style :=
  c <- Color_parse token ;; Ok (mkStyle (Some c) None 0 0).

(** [a + b]: what [b] sets overrides [a]. *)
Definition Style_add (a b : Style) : Style :=
  mkStyle
    (match color b with Some c => Some c | None => color a end)
    (match bgcolor b with Some c => Some c | None => bgcolor a end)
    (Z.lor (Z.land (attributes a) (Z.lnot (set_attributes b)))
           (Z.land (attributes b) (set_attributes b)))
    (Z.lor (set_attributes a) (set_attributes b)).

(** [style.without_color]. *)
Definition Style_without_color (s : Style) : Style :=
  mkStyle None None (attributes s) (set_attributes s).

Definition RichColor_eq_dec (a b : RichColor) : {a = b} + {a <> b}.
Proof. decide equality; (apply Z.eq_dec || apply string_dec). Defined.

Definition Style_eq_dec (a b : Style) : {a = b} + {a <> b}.
Proof.
  decide equality; try apply Z.eq_dec;
    decide equality; apply RichColor_eq_dec.
Defined.

(** [a == b] on styles. *)
Definition Style_eqb (a b : Style) : bool :=
  if Style_eq_dec a b then true else false.

(** [rich.text.Span]: the half-open range [[start, end)] and its style. *)
Record Span : Type := mkSpan {
  start : Z;
  end_ : Z;
  style : Style
}.

End Rich.

Module Numpy.

(** [arange(n)]. *)
Definition arange (n : Z) : list Z := range n.

(** [array(xs).cumsum()]. *)
Fixpoint cumsum_from (acc : Z) (xs : list Z) : list Z :=
  match xs with
  | [] => []
  | x :: rest => (acc + x) :: cumsum_from (acc + x) rest
  end.

Definition cumsum (xs : list Z) : list Z := cumsum_from 0 xs.

(** [array_split(ary, Nsections)] on a one-dimensional array. *)
Definition array_split (ary : list Z) (Nsections : Z)
  : Result (list (list Z)) :=
  let Ntotal := Z.of_nat (List.length ary) in
  if Nsections <=? 0
  then Raise (ValueError "number sections must be larger than 0.")
  else
    let Neach_section := Ntotal / Nsections in
    let extras := Ntotal mod Nsections in
    let section_sizes :=
      [0] ++ repeat (Neach_section + 1) (Z.to_nat extras)
          ++ repeat Neach_section (Z.to_nat (Nsections - extras)) in
    let div_points := cumsum section_sizes in
    Ok (map (fun i =>
               let st := nth (Z.to_nat i) div_points 0 in
               let en := nth (Z.to_nat (i + 1)) div_points 0 in
               slice ary st en)
            (range Nsections)).

End Numpy.

(** ** Colours *)

(** [gradient_text.color.Color], as far as the gradient code reads it:
    the token it was made from and its [rgb_tuple]. *)
Record Color : Type := mkColor {
  original : string;
  rgb_tuple : Z * Z * Z
}.

(** Modelled from the spec: [Color.hex].  The module
    [gradient_text.color] is not among the sources; the spec describes a
    Color as "convertible to an 8-bit RGB triple", and [hex] is that
    triple written as a [#RRGGBB] token. *)
Definition Color_hex (c : Color) : string :=
  let '(r, g, b) := rgb_tuple c in
  hex_token (format_02X r) (format_02X g) (format_02X b).

Definition valid_channel (x : Z) : bool := (0 <=? x) && (x <=? 255).

(** The three channels are 8-bit values. *)
Definition valid_color (c : Color) : bool :=
  let '(r, g, b) := rgb_tuple c in
  valid_channel r && valid_channel g && valid_channel b.

(** The three formatted channels of one character, then
    [f"#{red}{green}{blue}"]: the lines shared by [_substring_spans],
    [_gradient_spans] and [_calculate_span]. *)
Definition blend_color (r1 g1 b1 dr dg db : Z) (blend : spec_float)
  : Result string :=
  red <- blend_channel r1 dr blend ;;
  green <- blend_channel g1 dg blend ;;
  blue <- blend_channel b1 db blend ;;
  Ok (hex_token (format_02X red) (format_02X green) (format_02X blue)).

(** [color_list.py] *)
Module ColorList.
Section Palette.

(** The RGB triple [Color(name)] resolves a palette name to; the table
    lives in [gradient_text.color]. *)
Variable named_rgb : string -> Z * Z * Z.

Definition Color_of_name (name : string) : Color :=
  mkColor name (named_rgb name).

Definition colors : list string :=
  [ "magenta"; "violet"; "purple"; "blue"; "lightblue";
    "cyan"; "lime"; "yellow"; "orange"; "red" ]%string.

(** [ColorList(invert).color_list]; [start_index] is the outcome of
    [randint(0, 9)]. *)
Definition color_list (start_index : Z) (invert : bool)
  : Result (list Color) :=
  let step := if invert then -1 else 1 in
  random_colors <-
    for_each (range 10)
      (fun random_colors index =>
         let current := start_index + index * step in
         let current := if current >? 9 then current - 10 else current in
         let current := if current <? 0 then current + 10 else current in
         name <- getitem colors current ;;
         Ok (random_colors ++ [name]))
      [] ;;
  (* ten draws from [cycle(random_colors)] *)
  Ok (map Color_of_name (firstn 10 random_colors)).

End Palette.
End ColorList.

(** [gradient.py] *)
Module Gradient.
Import Rich.

(** The [text] argument: a [str], or a rich [Text] with its plain
    string and spans. *)
Inductive TextArg : Type :=
| Str (s : string)
| RichText (plain : string) (spans : list Span).

(** The [style] argument: [None], a [Style] instance (the default
    is [Style.null()]), or a [str] with the style that [Style.parse]
    reads from it, if it reads one. *)
Inductive StyleArg : Type :=
| StyleNone
| StyleInstance (s : Style)
| StyleDefinition (parsed : option Style).

(** The attributes of a [Gradient] instance. *)
Record Self : Type := mkSelf {
  _text : string;
  _length : Z;
  hues : Z;
  _style : Style;
  _colors : list Color;
  _spans : list Span
}.

(** The locals [r1, g1, b1, dr, dg, db]; they keep their values from
    one round of the outer loop to the next. *)
Definition ColorVars : Type := (Z * Z * Z * Z * Z * Z)%type.

Definition bound {A : Type} (v : option A) : Result A :=
  match v with
  | Some a => Ok a
  | None => Raise UnboundLocalError
  end.

Definition pair_vars (colors : list Color) (i : Z) : Result ColorVars :=
  color1 <- getitem colors i ;;
  let '(r1, g1, b1) := rgb_tuple color1 in
  color2 <- getitem colors (i + 1) ;;
  let '(r2, g2, b2) := rgb_tuple color2 in
  Ok (r1, g1, b1, r2 - r1, g2 - g1, b2 - b1).

Definition _substring_indexes (self : Self) : Result (list (list Z)) :=
  let length := _length self in
  let gradients := hues self - 1 in
  Numpy.array_split (Numpy.arange length) gradients.

Definition _substring_spans (self : Self) (indexes : list (list Z))
  : Result (list Span) :=
  '(spans, _) <-
    for_each (enumerate indexes)
      (fun '(spans, vars) '(main_index, substring_index) =>
         let substring_length := Z.of_nat (List.length substring_index) in
         vars <- (if main_index <? hues self
                  then v <- pair_vars (_colors self) main_index ;; Ok (Some v)
                  else Ok vars) ;;
         spans <-
           for_each (range substring_length)
             (fun spans index =>
                blend <- Float.int_truediv index substring_length ;;
                '(r1, g1, b1, dr, dg, db) <- bound vars ;;
                hex_color <- blend_color r1 g1 b1 dr dg db blend ;;
                color_style <- Style_of_color hex_color ;;
                let span_style := Style_add color_style (_style self) in
                span_start <- getitem substring_index index ;;
                let span_end := span_start + 1 in
                Ok (spans ++ [mkSpan span_start span_end span_style]))
             spans ;;
         Ok (spans, vars))
      ([], None) ;;
  Ok spans.

Definition simplify_spans (spans : list Span) : Result (list Span) :=
  '(simplified_spans, last_span) <-
    for_each (enumerate spans)
      (fun '(simplified_spans, last_span) '(index, span) =>
         if index =? 0 then Ok (simplified_spans, Some span)
         else
           last <- bound last_span ;;
           if Style_eqb (style span) (style last)
           then
             let start := start last in
             Ok (simplified_spans, Some (mkSpan start (end_ span) (style span)))
           else Ok (simplified_spans ++ [last], Some span))
      ([], None) ;;
  last <- bound last_span ;;
  Ok (simplified_spans ++ [last]).

(** The [style] setter.  Whatever its first branch assigns, the last
    line assigns [Style.parse(style)]; [Style.parse] starts with
    [style_definition.strip()], which only a [str] has, and raises
    [StyleSyntaxError] on a definition it cannot read. *)
Definition set_style (style : StyleArg) : Result Style :=
  match style with
  | StyleNone => Raise AttributeError
  | StyleInstance _ => Raise AttributeError
  | StyleDefinition (Some parsed) => Ok parsed
  | StyleDefinition None => Raise StyleSyntaxError
  end.

(** The [text] setter. *)
Definition set_text (self : Self) (text : TextArg) : Result Self :=
  match text with
  | RichText plain spans =>
      let sanitized_text := strip_control_codes plain in
      Ok (mkSelf sanitized_text (Z.of_nat (String.length sanitized_text))
            (hues self) (_style self) (_colors self) spans)
  | Str text =>
      if String.eqb text EmptyString
      then Raise (ValueError "Text cannot be empty.")
      else
        let sanitized_text := strip_control_codes text in
        Ok (mkSelf sanitized_text (Z.of_nat (String.length sanitized_text))
              (hues self) (_style self) (_colors self) (_spans self))
  end.

Definition gradient_size (self : Self) : Result Z :=
  let length := _length self in
  let gradients := hues self - 1 in
  floordiv length gradients.

Definition generate_style (self : Self) (color : string) : Result Style :=
  color_style <- Style_of_color color ;;
  Ok (Style_add (_style self) color_style).

(** [Span[a, b, s]]: subscripting the class [Span] calls no
    constructor; it builds a [types.GenericAlias] whose [__origin__] is
    [Span] and whose [__args__] are [(a, b, s)]. *)
Record SpanAlias : Type := mkSpanAlias {
  __args__ : Z * Z * Style
}.

(** [_gradient_spans]: the list it returns holds the aliases that
    [Span[full_index, full_index + 1, style]] builds. *)
Definition _gradient_spans (self : Self) : Result (list SpanAlias) :=
  let length := _length self in
  let gradients := hues self - 1 in
  gradient_size <- floordiv length gradients ;;
  '(gradient_spans, _) <-
    for_each (range gradients)
      (fun '(gradient_spans, vars) i =>
         let begin := i * gradient_size in
         let end' := begin + gradient_size in
         let end' := if i =? gradients then length else end' in
         vars <- (if i <? gradients
                  then v <- pair_vars (_colors self) i ;; Ok (Some v)
                  else Ok vars) ;;
         gradient_spans <-
           for_each (range gradient_size)
             (fun gradient_spans j =>
                blend <- Float.int_truediv j gradient_size ;;
                '(r1, g1, b1, dr, dg, db) <- bound vars ;;
                color <- blend_color r1 g1 b1 dr dg db blend ;;
                color_style <- Style_of_color color ;;
                let style := Style_add color_style (_style self) in
                let full_index := begin + j in
                let new_span :=
                  mkSpanAlias (full_index, full_index + 1, style) in
                Ok (gradient_spans ++ [new_span]))
             gradient_spans ;;
         Ok (gradient_spans, vars))
      ([], None) ;;
  Ok gradient_spans.

Section Init.

Variable named_rgb : string -> Z * Z * Z.

(** ["█" * n]; the block is kept as the one-character code 219. *)
Definition block_text (n : Z) : string :=
  string_of_list_ascii (repeat (ascii_of_nat 219) (Z.to_nat n)).

(** Lines 105-152 of [__init__]: every assignment and check that comes
    before the spans are computed.  [Text.__init__] (line 113) assigns
    [self.style], which runs the [style] setter, and line 130 runs it
    again; [start_index] is the draw [randint(0, 9)] of the default
    palette. *)
Definition init_state (text : TextArg) (colors : option (list Color))
  (rainbow invert : bool) (hues : Z) (color_sample : bool) (style : StyleArg)
  (spans : option (list Span)) (start_index : Z) : Result Self :=
  let spans := match spans with None => [] | Some l => l end in
  text <- match text with
          | Str s => Ok s
          | RichText plain _ => Raise AttributeError
          end ;;
  let sanitized_text := strip_control_codes text in
  _style <- set_style style ;;
  let _length := Z.of_nat (String.length sanitized_text) in
  let _text := if color_sample then block_text _length else sanitized_text in
  let hues := if rainbow then 10 else hues in
  _style <- set_style style ;;
  _colors <- match colors with
             | Some (c :: cs) => Ok (c :: cs)
             | None =>
                 palette <- ColorList.color_list named_rgb start_index invert ;;
                 Ok (slice palette 0 hues)
             | Some [] => Raise (ValueError "Colors must be a list of colors.")
             end ;;
  if negb (1 <? Z.of_nat (List.length _colors))
  then Raise (AssertionError "Gradient must have at least two colors.")
  else if negb (Z.of_nat (List.length _colors) <? _length)
  then Raise (AssertionError "Gradient must have fewer colors than characters.")
  else Ok (mkSelf _text _length hues _style _colors spans).

(** [Gradient(text, colors, rainbow, invert, hues, color_sample, style,
    spans=spans)]. *)
Definition __init__ (text : TextArg) (colors : option (list Color))
  (rainbow invert : bool) (hues : Z) (color_sample : bool) (style : StyleArg)
  (spans : option (list Span)) (start_index : Z) : Result Self :=
  self <- init_state text colors rainbow invert hues color_sample style
            spans start_index ;;
  substring_indexes <- _substring_indexes self ;;
  spans <- _substring_spans self substring_indexes ;;
  simplified <- simplify_spans spans ;;
  Ok (mkSelf (_text self) (_length self) (Gradient.hues self) (_style self)
        (_colors self) simplified).

End Init.
End Gradient.

(** [_gradient_substring.py] *)
Module GradientSubstring.
Import Rich.

(** The [style] argument by the branch of [__init__] it takes: falsy
    ([None], the empty string or a null [Style]), the string ["none"], any other
    string with the [Style] it parses to, or a non-null [Style]. *)
Inductive StyleArg : Type :=
| StyleFalsy
| StyleNone
| StyleStr (parsed : Style)
| StyleObj (s : Style).

Record Self : Type := mkSelf {
  _length : Z;
  text : string;
  start_index : Z;
  color_start : Color;
  color_end : Color;
  style : Style;
  _spans : list Span
}.

(** [Style.parse(f"{style} {token}")]: a null style prints as ["none"],
    which is not a word of a longer definition. *)
Definition parse_with_color (s : Style) (token : string) : Result Style :=
  if Style_is_null s then Raise StyleSyntaxError
  else color_style <- Style_of_color token ;; Ok (Style_add s color_style).

Definition _calculate_span (self : Self) (index : Z) : Result Span :=
  blend <- Float.int_truediv index (_length self) ;;
  let span_start := start_index self + index in
  let '(r1, g1, b1) := rgb_tuple (color_start self) in
  let '(r2, g2, b2) := rgb_tuple (color_end self) in
  let dr := r2 - r1 in
  let dg := g2 - g1 in
  let db := b2 - b1 in
  span_color <- blend_color r1 g1 b1 dr dg db blend ;;
  color_style <- Style_of_color span_color ;;
  let span_style := Style_add (style self) color_style in
  Ok (mkSpan span_start (span_start + 1) span_style).

(** [executor.map] yields the results in the order of the indexes. *)
Definition calculate_spans_concurrently (self : Self) : Result (list Span) :=
  map_result (_calculate_span self) (range (_length self)).

Definition simplify_spans (spans : list Span) : Result (list Span) :=
  '(simplified_spans, last_span) <-
    for_each (enumerate spans)
      (fun '(simplified_spans, last_span) '(index, span) =>
         if index =? 0 then Ok (simplified_spans, Some span)
         else
           last <- Gradient.bound last_span ;;
           if Style_eqb (Rich.style span) (Rich.style last)
           then
             let start := start last in
             Ok (simplified_spans,
                 Some (mkSpan start (end_ span) (Rich.style span)))
           else Ok (simplified_spans ++ [last], Some span))
      ([], None) ;;
  last <- Gradient.bound last_span ;;
  Ok (simplified_spans ++ [last]).

(** The style the instance keeps and the style of the first span. *)
Definition styles (style : StyleArg) (color_end : Color)
  : Result (Style * Style) :=
  match style with
  | StyleNone => Ok (Style_null, Style_null)
  | StyleStr parsed =>
      let self_style := Style_without_color parsed in
      end_style <- parse_with_color self_style (Color_hex color_end) ;;
      Ok (self_style, end_style)
  | StyleObj s =>
      end_style <- parse_with_color s (Color_hex color_end) ;;
      Ok (s, end_style)
  | StyleFalsy =>
      end_style <- Style_of_color (Color_hex color_end) ;;
      Ok (Style_null, end_style)
  end.

(** The list [initial_spans] handed to [simplify_spans]. *)
Definition initial_spans (self : Self) (end_style : Style)
  : Result (list Span) :=
  spans <- calculate_spans_concurrently self ;;
  Ok ([mkSpan 0 (_length self - 1) end_style] ++ spans).

Definition __init__ (text : string) (start_index : Z)
  (color_start color_end : Color) (style : StyleArg) : Result Self :=
  let sanitized_text := strip_control_codes text in
  let _length := Z.of_nat (String.length sanitized_text) in
  '(self_style, end_style) <- styles style color_end ;;
  let self := mkSelf _length sanitized_text start_index color_start
                color_end self_style [] in
  initial <- initial_spans self end_style ;;
  simplified_spans <- simplify_spans initial ;;
  Ok (mkSelf _length sanitized_text start_index color_start color_end
        self_style simplified_spans).

End GradientSubstring.

(** ** Vocabulary of the properties *)

(** A shift record that has lost a non-zero bit. *)
Definition inexact (mrs : shr_record) : bool := shr_r mrs || shr_s mrs.

(** [between s A K x]: the double [x] has sign [s], a non-positive
    exponent, and its magnitude lies between the integers [A] and [K]. *)
Definition between (s : bool) (A K : Z) (x : spec_float) : Prop :=
  match x with
  | S754_zero s' => s' = s /\ A <= 0 <= K
  | S754_finite s' m e =>
      s' = s /\ e <= 0 /\ A * 2 ^ (- e) <= Zpos m <= K * 2 ^ (- e)
  | _ => False
  end.

(** One channel in doubles with [floor] for [int]: [blend_value] at
    [t = i / L], rounded down. *)
Definition interpolate_channel (c1 c2 i L : Z) : Result Z :=
  t <- Float.int_truediv i L ;;
  v <- blend_value c1 (c2 - c1) t ;;
  Float.floor v.

(** The style [Style(color=...)] of a 24-bit colour. *)
Definition color_style (rgb : Z * Z * Z) : Rich.Style :=
  let '(r, g, b) := rgb in
  Rich.mkStyle (Some (Rich.TrueColor r g b)) None 0 0.

Section SpanVocabulary.
Import Rich.

(** The merge loop of [simplify_spans] from the second span on, with
    [last] the running span. *)
Fixpoint compress (last : Span) (rest : list Span) : list Span :=
  match rest with
  | [] => [last]
  | span :: rest' =>
      if Style_eqb (style span) (style last)
      then compress (mkSpan (start last) (end_ span) (style span)) rest'
      else last :: compress span rest'
  end.

(** [tiles a b spans]: the spans are non-empty ranges, each starting
    where the one before ends, from [a] up to [b]. *)
Fixpoint tiles (a b : Z) (spans : list Span) : Prop :=
  match spans with
  | [] => a = b
  | s :: rest => start s = a /\ a < end_ s /\ tiles (end_ s) b rest
  end.

(** No two neighbours carry the same style. *)
Fixpoint no_adjacent_equal (spans : list Span) : Prop :=
  match spans with
  | s1 :: rest =>
      match rest with
      | s2 :: _ => style s1 <> style s2
      | [] => True
      end /\ no_adjacent_equal rest
  | [] => True
  end.

(** The style of the first span that covers character [i]. *)
Fixpoint style_at (spans : list Span) (i : Z) : option Style :=
  match spans with
  | [] => None
  | s :: rest =>
      if (start s <=? i) && (i <? end_ s) then Some (style s)
      else style_at rest i
  end.

(** Two ranges share a character. *)
Definition overlap (s t : Span) : Prop :=
  exists i, start s <= i < end_ s /\ start t <= i < end_ t.

(** The span that the inner loop of [_substring_spans] appends for the
    character at local [index]. *)
Definition substring_span (base : Style) (vars : Gradient.ColorVars)
  (substring_index : list Z) (index : Z) : Result Span :=
  let substring_length := Z.of_nat (List.length substring_index) in
  blend <- Float.int_truediv index substring_length ;;
  let '(r1, g1, b1, dr, dg, db) := vars in
  hex_color <- blend_color r1 g1 b1 dr dg db blend ;;
  color_style <- Style_of_color hex_color ;;
  span_start <- getitem substring_index index ;;
  Ok (mkSpan span_start (span_start + 1) (Style_add color_style base)).

(** The alias that the inner loop of [_gradient_spans] appends. *)
Definition gradient_span (base : Style) (vars : Gradient.ColorVars)
  (begin gradient_size j : Z) : Result Gradient.SpanAlias :=
  blend <- Float.int_truediv j gradient_size ;;
  let '(r1, g1, b1, dr, dg, db) := vars in
  color <- blend_color r1 g1 b1 dr dg db blend ;;
  color_style <- Style_of_color color ;;
  Ok (Gradient.mkSpanAlias
        (begin + j, begin + j + 1, Style_add color_style base)).

(** The alias [Span[start, end, style]] of the fields of a span, and
    the span [Span(a, b, s)] of the arguments of an alias. *)
Definition span_alias (sp : Span) : Gradient.SpanAlias :=
  Gradient.mkSpanAlias (start sp, end_ sp, style sp).

Definition alias_span (alias : Gradient.SpanAlias) : Span :=
  let '(a, b, s) := Gradient.__args__ alias in mkSpan a b s.

(** [aliases == spans] on two lists: equal lengths and equal items,
    and an alias is never equal to a [Span]. *)
Definition aliases_eqb (aliases : list Gradient.SpanAlias)
  (spans : list Span) : bool :=
  match aliases, spans with
  | [], [] => true
  | _, _ => false
  end.

(** A [Gradient] with another list of anchor colours. *)
Definition with_colors (self : Gradient.Self) (colors : list Color)
  : Gradient.Self :=
  Gradient.mkSelf (Gradient._text self) (Gradient._length self)
    (Gradient.hues self) (Gradient._style self) colors
    (Gradient._spans self).

End SpanVocabulary.

Section CharacterVocabulary.
Import Rich.

(** The [i]-th division point of [array_split] over [N] elements in [k]
    sections. *)
Definition div_point (N k i : Z) : Z := i * (N / k) + Z.min i (N mod k).

(** The [i]-th section: the indexes from one division point up to the
    next. *)
Definition section (N k i : Z) : list Z :=
  map (fun j => div_point N k i + j)
      (range (div_point N k (i + 1) - div_point N k i)).

(** [f"{n:02X}"] has two digits, which read back as [n]. *)
Definition byte_roundtrip (n : Z) : bool :=
  match format_02X n with
  | String a (String b EmptyString) =>
      match hex_pair a b with
      | Some m => m =? n
      | None => false
      end
  | _ => false
  end.

(** The three channels [rgb] are the interpolation in doubles of the
    channels of the anchors [c1] and [c2]. *)
Definition interpolated (c1 c2 : Z * Z * Z) (i L : Z) (rgb : Z * Z * Z)
  : Prop :=
  let '(r1, g1, b1) := c1 in
  let '(r2, g2, b2) := c2 in
  let '(r, g, b) := rgb in
  interpolate_channel r1 r2 i L = Ok r /\
  interpolate_channel g1 g2 i L = Ok g /\
  interpolate_channel b1 b2 i L = Ok b.

(** Each channel lies between the channels of the two anchors. *)
Definition within (c1 c2 rgb : Z * Z * Z) : Prop :=
  let '(r1, g1, b1) := c1 in
  let '(r2, g2, b2) := c2 in
  let '(r, g, b) := rgb in
  Z.min r1 r2 <= r <= Z.max r1 r2 /\
  Z.min g1 g2 <= g <= Z.max g1 g2 /\
  Z.min b1 b2 <= b <= Z.max b1 b2.

(** Each channel of [a] is at most 1 away from the channel of [b]. *)
Definition within_one (a b : Z * Z * Z) : Prop :=
  let '(r1, g1, b1) := a in
  let '(r2, g2, b2) := b in
  Z.abs (r1 - r2) <= 1 /\ Z.abs (g1 - g2) <= 1 /\ Z.abs (b1 - b2) <= 1.

(** The locals that [pair_vars] computes from two colours. *)
Definition vars_of (color1 color2 : Color) : Gradient.ColorVars :=
  let '(r1, g1, b1) := rgb_tuple color1 in
  let '(r2, g2, b2) := rgb_tuple color2 in
  (r1, g1, b1, r2 - r1, g2 - g1, b2 - b1).

(** What the code computes for the character at local index [i] of a
    chunk of [L] characters between two anchors: channels, token and
    the style made of them. *)
Definition char_style (color1 color2 : Color) (i L : Z) (rgb : Z * Z * Z)
  (cs : Style) : Prop :=
  interpolated (rgb_tuple color1) (rgb_tuple color2) i L rgb /\
  within (rgb_tuple color1) (rgb_tuple color2) rgb /\
  (exists token,
     token = (let '(r, g, b) := rgb in
              hex_token (format_02X r) (format_02X g) (format_02X b)) /\
     String.length token = 7%nat /\
     Style_of_color token = Ok cs) /\
  cs = color_style rgb /\
  (i = 0 -> rgb = rgb_tuple color1).

(** [unit_spans idx spans]: one span [[i, i + 1)] per index of [idx],
    in the same order. *)
Definition unit_spans (idx : list Z) (spans : list Span) : Prop :=
  map start spans = idx /\ Forall (fun s => end_ s = start s + 1) spans.

(** The spans of one chunk, given the locals of its colour pair. *)
Definition chunk_spans (base : Style) (colors : list Color)
  (entry : Z * list Z) : Result (list Span) :=
  let '(main_index, substring_index) := entry in
  vars <- Gradient.pair_vars colors main_index ;;
  map_result (substring_span base vars substring_index)
             (range (Z.of_nat (List.length substring_index))).

(** The aliases of one equal-sized chunk of [_gradient_spans]. *)
Definition gradient_chunk_spans (base : Style) (colors : list Color)
  (gradient_size i : Z) : Result (list Gradient.SpanAlias) :=
  vars <- Gradient.pair_vars colors i ;;
  map_result (gradient_span base vars (i * gradient_size) gradient_size)
             (range gradient_size).

(** The colour a 24-bit triple parses to. *)
Definition true_color (rgb : Z * Z * Z) : RichColor :=
  let '(r, g, b) := rgb in TrueColor r g b.

End CharacterVocabulary.

(** ** Sample values *)

Definition red : Color := mkColor "red" (255, 0, 0).
Definition lime : Color := mkColor "lime" (0, 255, 0).
Definition blue : Color := mkColor "blue" (0, 0, 255).
Definition yellow : Color := mkColor "yellow" (255, 255, 0).

(** The style argument given as the empty string, which parses to the
    null style, and the default argument [Style.null()]. *)
Definition empty_style : Gradient.StyleArg :=
  Gradient.StyleDefinition (Some Rich.Style_null).
Definition default_style : Gradient.StyleArg :=
  Gradient.StyleInstance Rich.Style_null.

(** A stand-in for the palette table of [gradient_text.color]. *)
Definition sample_rgb (name : string) : Z * Z * Z :=
  if String.eqb name "red" then (255, 0, 0)
  else if String.eqb name "blue" then (0, 0, 255)
  else if String.eqb name "lime" then (0, 255, 0)
  else (255, 0, 255).

(** ** The other methods *)

(** The methods of [ColorList] that read or change its attribute
    [color_list]. *)
Module ColorListMethods.

Definition __getitem__ (color_list : list Color) (index : Z) : Result Color :=
  getitem color_list index.

Definition __len__ (color_list : list Color) : Z :=
  Z.of_nat (List.length color_list).

(** [self.color_list.reverse()]: the attribute after the call. *)
Definition reverse (color_list : list Color) : list Color :=
  rev color_list.

Definition get_first_color (color_list : list Color) : Result Color :=
  getitem color_list 0.

Definition get_last_color (color_list : list Color) : Result Color :=
  getitem color_list (-1).

End ColorListMethods.

(** What a call ends in when the builtin [tuple] is among the callees:
    a value, one of the exceptions above, or the [TypeError] of a
    builtin called with too many arguments. *)
Inductive Outcome (A : Type) : Type :=
| Returns (a : A)
| Raises (e : Exception)
| RaisesTypeError (msg : string).

Arguments Returns {A} a.
Arguments Raises {A} e.
Arguments RaisesTypeError {A} msg.

(** The methods of [Gradient] that [__init__] does not call. *)
Module GradientMethods.
Import Rich.

(** The [color_sample] setter: the instance after the call and the
    value left in [_color_sample]. *)
Definition set_color_sample (self : Gradient.Self) (color_sample : bool)
  : Result (Gradient.Self * bool) :=
  self <- (if color_sample
           then Gradient.set_text self
                  (Gradient.Str (Gradient.block_text (Gradient._length self)))
           else Ok self) ;;
  Ok (self, color_sample).

(** [tuple(start, end)]: [tuple] takes at most one argument. *)
Definition tuple2 (start end' : Z) : Outcome (Z * Z) :=
  RaisesTypeError "tuple expected at most 1 argument, got 2".

(** The loop of [generate_indexes] over the substrings. *)
Fixpoint generate_indexes_loop (substring_indexes : list (list Z))
  (indexes : list (Z * Z)) : Outcome (list (Z * Z)) :=
  match substring_indexes with
  | [] => Returns indexes
  | substring :: rest =>
      match getitem substring 0 with
      | Raise e => Raises e
      | Ok start =>
          match getitem substring (-1) with
          | Raise e => Raises e
          | Ok end' =>
              match tuple2 start end' with
              | Returns t => generate_indexes_loop rest (indexes ++ [t])
              | Raises e => Raises e
              | RaisesTypeError msg => RaisesTypeError msg
              end
          end
      end
  end.

(** [generate_indexes]: it has no [return], so a call that ends
    normally gives [None]. *)
Definition generate_indexes (self : Gradient.Self) : Outcome unit :=
  match Numpy.array_split (Numpy.arange (Gradient._length self))
          (Gradient.hues self - 1) with
  | Raise e => Raises e
  | Ok substring_indexes =>
      match generate_indexes_loop substring_indexes [] with
      | Returns _ => Returns tt
      | Raises e => Raises e
      | RaisesTypeError msg => RaisesTypeError msg
      end
  end.

End GradientMethods.

(** ** Vocabulary: palette, text and exact arithmetic *)

Section MethodVocabulary.
Import Rich.

(** The palette colour at position [i], counted cyclically. *)
Definition palette_color (named_rgb : string -> Z * Z * Z) (i : Z)
  : option Color :=
  option_map (ColorList.Color_of_name named_rgb)
             (nth_error ColorList.colors (Z.to_nat (i mod 10))).

(** Every palette name resolves to 8-bit channels. *)
Definition valid_palette (named_rgb : string -> Z * Z * Z) : bool :=
  forallb (fun name => valid_color (ColorList.Color_of_name named_rgb name))
          ColorList.colors.

(** No character of the text is a control code that
    [strip_control_codes] removes. *)
Definition sanitized (text : string) : bool :=
  forallb (fun c => negb (is_control c)) (list_ascii_of_string text).

(** The exact value [floor(c1 + (c2 - c1) * i / L)] of the
    interpolation, in integer arithmetic. *)
Definition exact_channel (c1 c2 i L : Z) : Z :=
  (c1 * L + (c2 - c1) * i) / L.

(** [between_at s j A K x]: the double [x] has sign [s], is a multiple
    of [2 ^ - j], and its magnitude lies between [A / 2 ^ j] and
    [K / 2 ^ j]. *)
Definition between_at (s : bool) (j A K : Z) (x : spec_float) : Prop :=
  match x with
  | S754_zero s' => s' = s /\ A <= 0 <= K
  | S754_finite s' m e =>
      s' = s /\ e <= - j /\
      A * 2 ^ (- e - j) <= Zpos m <= K * 2 ^ (- e - j)
  | _ => False
  end.

(** [c] is the exact value of the interpolation or one below it, and
    the exact value when [(c2 - c1) * i / L] is not an integer. *)
Definition near_exact (c1 c2 i L c : Z) : Prop :=
  exact_channel c1 c2 i L - 1 <= c <= exact_channel c1 c2 i L /\
  (((c2 - c1) * i) mod L <> 0 -> c = exact_channel c1 c2 i L).

Definition near_exact_rgb (a b : Z * Z * Z) (i L : Z) (rgb : Z * Z * Z)
  : Prop :=
  let '(r1, g1, b1) := a in
  let '(r2, g2, b2) := b in
  let '(r, g, b) := rgb in
  near_exact r1 r2 i L r /\ near_exact g1 g2 i L g /\
  near_exact b1 b2 i L b.

(** From [x] to [y] no channel moves against the direction from [a] to
    [b]. *)
Definition toward (a b x y : Z * Z * Z) : Prop :=
  let '(r1, g1, b1) := a in
  let '(r2, g2, b2) := b in
  let '(xr, xg, xb) := x in
  let '(yr, yg, yb) := y in
  ((r1 <= r2 -> xr <= yr) /\ (r2 <= r1 -> yr <= xr)) /\
  ((g1 <= g2 -> xg <= yg) /\ (g2 <= g1 -> yg <= xg)) /\
  ((b1 <= b2 -> xb <= yb) /\ (b2 <= b1 -> yb <= xb)).

(** The colour that a character of a [Gradient] shows: the base style
    is added on top of the computed colour, so its colour, when it has
    one, is the one that shows. *)
Definition resolved_color (base : Style) (rgb : Z * Z * Z) : RichColor :=
  match color base with
  | Some c => c
  | None => true_color rgb
  end.

(** The channels [rgb] of the character at local index [i] of a chunk
    of [L] characters between two anchors, against exact arithmetic:
    each is the exact interpolation or one below it and lies between
    the anchors, the token of two hexadecimal digits per channel makes
    the style of [rgb], and at index 0 they are the channels of the
    first anchor. *)
Definition exact_char (color1 color2 : Color) (i L : Z) (rgb : Z * Z * Z)
  : Prop :=
  near_exact_rgb (rgb_tuple color1) (rgb_tuple color2) i L rgb /\
  within (rgb_tuple color1) (rgb_tuple color2) rgb /\
  (let '(r, g, b) := rgb in
   let token := hex_token (format_02X r) (format_02X g) (format_02X b) in
   String.length token = 7%nat /\
   Style_of_color token = Ok (color_style rgb)) /\
  (i = 0 -> rgb = rgb_tuple color1).

End MethodVocabulary.

(** * Properties *)

(** ** Doubles: rounding keeps integer bounds *)

Module FloatFacts.
Import Float.

Lemma digits2_pos_bounds (p : positive) :
  2 ^ (Zpos (digits2_pos p) - 1) <= Zpos p < 2 ^ Zpos (digits2_pos p).
Proof.
  induction p as [p IH | p IH | ]; cbn [digits2_pos].
  - rewrite Pos2Z.inj_succ.
    replace (Z.succ (Zpos (digits2_pos p)) - 1) with (Z.succ (Zpos (digits2_pos p) - 1)) by lia.
    rewrite !Z.pow_succ_r by lia. lia.
  - rewrite Pos2Z.inj_succ.
    replace (Z.succ (Zpos (digits2_pos p)) - 1) with (Z.succ (Zpos (digits2_pos p) - 1)) by lia.
    rewrite !Z.pow_succ_r by lia. lia.
  - cbn. lia.
Qed.

Lemma Zdigits2_nonneg (m : Z) : 0 <= Zdigits2 m.
Proof. destruct m; cbn; lia. Qed.

Lemma Zdigits2_upper (m : Z) : 0 <= m -> m < 2 ^ Zdigits2 m.
Proof.
  destruct m as [ | p | p]; cbn [Zdigits2]; intros H; try lia.
  apply digits2_pos_bounds.
Qed.

Lemma Zdigits2_lower (m : Z) : 0 < m -> 2 ^ (Zdigits2 m - 1) <= m.
Proof.
  destruct m as [ | p | p]; cbn [Zdigits2]; intros H; try lia.
  apply digits2_pos_bounds.
Qed.

(** If [m < 2 ^ k] then [m] has at most [k] binary digits. *)
Lemma Zdigits2_le (m k : Z) : 0 <= k -> 0 <= m -> m < 2 ^ k -> Zdigits2 m <= k.
Proof.
  intros Hk Hm Hlt.
  destruct (Z.eq_dec m 0) as [-> | Hne]; [cbn [Zdigits2]; lia | ].
  assert (Hlow := Zdigits2_lower m ltac:(lia)).
  destruct (Z_le_gt_dec (Zdigits2 m) k) as [ | Hgt]; [assumption | exfalso].
  assert (2 ^ k <= 2 ^ (Zdigits2 m - 1)) by (apply Z.pow_le_mono_r; lia).
  lia.
Qed.

Lemma iter_pos_nat {A : Type} (f : A -> A) (p : positive) (x : A) :
  iter_pos f p x = Nat.iter (Pos.to_nat p) f x.
Proof.
  revert x; induction p as [p IH | p IH | ]; intros x; cbn [iter_pos].
  - rewrite !IH. rewrite Pos2Nat.inj_xI.
    replace (S (2 * Pos.to_nat p))%nat with (Pos.to_nat p + (Pos.to_nat p + 1))%nat by lia.
    rewrite !Nat.iter_add. reflexivity.
  - rewrite !IH. rewrite Pos2Nat.inj_xO.
    replace (2 * Pos.to_nat p)%nat with (Pos.to_nat p + Pos.to_nat p)%nat by lia.
    rewrite Nat.iter_add. reflexivity.
  - reflexivity.
Qed.

Lemma shr_1_m (mrs : shr_record) : 0 <= shr_m mrs -> shr_m (shr_1 mrs) = shr_m mrs / 2.
Proof.
  destruct mrs as [m r s]; cbn [shr_m]. intros H.
  destruct m as [ | [p | p | ] | p]; cbn [shr_1 shr_m]; try lia.
  - reflexivity.
  - rewrite Pos2Z.inj_xI. apply Z.div_unique with (r := 1); lia.
  - rewrite Pos2Z.inj_xO. apply Z.div_unique with (r := 0); lia.
  - reflexivity.
Qed.

Lemma shr_1_inexact (mrs : shr_record) :
  0 <= shr_m mrs -> inexact mrs = false -> shr_m mrs mod 2 = 0 ->
  inexact (shr_1 mrs) = false.
Proof.
  destruct mrs as [m r s]; unfold inexact; cbn [shr_m shr_r shr_s]. intros H Hi Hmod.
  apply orb_false_iff in Hi as [-> ->].
  destruct m as [ | [p | p | ] | p]; cbn [shr_1 shr_r shr_s orb]; try reflexivity; try lia.
  - rewrite Pos2Z.inj_xI in Hmod.
    rewrite Z.add_comm, Z.mul_comm, Z.mod_add in Hmod by lia. discriminate Hmod.
  - cbn in Hmod. lia.
Qed.

Lemma shr_iter (n : nat) (mrs : shr_record) :
  0 <= shr_m mrs ->
  shr_m (Nat.iter n shr_1 mrs) = shr_m mrs / 2 ^ Z.of_nat n /\
  (inexact mrs = false -> shr_m mrs mod 2 ^ Z.of_nat n = 0 ->
   inexact (Nat.iter n shr_1 mrs) = false).
Proof.
  intros Hm. induction n as [ | n [IHm IHi]].
  - change (Nat.iter 0 shr_1 mrs) with mrs.
    change (Z.of_nat 0) with 0. rewrite Z.pow_0_r, Z.div_1_r. split; auto.
  - change (Nat.iter (S n) shr_1 mrs) with (shr_1 (Nat.iter n shr_1 mrs)).
    assert (Hpos : 0 < 2 ^ Z.of_nat n) by (apply Z.pow_pos_nonneg; lia).
    assert (Hq : 0 <= shr_m (Nat.iter n shr_1 mrs)).
    { rewrite IHm. apply Z.div_pos; lia. }
    rewrite Nat2Z.inj_succ, Z.pow_succ_r by lia.
    split.
    + rewrite shr_1_m by assumption. rewrite IHm.
      rewrite Z.div_div by lia. f_equal. lia.
    + intros Hi Hmod.
      assert (Hdiv : shr_m mrs mod 2 ^ Z.of_nat n = 0).
      { apply Z.mod_divide in Hmod; [ | lia].
        apply Z.mod_divide; [lia | ].
        destruct Hmod as [c Hc]. exists (c * 2). lia. }
      apply shr_1_inexact; auto.
      rewrite IHm.
      apply Z.mod_divide in Hmod; [ | lia]. destruct Hmod as [c Hc].
      rewrite Hc. replace (c * (2 * 2 ^ Z.of_nat n)) with ((c * 2) * 2 ^ Z.of_nat n) by lia.
      rewrite Z.div_mul by lia. apply Z.mod_mul. lia.
Qed.

Lemma fexp_eq (x : Z) : fexp prec emax x = Z.max (x - 53) (- 1074).
Proof. reflexivity. Qed.

Lemma loc_of_shr_record_exact (mrs : shr_record) :
  inexact mrs = false -> loc_of_shr_record mrs = loc_Exact.
Proof.
  destruct mrs as [m [ | ] [ | ]]; unfold inexact; cbn; congruence.
Qed.

Lemma shr_record_of_loc_m (m : Z) (l : location) :
  shr_m (shr_record_of_loc m l) = m.
Proof. destruct l as [ | [ | | ]]; reflexivity. Qed.

Lemma shr_fexp_spec (m e : Z) (l : location) :
  0 <= m -> e <= 0 -> m < 2 ^ (53 - e) ->
  exists mrs n,
    shr_fexp prec emax m e l = (mrs, e + n) /\ 0 <= n /\ e + n <= 0 /\
    shr_m mrs = m / 2 ^ n /\
    (l = loc_Exact -> m mod 2 ^ n = 0 -> loc_of_shr_record mrs = loc_Exact).
Proof.
  intros Hm He Hlt.
  assert (Hd : Zdigits2 m <= 53 - e) by (apply Zdigits2_le; lia).
  unfold shr_fexp, shr. rewrite fexp_eq.
  destruct (Z.max (Zdigits2 m + e - 53) (-1074) - e) as [ | p | p] eqn:Hn.
  - exists (shr_record_of_loc m l), 0. rewrite Z.add_0_r, Z.pow_0_r, Z.div_1_r.
    rewrite shr_record_of_loc_m. repeat split; try lia.
    intros -> _. reflexivity.
  - exists (iter_pos shr_1 p (shr_record_of_loc m l)), (Zpos p).
    rewrite iter_pos_nat.
    destruct (shr_iter (Pos.to_nat p) (shr_record_of_loc m l)) as [Him Hii].
    { rewrite shr_record_of_loc_m. exact Hm. }
    rewrite positive_nat_Z, shr_record_of_loc_m in Him, Hii.
    repeat split; try lia; try assumption.
    intros -> Hmod. apply loc_of_shr_record_exact. apply Hii; auto.
  - exists (shr_record_of_loc m l), 0. rewrite Z.add_0_r, Z.pow_0_r, Z.div_1_r.
    rewrite shr_record_of_loc_m. repeat split; try lia.
    intros -> _. reflexivity.
Qed.

Lemma round_nearest_even_bounds (q : Z) (l : location) :
  q <= round_nearest_even q l <= q + 1 /\
  (l = loc_Exact -> round_nearest_even q l = q).
Proof.
  destruct l as [ | [ | | ]]; cbn [round_nearest_even];
    try destruct (Z.even q); split; try lia; try discriminate; reflexivity.
Qed.

Lemma pow2_split (E n : Z) : 0 <= E -> 0 <= n -> 2 ^ (E + n) = 2 ^ E * 2 ^ n.
Proof. intros. apply Z.pow_add_r; assumption. Qed.

Lemma pow2_pos (n : Z) : 0 <= n -> 0 < 2 ^ n.
Proof. intros. apply Z.pow_pos_nonneg; lia. Qed.

Lemma div_pow2_lower (m n X : Z) :
  0 <= n -> X * 2 ^ n <= m -> X <= m / 2 ^ n.
Proof.
  intros Hn H. apply Z.div_le_lower_bound; [apply pow2_pos; lia | lia].
Qed.

Lemma div_pow2_upper (m n X : Z) :
  0 <= n -> m <= X * 2 ^ n -> m / 2 ^ n <= X.
Proof.
  intros Hn H. apply Z.div_le_upper_bound; [apply pow2_pos; lia | lia].
Qed.

Lemma div_pow2_upper_strict (m n X : Z) :
  0 <= n -> m < X * 2 ^ n -> m / 2 ^ n + 1 <= X.
Proof.
  intros Hn H.
  assert (m / 2 ^ n < X) by (apply Z.div_lt_upper_bound; [apply pow2_pos; lia | lia]).
  lia.
Qed.

(** Rounding to nearest keeps a value between two integers it lies
    between: the integers are on the grid of the result. *)
Lemma binary_round_aux_between (s : bool) (m e : Z) (l : location) (A K : Z) :
  0 <= m -> e <= 0 -> K <= 2 ^ 52 ->
  A * 2 ^ (- e) <= m ->
  (m + 1 <= K * 2 ^ (- e) \/ (l = loc_Exact /\ m <= K * 2 ^ (- e))) ->
  between s A K (binary_round_aux prec emax s m e l).
Proof.
  intros Hm He HK HA HU.
  assert (HmK : m <= K * 2 ^ (- e)) by (destruct HU as [ | [_ ?]]; lia).
  assert (Hpe : 0 < 2 ^ (- e)) by (apply pow2_pos; lia).
  assert (Hlt : m < 2 ^ (53 - e)).
  { replace (53 - e) with (53 + - e) by lia. rewrite pow2_split by lia.
    change (2 ^ 53) with (2 * 2 ^ 52). nia. }
  destruct (shr_fexp_spec m e l Hm He Hlt) as (mrs & n & Hs & Hn & Hen & Hq & Hex).
  unfold binary_round_aux. rewrite Hs.
  set (m1 := round_nearest_even (shr_m mrs) (loc_of_shr_record mrs)).
  set (e1 := e + n) in *.
  assert (Hpn : 0 < 2 ^ n) by (apply pow2_pos; lia).
  assert (Hpe1 : 0 < 2 ^ (- e1)) by (apply pow2_pos; lia).
  assert (Hsplit : 2 ^ (- e) = 2 ^ (- e1) * 2 ^ n).
  { replace (- e) with (- e1 + n) by lia. apply pow2_split; lia. }
  destruct (round_nearest_even_bounds (shr_m mrs) (loc_of_shr_record mrs))
    as [[Hlo Hhi] Hexact]. fold m1 in Hlo, Hhi, Hexact.
  assert (HA1 : A * 2 ^ (- e1) <= m1).
  { rewrite Hq in Hlo. apply Z.le_trans with (m / 2 ^ n); [ | exact Hlo].
    apply div_pow2_lower; [lia | ]. rewrite <- Z.mul_assoc, <- Hsplit. exact HA. }
  assert (HK1 : m1 <= K * 2 ^ (- e1)).
  { destruct (Z_lt_le_dec m (K * 2 ^ (- e))) as [Hstrict | Heq].
    - rewrite Hq in Hhi. apply Z.le_trans with (m / 2 ^ n + 1); [exact Hhi | ].
      apply div_pow2_upper_strict; [lia | ].
      rewrite <- Z.mul_assoc, <- Hsplit. exact Hstrict.
    - destruct HU as [HU | [Hl HU]]; [lia | ].
      assert (Hmeq : m = K * 2 ^ (- e1) * 2 ^ n) by (rewrite <- Z.mul_assoc, <- Hsplit; lia).
      assert (Hmod : m mod 2 ^ n = 0) by (rewrite Hmeq; apply Z.mod_mul; lia).
      rewrite (Hexact (Hex Hl Hmod)), Hq, Hmeq, Z.div_mul by lia. lia. }
  assert (Hm1 : 0 <= m1).
  { apply Z.le_trans with (shr_m mrs); [ | exact Hlo].
    rewrite Hq. apply Z.div_pos; lia. }
  assert (Hlt1 : m1 < 2 ^ (53 - e1)).
  { replace (53 - e1) with (53 + - e1) by lia. rewrite pow2_split by lia.
    change (2 ^ 53) with (2 * 2 ^ 52). nia. }
  destruct (shr_fexp_spec m1 e1 loc_Exact Hm1 Hen Hlt1)
    as (mrs2 & n2 & Hs2 & Hn2 & Hen2 & Hq2 & _).
  rewrite Hs2.
  set (e2 := e1 + n2) in *.
  assert (Hpn2 : 0 < 2 ^ n2) by (apply pow2_pos; lia).
  assert (Hpe2 : 0 < 2 ^ (- e2)) by (apply pow2_pos; lia).
  assert (Hsplit2 : 2 ^ (- e1) = 2 ^ (- e2) * 2 ^ n2).
  { replace (- e1) with (- e2 + n2) by lia. apply pow2_split; lia. }
  assert (HA2 : A * 2 ^ (- e2) <= shr_m mrs2).
  { rewrite Hq2. apply div_pow2_lower; [lia | ].
    rewrite <- Z.mul_assoc, <- Hsplit2. exact HA1. }
  assert (HK2 : shr_m mrs2 <= K * 2 ^ (- e2)).
  { rewrite Hq2. apply div_pow2_upper; [lia | ].
    rewrite <- Z.mul_assoc, <- Hsplit2. exact HK1. }
  assert (Hm2 : 0 <= shr_m mrs2) by (rewrite Hq2; apply Z.div_pos; lia).
  destruct (shr_m mrs2) as [ | p | p] eqn:Hm2e.
  - cbn [between]. split; [reflexivity | ]. nia.
  - replace (e2 <=? emax - prec) with true
      by (symmetry; apply Z.leb_le; unfold emax, prec; lia).
    cbn [between]. repeat split; assumption.
  - lia.
Qed.

Lemma pos_iter_xO (m d : positive) :
  Zpos (Pos.iter xO m d) = Zpos m * 2 ^ Zpos d.
Proof.
  induction d as [ | d IH] using Pos.peano_ind.
  - cbn [Pos.iter]. rewrite Pos2Z.inj_xO. change (2 ^ 1) with 2. lia.
  - rewrite Pos.iter_succ, Pos2Z.inj_xO, IH, Pos2Z.inj_succ, Z.pow_succ_r by lia. lia.
Qed.

Lemma shl_align_spec (mx : positive) (ex ex' : Z) :
  exists mz ez,
    shl_align mx ex ex' = (mz, ez) /\ ez = Z.min ex ex' /\
    Zpos mz = Zpos mx * 2 ^ (ex - ez).
Proof.
  unfold shl_align. destruct (ex' - ex) as [ | d | d] eqn:Hd.
  - exists mx, ex. repeat split; [lia | ]. rewrite Z.sub_diag, Z.pow_0_r. lia.
  - exists mx, ex. repeat split; [lia | ]. rewrite Z.sub_diag, Z.pow_0_r. lia.
  - exists (Pos.iter xO mx d), ex'. repeat split; [lia | ].
    rewrite pos_iter_xO. f_equal. f_equal. lia.
Qed.

Lemma binary_round_between (s : bool) (mx : positive) (ex A K : Z) :
  ex <= 0 -> K <= 2 ^ 52 ->
  A * 2 ^ (- ex) <= Zpos mx <= K * 2 ^ (- ex) ->
  between s A K (binary_round prec emax s mx ex).
Proof.
  intros He HK [HA HU]. unfold binary_round.
  destruct (shl_align_spec mx ex (fexp prec emax (Zpos (digits2_pos mx) + ex)))
    as (mz & ez & -> & Hez & Hmz).
  assert (Hsplit : 2 ^ (- ez) = 2 ^ (- ex) * 2 ^ (ex - ez)).
  { replace (- ez) with (- ex + (ex - ez)) by lia. apply pow2_split; lia. }
  assert (0 < 2 ^ (ex - ez)) by (apply pow2_pos; lia).
  apply binary_round_aux_between; try lia.
  - rewrite Hsplit, Hmz. nia.
  - right. split; [reflexivity | ]. rewrite Hsplit, Hmz. nia.
Qed.

Lemma binary_normalize_between (m e A K : Z) :
  e <= 0 -> 0 <= A -> K <= 2 ^ 52 ->
  A * 2 ^ (- e) <= m <= K * 2 ^ (- e) ->
  between false A K (binary_normalize prec emax m e false).
Proof.
  intros He HA0 HK [HA HU].
  assert (0 < 2 ^ (- e)) by (apply pow2_pos; lia).
  destruct m as [ | p | p]; cbn [binary_normalize].
  - cbn [between]. split; [reflexivity | nia].
  - apply binary_round_between; auto.
  - nia.
Qed.

(** Small ints convert exactly. *)
Lemma of_int_between (z : Z) :
  Z.abs z <= 2 ^ 52 ->
  exists f, of_int z = Ok f /\ between (z <? 0) (Z.abs z) (Z.abs z) f.
Proof.
  intros Hz. unfold of_int.
  destruct z as [ | p | p]; cbn [binary_normalize Z.abs Z.ltb Z.compare].
  - exists (S754_zero false). split; [reflexivity | ]. cbn [between]. lia.
  - assert (Hb : between false (Zpos p) (Zpos p) (binary_round prec emax false p 0)).
    { apply binary_round_between; cbn [Z.abs] in Hz; lia. }
    destruct (binary_round prec emax false p 0) as [ | | | s m e] eqn:E;
      cbn [between] in Hb; try contradiction; eauto.
  - assert (Hb : between true (Zpos p) (Zpos p) (binary_round prec emax true p 0)).
    { apply binary_round_between; cbn [Z.abs] in Hz; lia. }
    destruct (binary_round prec emax true p 0) as [ | | | s m e] eqn:E;
      cbn [between] in Hb; try contradiction; eauto.
Qed.

(** [i / L] lies in [[0, 1]] when [0 <= i < L]. *)
Lemma int_truediv_between (i L : Z) :
  0 <= i < L ->
  exists x, int_truediv i L = Ok x /\ between false 0 1 x.
Proof.
  intros [Hi HL]. unfold int_truediv.
  replace (L =? 0) with false by (symmetry; apply Z.eqb_neq; lia).
  replace (i <? 0) with false by (symmetry; apply Z.ltb_ge; lia).
  replace (L <? 0) with false by (symmetry; apply Z.ltb_ge; lia).
  cbn [xorb].
  destruct (Z.eqb_spec i 0) as [-> | Hne].
  - exists (S754_zero false). split; [reflexivity | ]. cbn [between]. lia.
  - rewrite !Z.abs_eq by lia.
    unfold SFdiv_core_binary.
    set (e' := Z.min (fexp prec emax (Zdigits2 i + 0 - (Zdigits2 L + 0))) (0 - 0)).
    assert (He' : e' <= 0) by (unfold e'; lia).
    set (m' := match 0 - 0 - e' with
               | 0 => i
               | Zpos _ => Z.shiftl i (0 - 0 - e')
               | Zneg _ => 0
               end).
    assert (Hm' : m' = i * 2 ^ (- e')).
    { unfold m'. replace (0 - 0 - e') with (- e') by lia.
      destruct (- e') as [ | p | p] eqn:Hp;
        [rewrite Z.pow_0_r; lia | apply Z.shiftl_mul_pow2; lia | lia]. }
    assert (Hp : 0 < 2 ^ (- e')) by (apply pow2_pos; lia).
    assert (Hdm : Z.div_eucl m' L = (m' / L, m' mod L)).
    { unfold Z.div, Z.modulo. destruct (Z.div_eucl m' L); reflexivity. }
    rewrite Hdm.
    assert (Hq0 : 0 <= m' / L) by (apply Z.div_pos; nia).
    assert (Hq1 : m' / L < 2 ^ (- e')).
    { apply Z.div_lt_upper_bound; [lia | ]. rewrite Hm'. nia. }
    assert (Hb : between false 0 1
              (binary_round_aux prec emax false (m' / L) e' (new_location L (m' mod L)))).
    { apply binary_round_aux_between; try lia. }
    destruct (binary_round_aux prec emax false (m' / L) e' (new_location L (m' mod L)))
      as [ | | | s m e] eqn:E; cbn [between] in Hb; try contradiction; eauto.
Qed.

Lemma mul_between (sd : bool) (D X : Z) (fd x : spec_float) :
  0 <= D -> 0 <= X -> D * X <= 2 ^ 52 ->
  between sd D D fd -> between false 0 X x ->
  between sd 0 (D * X) (mul fd x).
Proof.
  intros HD HX HDX Hfd Hx. unfold mul.
  destruct fd as [s1 | | | s1 m1 e1]; cbn [between] in Hfd; try contradiction;
    destruct x as [s2 | | | s2 m2 e2]; cbn [between] in Hx; try contradiction;
    cbn [SFmul].
  - destruct Hfd as [-> ?], Hx as [-> ?]. cbn [between].
    rewrite xorb_false_r. split; [reflexivity | nia].
  - destruct Hfd as [-> ?], Hx as [-> ?]. cbn [between].
    rewrite xorb_false_r. split; [reflexivity | nia].
  - destruct Hfd as [-> ?], Hx as [-> ?]. cbn [between].
    rewrite xorb_false_r. split; [reflexivity | nia].
  - destruct Hfd as (-> & He1 & Hm1), Hx as (-> & He2 & Hm2).
    rewrite xorb_false_r.
    assert (0 < 2 ^ (- e1)) by (apply pow2_pos; lia).
    assert (0 < 2 ^ (- e2)) by (apply pow2_pos; lia).
    assert (Hsplit : 2 ^ (- (e1 + e2)) = 2 ^ (- e1) * 2 ^ (- e2)).
    { replace (- (e1 + e2)) with (- e1 + - e2) by lia. apply pow2_split; lia. }
    apply binary_round_aux_between; try lia.
    right. split; [reflexivity | ]. rewrite Hsplit, Pos2Z.inj_mul.
    replace (Zpos m1) with (D * 2 ^ (- e1)) by lia.
    replace (D * X * (2 ^ (- e1) * 2 ^ (- e2)))
      with (D * 2 ^ (- e1) * (X * 2 ^ (- e2))) by ring.
    apply Z.mul_le_mono_nonneg_l; lia.
Qed.

Lemma add_between (sy : bool) (R D : Z) (x y : spec_float) :
  0 <= R -> 0 <= D ->
  (if sy then D <= R else R + D <= 2 ^ 52) -> R <= 2 ^ 52 ->
  between false R R x -> between sy 0 D y ->
  between false (if sy then R - D else R) (if sy then R else R + D) (add x y).
Proof.
  intros HR HD Hfit HR52 Hx Hy. unfold add.
  destruct x as [s1 | | | s1 m1 e1]; cbn [between] in Hx; try contradiction;
    destruct y as [s2 | | | s2 m2 e2]; cbn [between] in Hy; try contradiction.
  - destruct Hx as [-> ?], Hy as [-> ?]. cbn [SFadd].
    destruct sy; cbn [between]; split; try reflexivity; lia.
  - destruct Hx as [-> ?], Hy as (-> & He2 & Hm2). cbn [SFadd].
    assert (0 < 2 ^ (- e2)) by (apply pow2_pos; lia).
    destruct sy; cbn [between].
    + nia.
    + repeat split; try lia; nia.
  - destruct Hx as (-> & He1 & Hm1), Hy as [-> ?]. cbn [SFadd between].
    assert (0 < 2 ^ (- e1)) by (apply pow2_pos; lia).
    destruct sy; repeat split; try lia; nia.
  - destruct Hx as (-> & He1 & Hm1), Hy as (-> & He2 & Hm2). cbn [SFadd].
    destruct (shl_align_spec m1 e1 (Z.min e1 e2)) as (a1 & z1 & E1 & Hz1 & Ha1).
    destruct (shl_align_spec m2 e2 (Z.min e1 e2)) as (a2 & z2 & E2 & Hz2 & Ha2).
    rewrite E1, E2. cbn [fst].
    set (ez := Z.min e1 e2) in *.
    assert (Hz1' : z1 = ez) by lia. assert (Hz2' : z2 = ez) by lia.
    clear Hz1 Hz2. subst z1 z2.
    assert (0 < 2 ^ (- e1)) by (apply pow2_pos; lia).
    assert (0 < 2 ^ (- e2)) by (apply pow2_pos; lia).
    assert (0 < 2 ^ (e1 - ez)) by (apply pow2_pos; lia).
    assert (0 < 2 ^ (e2 - ez)) by (apply pow2_pos; lia).
    assert (Hs1 : 2 ^ (- ez) = 2 ^ (- e1) * 2 ^ (e1 - ez)).
    { replace (- ez) with (- e1 + (e1 - ez)) by lia. apply pow2_split; lia. }
    assert (Hs2 : 2 ^ (- ez) = 2 ^ (- e2) * 2 ^ (e2 - ez)).
    { replace (- ez) with (- e2 + (e2 - ez)) by lia. apply pow2_split; lia. }
    assert (HA1 : Zpos a1 = R * 2 ^ (- ez)).
    { rewrite Ha1, Hs1. replace (Zpos m1) with (R * 2 ^ (- e1)) by lia. ring. }
    assert (HA2 : 0 < Zpos a2 <= D * 2 ^ (- ez)).
    { split; [lia | ]. rewrite Ha2, Hs2, Z.mul_assoc.
      apply Z.mul_le_mono_nonneg_r; lia. }
    assert (0 < 2 ^ (- ez)) by (apply pow2_pos; lia).
    destruct sy; cbn [cond_Zopp]; apply binary_normalize_between; lia.
Qed.

(** On a non-negative double [int()] and [floor] agree. *)
Lemma to_int_between (A K : Z) (x : spec_float) :
  0 <= A -> between false A K x ->
  exists c, to_int x = Ok c /\ floor x = Ok c /\ A <= c <= K.
Proof.
  intros HA Hx.
  destruct x as [s | | | s m e]; cbn [between] in Hx; try contradiction.
  - exists 0. cbn [to_int floor]. repeat split; lia.
  - destruct Hx as (-> & He & Hm). cbn [to_int floor signed].
    destruct (Z.leb_spec 0 e) as [He0 | He0].
    + assert (e = 0) by lia. subst e. change (- 0) with 0 in Hm.
      rewrite Z.pow_0_r in *. exists (Zpos m * 1). repeat split; lia.
    + exists (Zpos m / 2 ^ (- e)).
      assert (0 < 2 ^ (- e)) by (apply pow2_pos; lia).
      rewrite Z.quot_div_nonneg by lia.
      repeat split.
      * apply div_pow2_lower; lia.
      * apply div_pow2_upper; lia.
Qed.

(** The channel computed for a blend in [[0, X]], [X] being 0 or 1:
    [int()] truncates a non-negative double, so it agrees with [floor],
    and the result stays between [r1] and [r1 + dr * X]. *)
Lemma blend_channel_between (r1 dr X : Z) (x : spec_float) :
  0 <= r1 <= 255 -> 0 <= r1 + dr <= 255 -> 0 <= X <= 1 ->
  between false 0 X x ->
  exists v c,
    blend_value r1 dr x = Ok v /\ to_int v = Ok c /\ floor v = Ok c /\
    r1 + Z.min 0 (dr * X) <= c <= r1 + Z.max 0 (dr * X).
Proof.
  intros Hr1 Hr2 HX Hx.
  assert (H52 : 2 ^ 52 = 4503599627370496) by reflexivity.
  destruct (of_int_between dr) as (fd & Efd & Hfd); [lia | ].
  destruct (of_int_between r1) as (f1 & Ef1 & Hf1); [lia | ].
  replace (r1 <? 0) with false in Hf1 by (symmetry; apply Z.ltb_ge; lia).
  rewrite (Z.abs_eq r1) in Hf1 by lia.
  unfold blend_value. rewrite Efd, Ef1. cbn [bind].
  assert (HX01 : X = 0 \/ X = 1) by lia.
  destruct (Z.ltb_spec dr 0) as [Hneg | Hpos].
  - rewrite (Z.abs_neq dr) in Hfd by lia.
    assert (Hmul := mul_between true (- dr) X fd x
                      ltac:(lia) ltac:(lia) ltac:(destruct HX01; subst X; lia) Hfd Hx).
    assert (Hadd := add_between true r1 (- dr * X) f1 (mul fd x)
                      ltac:(lia) ltac:(destruct HX01; subst X; lia)
                      ltac:(destruct HX01; subst X; lia) ltac:(lia) Hf1 Hmul).
    cbv beta iota in Hadd.
    assert (HA0 : 0 <= r1 - - dr * X) by (destruct HX01; subst X; lia).
    destruct (to_int_between _ _ _ HA0 Hadd) as (c & Hc & Hfl & Hb).
    exists (add f1 (mul fd x)), c. repeat split; auto;
      destruct HX01; subst X; lia.
  - rewrite (Z.abs_eq dr) in Hfd by lia.
    assert (Hmul := mul_between false dr X fd x
                      ltac:(lia) ltac:(lia) ltac:(destruct HX01; subst X; lia) Hfd Hx).
    assert (Hadd := add_between false r1 (dr * X) f1 (mul fd x)
                      ltac:(lia) ltac:(destruct HX01; subst X; lia)
                      ltac:(destruct HX01; subst X; lia) ltac:(lia) Hf1 Hmul).
    cbv beta iota in Hadd.
    assert (HA0 : 0 <= r1) by lia.
    destruct (to_int_between _ _ _ HA0 Hadd) as (c & Hc & Hfl & Hb).
    exists (add f1 (mul fd x)), c. repeat split; auto;
      destruct HX01; subst X; lia.
Qed.

End FloatFacts.

Import Rich.

(** ** Results, loops and lists *)

Lemma bind_Ok_inv {A B : Type} (c : Result A) (k : A -> Result B) (b : B) :
  bind c k = Ok b -> exists a, c = Ok a /\ k a = Ok b.
Proof. destruct c as [a | e]; cbn; [eauto | discriminate]. Qed.

Lemma map_result_Forall2 {A B : Type} (f : A -> Result B) (xs : list A)
  (ys : list B) :
  map_result f xs = Ok ys <-> Forall2 (fun x y => f x = Ok y) xs ys.
Proof.
  revert ys; induction xs as [ | x xs IH]; intros ys; cbn [map_result].
  - split; [intros [= <-]; constructor | intros H; inversion H; reflexivity].
  - split.
    + intros H. apply bind_Ok_inv in H as (y & Hy & H).
      apply bind_Ok_inv in H as (ys' & Hys & [= <-]).
      constructor; [assumption | apply IH; assumption].
    + intros H. inversion H as [ | x' y xs' ys' Hy Hys]; subst.
      rewrite Hy. cbn [bind]. apply IH in Hys. rewrite Hys. reflexivity.
Qed.

Lemma map_result_ext_in {A B : Type} (f g : A -> Result B) (xs : list A) :
  (forall x, In x xs -> f x = g x) -> map_result f xs = map_result g xs.
Proof.
  induction xs as [ | x xs IH]; intros H; cbn [map_result]; [reflexivity | ].
  rewrite (H x (or_introl eq_refl)), IH; [reflexivity | ].
  intros y Hy. apply H. right. exact Hy.
Qed.

Lemma map_result_map {A B C : Type} (g : A -> B) (f : B -> Result C)
  (xs : list A) :
  map_result f (map g xs) = map_result (fun x => f (g x)) xs.
Proof.
  induction xs as [ | x xs IH]; cbn [map map_result]; [reflexivity | ].
  rewrite IH. reflexivity.
Qed.

Lemma map_result_length {A B : Type} (f : A -> Result B) (xs : list A)
  (ys : list B) :
  map_result f xs = Ok ys -> List.length ys = List.length xs.
Proof.
  intros H. apply map_result_Forall2 in H.
  symmetry. eapply Forall2_length. exact H.
Qed.

Lemma map_result_nth {A B : Type} (f : A -> Result B) (xs : list A)
  (ys : list B) (n : nat) (x : A) :
  map_result f xs = Ok ys -> nth_error xs n = Some x ->
  exists y, nth_error ys n = Some y /\ f x = Ok y.
Proof.
  intros H. apply map_result_Forall2 in H.
  revert n; induction H as [ | x' y xs ys Hy _ IH]; intros n Hn.
  - destruct n; discriminate.
  - destruct n as [ | n]; cbn in *.
    + injection Hn as <-. eauto.
    + apply IH. exact Hn.
Qed.

Lemma map_result_Raise {A B : Type} (f : A -> Result B) (xs : list A)
  (x : A) (e : Exception) :
  In x xs -> f x = Raise e -> exists e', map_result f xs = Raise e'.
Proof.
  induction xs as [ | x' xs IH]; intros Hin Hx; [contradiction | ].
  cbn [map_result]. destruct Hin as [-> | Hin].
  - rewrite Hx. cbn. eauto.
  - destruct (f x') as [y | e1]; cbn [bind]; [ | eauto].
    destruct (IH Hin Hx) as [e' ->]. cbn. eauto.
Qed.

(** A loop that appends one result per round is a comprehension. *)
Lemma for_each_collect {A B : Type} (f : A -> Result B)
  (body : list B -> A -> Result (list B)) (xs : list A) (acc : list B) :
  (forall acc x, In x xs -> body acc x = (y <- f x ;; Ok (acc ++ [y]))) ->
  for_each xs body acc = (ys <- map_result f xs ;; Ok (acc ++ ys)).
Proof.
  revert acc; induction xs as [ | x xs IH]; intros acc H;
    cbn [for_each map_result bind].
  - rewrite app_nil_r. reflexivity.
  - rewrite (H acc x (or_introl eq_refl)).
    destruct (f x) as [y | e]; cbn [bind]; [ | reflexivity].
    rewrite IH by (intros; apply H; right; assumption).
    destruct (map_result f xs) as [ys | e]; cbn [bind]; [ | reflexivity].
    rewrite <- app_assoc. reflexivity.
Qed.

(** The same for a loop whose rounds each fetch a value and append a
    batch. *)
Lemma for_each_nested {A B V : Type} (pv : A -> Result V)
  (inner : V -> A -> Result (list B))
  (body : list B * option V -> A -> Result (list B * option V))
  (xs : list A) (acc : list B) (v0 : option V) :
  (forall acc v x, In x xs ->
     body (acc, v) x =
     (w <- pv x ;; ys <- inner w x ;; Ok (acc ++ ys, Some w))) ->
  (st <- for_each xs body (acc, v0) ;; Ok (fst st)) =
  (parts <- map_result (fun x => w <- pv x ;; inner w x) xs ;;
   Ok (acc ++ List.concat parts)).
Proof.
  revert acc v0; induction xs as [ | x xs IH]; intros acc v0 H;
    cbn [for_each map_result bind fst List.concat].
  - rewrite app_nil_r. reflexivity.
  - rewrite (H acc v0 x (or_introl eq_refl)).
    destruct (pv x) as [w | e]; cbn [bind]; [ | reflexivity].
    destruct (inner w x) as [ys | e]; cbn [bind]; [ | reflexivity].
    rewrite IH by (intros; apply H; right; assumption).
    destruct (map_result _ xs) as [parts | e]; cbn [bind List.concat]; [ | reflexivity].
    rewrite app_assoc. reflexivity.
Qed.

Lemma range_length (n : Z) : List.length (range n) = Z.to_nat n.
Proof. unfold range. rewrite length_map, length_seq. reflexivity. Qed.

Lemma range_In (n i : Z) : In i (range n) <-> 0 <= i < n.
Proof.
  unfold range. rewrite in_map_iff. split.
  - intros (k & <- & Hk). apply in_seq in Hk. lia.
  - intros Hi. exists (Z.to_nat i). split; [lia | ]. apply in_seq. lia.
Qed.

Lemma range_nth (n : Z) (k : nat) :
  (k < Z.to_nat n)%nat -> nth_error (range n) k = Some (Z.of_nat k).
Proof.
  intros Hk. unfold range. rewrite nth_error_map.
  rewrite nth_error_seq. 
  destruct (Nat.ltb_spec k (Z.to_nat n)); [reflexivity | lia].
Qed.

Lemma range_succ (n : Z) : 0 <= n -> range (n + 1) = range n ++ [n].
Proof.
  intros Hn. unfold range.
  replace (Z.to_nat (n + 1)) with (S (Z.to_nat n)) by lia.
  rewrite seq_S, map_app. cbn [map Nat.add]. rewrite Z2Nat.id by lia. reflexivity.
Qed.

Lemma getitem_nth {A : Type} (xs : list A) (i : Z) (x : A) :
  0 <= i -> (getitem xs i = Ok x <-> nth_error xs (Z.to_nat i) = Some x).
Proof.
  intros Hi. unfold getitem.
  replace (i <? 0) with false by (symmetry; apply Z.ltb_ge; lia).
  replace (i <? 0) with false by (symmetry; apply Z.ltb_ge; lia).
  destruct (nth_error xs (Z.to_nat i)) as [y | ]; split; congruence.
Qed.

Lemma getitem_short {A : Type} (xs : list A) (i : Z) :
  Z.of_nat (List.length xs) <= i -> getitem xs i = Raise IndexError.
Proof.
  intros Hi. unfold getitem.
  replace (i <? 0) with false by (symmetry; apply Z.ltb_ge; lia).
  replace (i <? 0) with false by (symmetry; apply Z.ltb_ge; lia).
  destruct (nth_error xs (Z.to_nat i)) as [y | ] eqn:E; [ | reflexivity].
  assert (Hl : nth_error xs (Z.to_nat i) <> None) by congruence.
  apply nth_error_Some in Hl. lia.
Qed.

(** ** Compression *)

Lemma Style_eqb_eq (a b : Style) : Style_eqb a b = true <-> a = b.
Proof.
  unfold Style_eqb. destruct (Style_eq_dec a b); split; congruence.
Qed.

Lemma Style_eqb_neq (a b : Style) : Style_eqb a b = false <-> a <> b.
Proof.
  unfold Style_eqb. destruct (Style_eq_dec a b); split; congruence.
Qed.

Lemma simplify_loop
  (body : list Span * option Span -> Z * Span ->
          Result (list Span * option Span)) :
  (forall simplified last index span, index <> 0 ->
     body (simplified, Some last) (index, span) =
     Ok (if Style_eqb (style span) (style last)
         then (simplified, Some (mkSpan (start last) (end_ span) (style span)))
         else (simplified ++ [last], Some span))) ->
  forall (rest : list Span) (k : nat) (simplified : list Span) (last : Span),
    (1 <= k)%nat ->
    (st <- for_each (combine (map Z.of_nat (seq k (List.length rest))) rest)
             body (simplified, Some last) ;;
     (let '(ss, l) := st in l' <- Gradient.bound l ;; Ok (ss ++ [l']))) =
    Ok (simplified ++ compress last rest).
Proof.
  intros Hbody rest. induction rest as [ | span rest IH]; intros k simplified last Hk.
  - reflexivity.
  - cbn [List.length seq map combine for_each compress].
    rewrite Hbody by lia. cbn [bind].
    destruct (Style_eqb (style span) (style last)).
    + apply IH. lia.
    + rewrite IH by lia. rewrite <- app_assoc. reflexivity.
Qed.

Lemma simplify_spans_nil : Gradient.simplify_spans [] = Raise UnboundLocalError.
Proof. reflexivity. Qed.

Lemma simplify_spans_cons (s : Span) (rest : list Span) :
  Gradient.simplify_spans (s :: rest) = Ok (compress s rest).
Proof.
  unfold Gradient.simplify_spans, enumerate.
  cbn [List.length]. rewrite Nat2Z.inj_succ. unfold range.
  rewrite Z2Nat.inj_succ, Nat2Z.id by lia.
  cbn [seq map combine for_each]. cbn [Z.of_nat Z.eqb bind].
  match goal with
  | |- bind (for_each _ ?body _) _ = _ =>
      apply (simplify_loop body) with (simplified := [])
  end; [ | lia].
  intros simplified last index span Hi.
  replace (index =? 0) with false by (symmetry; apply Z.eqb_neq; assumption).
  cbn [Gradient.bound bind].
  destruct (Style_eqb (style span) (style last)); reflexivity.
Qed.

Lemma simplify_spans_same :
  GradientSubstring.simplify_spans = Gradient.simplify_spans.
Proof. reflexivity. Qed.

Lemma compress_head (last : Span) (rest : list Span) :
  exists e tl, compress last rest = mkSpan (start last) e (style last) :: tl.
Proof.
  revert last; induction rest as [ | span rest IH]; intros last; cbn [compress].
  - exists (end_ last), []. destruct last; reflexivity.
  - destruct (Style_eqb (style span) (style last)) eqn:E.
    + apply Style_eqb_eq in E.
      destruct (IH (mkSpan (start last) (end_ span) (style span))) as (e & tl & ->).
      cbn [start style]. rewrite E. eauto.
    + exists (end_ last), (compress span rest). destruct last; reflexivity.
Qed.

Lemma compress_tiles (a b : Z) (last : Span) (rest : list Span) :
  tiles a b (last :: rest) -> tiles a b (compress last rest).
Proof.
  revert a last; induction rest as [ | span rest IH]; intros a last H;
    cbn [compress]; [exact H | ].
  cbn [tiles] in H. destruct H as (Hs & Hlt & Hs2 & Hlt2 & Hrest).
  destruct (Style_eqb (style span) (style last)).
  - apply IH. cbn [tiles start end_]. repeat split; [assumption | lia | assumption].
  - cbn [tiles]. repeat split; try assumption.
    apply IH. cbn [tiles]. repeat split; assumption.
Qed.

Lemma compress_no_adjacent_equal (last : Span) (rest : list Span) :
  no_adjacent_equal (compress last rest).
Proof.
  revert last; induction rest as [ | span rest IH]; intros last; cbn [compress].
  - cbn. auto.
  - destruct (Style_eqb (style span) (style last)) eqn:E; [apply IH | ].
    apply Style_eqb_neq in E.
    destruct (compress_head span rest) as (e & tl & Hc).
    specialize (IH span). rewrite Hc in *.
    cbn [no_adjacent_equal style]. split; [congruence | exact IH].
Qed.

Lemma compress_fixed (last : Span) (rest : list Span) :
  no_adjacent_equal (last :: rest) -> compress last rest = last :: rest.
Proof.
  revert last; induction rest as [ | span rest IH]; intros last H;
    cbn [compress]; [reflexivity | ].
  cbn [no_adjacent_equal] in H. destruct H as (Hne & Hrest).
  replace (Style_eqb (style span) (style last)) with false
    by (symmetry; apply Style_eqb_neq; congruence).
  rewrite IH; [reflexivity | exact Hrest].
Qed.

(** Merging does not change the style of any character. *)
Lemma compress_style_at (a b : Z) (last : Span) (rest : list Span) (i : Z) :
  tiles a b (last :: rest) ->
  style_at (compress last rest) i = style_at (last :: rest) i.
Proof.
  revert a last; induction rest as [ | span rest IH]; intros a last H;
    cbn [compress]; [reflexivity | ].
  cbn [tiles] in H. destruct H as (Hs & Hlt & Hs2 & Hlt2 & Hrest).
  destruct (Style_eqb (style span) (style last)) eqn:E.
  - apply Style_eqb_eq in E.
    rewrite (IH a) by (cbn [tiles start end_]; repeat split; [assumption | lia | assumption]).
    cbn [style_at start end_ style]. rewrite E.
    destruct (Z.leb_spec (start last) i), (Z.ltb_spec i (end_ span)),
      (Z.ltb_spec i (end_ last)), (Z.leb_spec (start span) i);
      cbn [andb]; try reflexivity; lia.
  - cbn [style_at].
    rewrite (IH (end_ last)) by (cbn [tiles]; repeat split; assumption).
    reflexivity.
Qed.

(** ** The balanced split *)

Lemma firstn_seq (n s len : nat) : firstn n (seq s len) = seq s (Nat.min n len).
Proof.
  revert s len; induction n as [ | n IH]; intros s [ | len]; cbn; try reflexivity.
  rewrite IH. reflexivity.
Qed.

Lemma seq_range (s n : nat) :
  map Z.of_nat (seq s n) = map (fun j => Z.of_nat s + j) (range (Z.of_nat n)).
Proof.
  unfold range. rewrite Nat2Z.id, map_map.
  revert s; induction n as [ | n IH]; intros s; cbn [seq map]; [reflexivity | ].
  f_equal; [lia | ].
  rewrite IH, <- seq_shift, map_map. apply map_ext. intros j. lia.
Qed.

Lemma slice_range (N a b : Z) :
  0 <= a <= b -> b <= N ->
  slice (range N) a b = map (fun j => a + j) (range (b - a)).
Proof.
  intros Ha Hb. unfold slice. rewrite range_length, Z2Nat.id by lia.
  replace (a <? 0) with false by (symmetry; apply Z.ltb_ge; lia).
  replace (b <? 0) with false by (symmetry; apply Z.ltb_ge; lia).
  rewrite !Z.min_l by lia.
  unfold range at 1. rewrite skipn_map, firstn_map, skipn_seq, firstn_seq.
  rewrite seq_range. cbn [Nat.add].
  replace (Z.of_nat (Z.to_nat a)) with a by lia.
  replace (Z.of_nat (Nat.min (Z.to_nat (b - a)) (Z.to_nat N - Z.to_nat a)))
    with (b - a) by lia.
  reflexivity.
Qed.

Lemma range_app (a b : Z) :
  0 <= a <= b -> range a ++ map (fun j => a + j) (range (b - a)) = range b.
Proof.
  intros H. unfold range. rewrite map_map.
  replace (Z.to_nat b) with (Z.to_nat a + Z.to_nat (b - a))%nat by lia.
  rewrite seq_app, map_app. f_equal. cbn [Nat.add].
  rewrite <- (map_map Z.of_nat (fun j => a + j)).
  change (map Z.of_nat (seq 0 (Z.to_nat (b - a)))) with (range (b - a)).
  rewrite seq_range. rewrite !Z2Nat.id by lia. reflexivity.
Qed.

Lemma cumsum_from_step (xs : list Z) (acc : Z) (i : nat) :
  (S i < List.length xs)%nat ->
  nth (S i) (Numpy.cumsum_from acc xs) 0 =
  nth i (Numpy.cumsum_from acc xs) 0 + nth (S i) xs 0.
Proof.
  revert acc i; induction xs as [ | x xs IH]; intros acc i Hi;
    [cbn in Hi; lia | ].
  destruct xs as [ | y xs]; [cbn in Hi; lia | ].
  destruct i as [ | i].
  - reflexivity.
  - cbn [List.length] in Hi.
    change (nth (S (S i)) (Numpy.cumsum_from acc (x :: y :: xs)) 0)
      with (nth (S i) (Numpy.cumsum_from (acc + x) (y :: xs)) 0).
    change (nth (S i) (Numpy.cumsum_from acc (x :: y :: xs)) 0)
      with (nth i (Numpy.cumsum_from (acc + x) (y :: xs)) 0).
    change (nth (S (S i)) (x :: y :: xs) 0) with (nth (S i) (y :: xs) 0).
    apply IH. cbn [List.length]. lia.
Qed.

Lemma nth_sizes (a b : Z) (r m i : nat) :
  (i < r + m)%nat ->
  nth i (repeat a r ++ repeat b m) 0 = if (i <? r)%nat then a else b.
Proof.
  intros Hi. destruct (Nat.ltb_spec i r) as [Hlt | Hge].
  - rewrite app_nth1 by (rewrite repeat_length; lia). apply nth_repeat_lt. exact Hlt.
  - rewrite app_nth2 by (rewrite repeat_length; lia). rewrite repeat_length.
    apply nth_repeat_lt. lia.
Qed.

Lemma div_points_nth (N k : Z) (i : nat) :
  0 <= N -> 1 <= k -> Z.of_nat i <= k ->
  nth i (Numpy.cumsum
           ([0] ++ repeat (N / k + 1) (Z.to_nat (N mod k))
                ++ repeat (N / k) (Z.to_nat (k - N mod k)))) 0 =
  div_point N k (Z.of_nat i).
Proof.
  intros HN Hk. assert (Hr := Z.mod_pos_bound N k ltac:(lia)).
  induction i as [ | i IH]; intros Hi.
  - unfold div_point. cbn. lia.
  - unfold Numpy.cumsum in *. rewrite cumsum_from_step.
    + rewrite IH by lia.
      cbn [app]. change (nth (S i) (0 :: ?l) 0) with (nth i l 0).
      rewrite nth_sizes by lia.
      unfold div_point. rewrite Nat2Z.inj_succ.
      destruct (Nat.ltb_spec i (Z.to_nat (N mod k))); lia.
    + cbn [app List.length]. rewrite length_app, !repeat_length. lia.
Qed.

Lemma div_point_mono (N k i : Z) :
  0 <= N -> 1 <= k -> 0 <= i ->
  div_point N k i <= div_point N k (i + 1).
Proof.
  intros HN Hk Hi. unfold div_point.
  assert (0 <= N / k) by (apply Z.div_pos; lia). lia.
Qed.

Lemma div_point_le (N k i : Z) :
  0 <= N -> 1 <= k -> 0 <= i <= k -> 0 <= div_point N k i <= N.
Proof.
  intros HN Hk Hi. unfold div_point.
  assert (Hq : 0 <= N / k) by (apply Z.div_pos; lia).
  assert (Hr := Z.mod_pos_bound N k ltac:(lia)).
  assert (HNk := Z.div_mod N k ltac:(lia)).
  split; [lia | ].
  assert (i * (N / k) <= k * (N / k)) by (apply Z.mul_le_mono_nonneg_r; lia).
  lia.
Qed.

(** [array_split] over [arange(N)] yields the [k] sections in order. *)
Lemma array_split_arange (N k : Z) :
  0 <= N -> 1 <= k ->
  Numpy.array_split (Numpy.arange N) k = Ok (map (section N k) (range k)).
Proof.
  intros HN Hk. unfold Numpy.array_split, Numpy.arange.
  replace (k <=? 0) with false by (symmetry; apply Z.leb_gt; lia).
  rewrite range_length, Z2Nat.id by lia. f_equal.
  apply map_ext_in. intros i Hi. apply range_In in Hi.
  rewrite (div_points_nth N k (Z.to_nat i)) by lia.
  rewrite (div_points_nth N k (Z.to_nat (i + 1))) by lia.
  rewrite !Z2Nat.id by lia.
  assert (H1 := div_point_mono N k i HN Hk ltac:(lia)).
  assert (H2 := div_point_le N k i HN Hk ltac:(lia)).
  assert (H3 := div_point_le N k (i + 1) HN Hk ltac:(lia)).
  apply slice_range; lia.
Qed.

Lemma section_length (N k i : Z) :
  0 <= N -> 1 <= k -> 0 <= i ->
  Z.of_nat (List.length (section N k i)) =
  N / k + (if i <? N mod k then 1 else 0).
Proof.
  intros HN Hk Hi. unfold section. rewrite length_map, range_length.
  assert (H1 := div_point_mono N k i HN Hk Hi).
  rewrite Z2Nat.id by lia. unfold div_point.
  destruct (Z.ltb_spec i (N mod k)); lia.
Qed.

Lemma concat_sections (N k : Z) (n : nat) :
  0 <= N -> 1 <= k ->
  List.concat (map (section N k) (range (Z.of_nat n))) =
  range (div_point N k (Z.of_nat n)).
Proof.
  intros HN Hk. induction n as [ | n IH].
  - assert (Hr := Z.mod_pos_bound N k ltac:(lia)).
    replace (div_point N k (Z.of_nat 0)) with 0 by (unfold div_point; lia).
    reflexivity.
  - rewrite Nat2Z.inj_succ, <- Z.add_1_r, range_succ by lia.
    rewrite map_app, concat_app, IH. cbn [map List.concat]. rewrite app_nil_r.
    unfold section. apply range_app.
    split; [ | apply div_point_mono; lia].
    unfold div_point. assert (0 <= N / k) by (apply Z.div_pos; lia).
    assert (Hr := Z.mod_pos_bound N k ltac:(lia)).
    assert (0 <= Z.of_nat n * (N / k)) by (apply Z.mul_nonneg_nonneg; lia).
    lia.
Qed.

Lemma concat_all_sections (N k : Z) :
  0 <= N -> 1 <= k ->
  List.concat (map (section N k) (range k)) = range N.
Proof.
  intros HN Hk.
  replace (range k) with (range (Z.of_nat (Z.to_nat k)))
    by (rewrite Z2Nat.id by lia; reflexivity).
  rewrite concat_sections by assumption.
  f_equal. rewrite Z2Nat.id by lia. unfold div_point.
  assert (Hr := Z.mod_pos_bound N k ltac:(lia)).
  assert (HNk := Z.div_mod N k ltac:(lia)). lia.
Qed.

(** ** One character: channels, token and style *)

Lemma byte_roundtrip_all : forallb byte_roundtrip (range 256) = true.
Proof. vm_compute. reflexivity. Qed.

(** An 8-bit channel prints as two hexadecimal digits that read back
    as the channel. *)
Lemma format_02X_byte (n : Z) :
  0 <= n <= 255 ->
  exists a b, format_02X n = String a (String b EmptyString) /\
              hex_pair a b = Some n.
Proof.
  intros Hn.
  assert (H : byte_roundtrip n = true).
  { apply (proj1 (forallb_forall _ _) byte_roundtrip_all). apply range_In. lia. }
  unfold byte_roundtrip in H.
  destruct (format_02X n) as [ | a [ | b [ | ? ?]]]; try discriminate.
  destruct (hex_pair a b) as [m | ] eqn:E; try discriminate.
  apply Z.eqb_eq in H. subst m. eauto.
Qed.

Lemma Style_of_color_bytes (r g b : Z) :
  0 <= r <= 255 -> 0 <= g <= 255 -> 0 <= b <= 255 ->
  Style_of_color (hex_token (format_02X r) (format_02X g) (format_02X b)) =
    Ok (color_style (r, g, b)) /\
  String.length (hex_token (format_02X r) (format_02X g) (format_02X b)) = 7%nat.
Proof.
  intros Hr Hg Hb.
  destruct (format_02X_byte r Hr) as (r1 & r2 & -> & Er).
  destruct (format_02X_byte g Hg) as (g1 & g2 & -> & Eg).
  destruct (format_02X_byte b Hb) as (b1 & b2 & -> & Eb).
  unfold hex_token, Style_of_color. cbn [append Color_parse String.length].
  rewrite Er, Eg, Eb. split; reflexivity.
Qed.

Lemma valid_channel_bounds (x : Z) : valid_channel x = true <-> 0 <= x <= 255.
Proof. unfold valid_channel. rewrite andb_true_iff, !Z.leb_le. reflexivity. Qed.

Lemma valid_color_bounds (c : Color) (r g b : Z) :
  valid_color c = true -> rgb_tuple c = (r, g, b) ->
  0 <= r <= 255 /\ 0 <= g <= 255 /\ 0 <= b <= 255.
Proof.
  unfold valid_color. intros H E. rewrite E in H.
  rewrite !andb_true_iff, !valid_channel_bounds in H. tauto.
Qed.

(** The blend of a character that is not past the end of its chunk. *)
Lemma int_truediv_blend (i L : Z) :
  0 <= i < L ->
  exists x, Float.int_truediv i L = Ok x /\
            between false 0 (if i =? 0 then 0 else 1) x.
Proof.
  intros Hi. destruct (Z.eqb_spec i 0) as [-> | Hne].
  - exists (S754_zero false). split; [ | cbn; lia].
    unfold Float.int_truediv.
    replace (L =? 0) with false by (symmetry; apply Z.eqb_neq; lia).
    replace (L <? 0) with false by (symmetry; apply Z.ltb_ge; lia).
    reflexivity.
  - apply FloatFacts.int_truediv_between. exact Hi.
Qed.

(** One channel: [int(...)] gives what [floor(...)] gives, it stays
    between the two anchors, and it is the first anchor at the start of
    the chunk. *)
Lemma channel_spec (c1 c2 i L : Z) (x : spec_float) :
  0 <= c1 <= 255 -> 0 <= c2 <= 255 -> 0 <= i < L ->
  Float.int_truediv i L = Ok x ->
  exists c,
    blend_channel c1 (c2 - c1) x = Ok c /\
    interpolate_channel c1 c2 i L = Ok c /\
    Z.min c1 c2 <= c <= Z.max c1 c2 /\
    (i = 0 -> c = c1).
Proof.
  intros H1 H2 Hi Hx.
  destruct (int_truediv_blend i L Hi) as (x' & Hx' & Hb).
  rewrite Hx in Hx'. injection Hx' as <-.
  destruct (FloatFacts.blend_channel_between c1 (c2 - c1)
              (if i =? 0 then 0 else 1) x H1 ltac:(lia)
              ltac:(destruct (i =? 0); lia) Hb)
    as (v & c & Hv & Hc & Hf & Hbd).
  exists c. split; [ | split; [ | split]].
  - unfold blend_channel. rewrite Hv. exact Hc.
  - unfold interpolate_channel. rewrite Hx. cbn [bind]. rewrite Hv. exact Hf.
  - revert Hbd. destruct (Z.eqb_spec i 0); intros; lia.
  - intros ->. cbn [Z.eqb] in Hbd. lia.
Qed.

Lemma blend_color_spec (color1 color2 : Color) (i L : Z) (x : spec_float) :
  valid_color color1 = true -> valid_color color2 = true ->
  0 <= i < L -> Float.int_truediv i L = Ok x ->
  exists rgb token,
    (let '(r1, g1, b1) := rgb_tuple color1 in
     let '(r2, g2, b2) := rgb_tuple color2 in
     blend_color r1 g1 b1 (r2 - r1) (g2 - g1) (b2 - b1) x) = Ok token /\
    token = (let '(r, g, b) := rgb in
             hex_token (format_02X r) (format_02X g) (format_02X b)) /\
    String.length token = 7%nat /\
    Style_of_color token = Ok (color_style rgb) /\
    interpolated (rgb_tuple color1) (rgb_tuple color2) i L rgb /\
    within (rgb_tuple color1) (rgb_tuple color2) rgb /\
    (i = 0 -> rgb = rgb_tuple color1).
Proof.
  intros V1 V2 Hi Hx.
  destruct (rgb_tuple color1) as [[r1 g1] b1] eqn:E1.
  destruct (rgb_tuple color2) as [[r2 g2] b2] eqn:E2.
  destruct (valid_color_bounds _ _ _ _ V1 E1) as (Hr1 & Hg1 & Hb1).
  destruct (valid_color_bounds _ _ _ _ V2 E2) as (Hr2 & Hg2 & Hb2).
  destruct (channel_spec r1 r2 i L x Hr1 Hr2 Hi Hx) as (r & Cr & Ir & Br & Zr).
  destruct (channel_spec g1 g2 i L x Hg1 Hg2 Hi Hx) as (g & Cg & Ig & Bg & Zg).
  destruct (channel_spec b1 b2 i L x Hb1 Hb2 Hi Hx) as (b & Cb & Ib & Bb & Zb).
  destruct (Style_of_color_bytes r g b ltac:(lia) ltac:(lia) ltac:(lia))
    as [Hstyle Hlen].
  exists (r, g, b), (hex_token (format_02X r) (format_02X g) (format_02X b)).
  unfold blend_color. rewrite Cr, Cg, Cb. cbn [bind interpolated within].
  repeat split; try assumption; try lia.
  intros Hz. rewrite (Zr Hz), (Zg Hz), (Zb Hz). reflexivity.
Qed.

(** ** The two span loops as comprehensions *)

Lemma bind_ext {A B : Type} (c : Result A) (k1 k2 : A -> Result B) :
  (forall a, k1 a = k2 a) -> bind c k1 = bind c k2.
Proof. intros H. destruct c; cbn; auto. Qed.

Lemma substring_spans_parts (self : Gradient.Self) (indexes : list (list Z)) :
  Z.of_nat (List.length indexes) <= Gradient.hues self ->
  Gradient._substring_spans self indexes =
  (parts <- map_result
              (chunk_spans (Gradient._style self) (Gradient._colors self))
              (enumerate indexes) ;;
   Ok (List.concat parts)).
Proof.
  intros Hlen. unfold Gradient._substring_spans.
  etransitivity; [apply bind_ext with (k2 := fun st => Ok (fst st));
                  intros [? ?]; reflexivity | ].
  etransitivity;
    [apply (for_each_nested
              (fun entry : Z * list Z =>
                 Gradient.pair_vars (Gradient._colors self) (fst entry))
              (fun vars (entry : Z * list Z) =>
                 map_result
                   (substring_span (Gradient._style self) vars (snd entry))
                   (range (Z.of_nat (List.length (snd entry)))))) | ].
  - intros acc v [main_index substring_index] Hin. cbn [fst snd].
    assert (Hk : (main_index <? Gradient.hues self) = true).
    { apply in_combine_l, range_In in Hin. apply Z.ltb_lt. lia. }
    rewrite Hk.
    destruct (Gradient.pair_vars (Gradient._colors self) main_index)
      as [vars | e]; cbn [bind]; [ | reflexivity].
    rewrite (for_each_collect
               (substring_span (Gradient._style self) vars substring_index)).
    + destruct (map_result _ _); reflexivity.
    + intros acc' index _. unfold substring_span. cbn [Gradient.bound bind].
      destruct (Float.int_truediv index _) as [blend | e]; cbn [bind];
        [ | reflexivity].
      destruct vars as [[[[[r1 g1] b1] dr] dg] db].
      destruct (blend_color r1 g1 b1 dr dg db blend); cbn [bind]; [ | reflexivity].
      destruct (Style_of_color a); cbn [bind]; [ | reflexivity].
      destruct (getitem substring_index index); reflexivity.
  - cbn [app]. apply (f_equal (fun m => bind m _)).
    apply map_result_ext_in. intros [k chunk] _. reflexivity.
Qed.

Lemma gradient_spans_parts (self : Gradient.Self) :
  Gradient.hues self - 1 <> 0 ->
  Gradient._gradient_spans self =
  (parts <- map_result
              (gradient_chunk_spans (Gradient._style self)
                 (Gradient._colors self)
                 (Gradient._length self / (Gradient.hues self - 1)))
              (range (Gradient.hues self - 1)) ;;
   Ok (List.concat parts)).
Proof.
  intros Hg. unfold Gradient._gradient_spans, floordiv.
  replace (Gradient.hues self - 1 =? 0) with false
    by (symmetry; apply Z.eqb_neq; assumption).
  cbn [bind].
  set (size := Gradient._length self / (Gradient.hues self - 1)).
  etransitivity; [apply bind_ext with (k2 := fun st => Ok (fst st));
                  intros [? ?]; reflexivity | ].
  etransitivity;
    [apply (for_each_nested
              (fun i => Gradient.pair_vars (Gradient._colors self) i)
              (fun vars i =>
                 map_result
                   (gradient_span (Gradient._style self) vars (i * size) size)
                   (range size))) | ].
  - intros acc v i Hin.
    assert (Hk : (i <? Gradient.hues self - 1) = true).
    { apply range_In in Hin. apply Z.ltb_lt. lia. }
    rewrite Hk.
    destruct (Gradient.pair_vars (Gradient._colors self) i)
      as [vars | e]; cbn [bind]; [ | reflexivity].
    rewrite (for_each_collect
               (gradient_span (Gradient._style self) vars (i * size) size)).
    + destruct (map_result _ _); reflexivity.
    + intros acc' j _. unfold gradient_span. cbn [Gradient.bound bind].
      destruct (Float.int_truediv j size) as [blend | e]; cbn [bind];
        [ | reflexivity].
      destruct vars as [[[[[r1 g1] b1] dr] dg] db].
      destruct (blend_color r1 g1 b1 dr dg db blend); cbn [bind]; [ | reflexivity].
      destruct (Style_of_color a); reflexivity.
  - reflexivity.
Qed.

(** ** Unit spans *)

Lemma pair_vars_nth (colors : list Color) (k : nat) (color1 color2 : Color) :
  nth_error colors k = Some color1 -> nth_error colors (S k) = Some color2 ->
  Gradient.pair_vars colors (Z.of_nat k) = Ok (vars_of color1 color2).
Proof.
  intros H1 H2. unfold Gradient.pair_vars, vars_of.
  rewrite (proj2 (getitem_nth colors (Z.of_nat k) color1 ltac:(lia)))
    by (rewrite Nat2Z.id; exact H1).
  cbn [bind]. destruct (rgb_tuple color1) as [[r1 g1] b1].
  rewrite (proj2 (getitem_nth colors (Z.of_nat k + 1) color2 ltac:(lia)))
    by (replace (Z.to_nat (Z.of_nat k + 1)) with (S k) by lia; exact H2).
  cbn [bind]. destruct (rgb_tuple color2) as [[r2 g2] b2]. reflexivity.
Qed.

Lemma pair_vars_inv (colors : list Color) (k : Z) (vars : Gradient.ColorVars) :
  0 <= k -> Gradient.pair_vars colors k = Ok vars ->
  exists color1 color2,
    nth_error colors (Z.to_nat k) = Some color1 /\
    nth_error colors (S (Z.to_nat k)) = Some color2 /\
    vars = vars_of color1 color2.
Proof.
  intros Hk H. unfold Gradient.pair_vars in H.
  apply bind_Ok_inv in H as (color1 & H1 & H).
  destruct (rgb_tuple color1) as [[r1 g1] b1] eqn:E1.
  apply bind_Ok_inv in H as (color2 & H2 & H).
  destruct (rgb_tuple color2) as [[r2 g2] b2] eqn:E2.
  injection H as <-.
  apply getitem_nth in H1; [ | lia]. apply getitem_nth in H2; [ | lia].
  replace (Z.to_nat (k + 1)) with (S (Z.to_nat k)) in H2 by lia.
  exists color1, color2. unfold vars_of. rewrite E1, E2. auto.
Qed.

Lemma substring_span_spec (base : Style) (color1 color2 : Color)
  (chunk : list Z) (i : nat) (idx : Z) :
  valid_color color1 = true -> valid_color color2 = true ->
  nth_error chunk i = Some idx ->
  exists rgb cs,
    substring_span base (vars_of color1 color2) chunk (Z.of_nat i) =
      Ok (mkSpan idx (idx + 1) (Style_add cs base)) /\
    char_style color1 color2 (Z.of_nat i) (Z.of_nat (List.length chunk)) rgb cs.
Proof.
  intros V1 V2 Hnth.
  assert (Hi : 0 <= Z.of_nat i < Z.of_nat (List.length chunk)).
  { assert (nth_error chunk i <> None) by congruence.
    apply nth_error_Some in H. lia. }
  destruct (int_truediv_blend _ _ Hi) as (x & Hx & _).
  destruct (blend_color_spec color1 color2 _ _ x V1 V2 Hi Hx)
    as (rgb & token & Hbc & Htok & Hlen & Hsty & Hint & Hwith & Hzero).
  exists rgb, (color_style rgb). split.
  - unfold substring_span, vars_of. rewrite Hx. cbn [bind].
    destruct (rgb_tuple color1) as [[r1 g1] b1].
    destruct (rgb_tuple color2) as [[r2 g2] b2].
    rewrite Hbc. cbn [bind]. rewrite Hsty. cbn [bind].
    rewrite (proj2 (getitem_nth chunk (Z.of_nat i) idx ltac:(lia)))
      by (rewrite Nat2Z.id; exact Hnth).
    reflexivity.
  - unfold char_style. repeat split; try assumption.
    exists token. repeat split; assumption.
Qed.

Lemma substring_span_unit (base : Style) (vars : Gradient.ColorVars)
  (chunk : list Z) (index : Z) (sp : Span) :
  0 <= index -> substring_span base vars chunk index = Ok sp ->
  nth_error chunk (Z.to_nat index) = Some (start sp) /\
  end_ sp = start sp + 1.
Proof.
  intros Hi H. unfold substring_span in H.
  apply bind_Ok_inv in H as (blend & _ & H).
  destruct vars as [[[[[r1 g1] b1] dr] dg] db].
  apply bind_Ok_inv in H as (token & _ & H).
  apply bind_Ok_inv in H as (cs & _ & H).
  apply bind_Ok_inv in H as (k & Hk & H).
  injection H as <-. cbn [start end_]. split; [ | reflexivity].
  apply getitem_nth in Hk; assumption.
Qed.

Lemma chunk_spans_unit (base : Style) (colors : list Color) (k : Z)
  (chunk : list Z) (part : list Span) :
  chunk_spans base colors (k, chunk) = Ok part -> unit_spans chunk part.
Proof.
  unfold chunk_spans. intros H.
  apply bind_Ok_inv in H as (vars & _ & H).
  assert (Hlen := map_result_length _ _ _ H). rewrite range_length, Nat2Z.id in Hlen.
  split.
  - apply nth_error_ext. intros n. rewrite nth_error_map.
    destruct (Nat.ltb_spec n (List.length chunk)) as [Hn | Hn].
    + destruct (map_result_nth _ _ _ n (Z.of_nat n) H) as (sp & Hsp & Hs).
      { apply range_nth. lia. }
      rewrite Hsp. cbn [option_map].
      apply substring_span_unit in Hs as [Hs _]; [ | lia].
      rewrite Nat2Z.id in Hs. symmetry. exact Hs.
    + rewrite (proj2 (nth_error_None _ _)) by lia.
      rewrite (proj2 (nth_error_None _ _)) by lia. reflexivity.
  - apply Forall_forall. intros sp Hin.
    apply In_nth_error in Hin as [n Hn].
    assert (Hlt : (n < List.length part)%nat)
      by (apply nth_error_Some; congruence).
    destruct (map_result_nth _ _ _ n (Z.of_nat n) H) as (sp' & Hsp & Hs).
    { apply range_nth. lia. }
    rewrite Hn in Hsp. injection Hsp as <-.
    apply substring_span_unit in Hs as [_ Hs]; [exact Hs | lia].
Qed.

Lemma map_snd_combine {A B : Type} (xs : list A) (ys : list B) :
  List.length xs = List.length ys -> map snd (combine xs ys) = ys.
Proof.
  revert ys; induction xs as [ | x xs IH]; intros [ | y ys] H;
    cbn in *; try reflexivity; try discriminate.
  rewrite IH by lia. reflexivity.
Qed.

Lemma enumerate_snd {A : Type} (xs : list A) : map snd (enumerate xs) = xs.
Proof.
  unfold enumerate. apply map_snd_combine.
  rewrite range_length, Nat2Z.id. reflexivity.
Qed.

Lemma combine_nth_error {A B : Type} (xs : list A) (ys : list B) (k : nat)
  (x : A) (y : B) :
  nth_error xs k = Some x -> nth_error ys k = Some y ->
  nth_error (combine xs ys) k = Some (x, y).
Proof.
  revert xs ys; induction k as [ | k IH]; intros [ | x' xs] [ | y' ys] Hx Hy;
    cbn in *; try discriminate.
  - congruence.
  - apply IH; assumption.
Qed.

Lemma enumerate_nth {A : Type} (xs : list A) (k : nat) (x : A) :
  nth_error xs k = Some x ->
  nth_error (enumerate xs) k = Some (Z.of_nat k, x).
Proof.
  intros H. unfold enumerate.
  assert (Hk : (k < List.length xs)%nat) by (apply nth_error_Some; congruence).
  apply combine_nth_error; [ | exact H].
  apply range_nth. lia.
Qed.

Lemma parts_unit (base : Style) (colors : list Color)
  (entries : list (Z * list Z)) (parts : list (list Span)) :
  map_result (chunk_spans base colors) entries = Ok parts ->
  unit_spans (List.concat (map snd entries)) (List.concat parts).
Proof.
  intros H. apply map_result_Forall2 in H.
  induction H as [ | [k chunk] part entries parts Hp _ IH].
  - split; [reflexivity | constructor].
  - apply chunk_spans_unit in Hp. destruct Hp as [Hs Hu], IH as [IHs IHu].
    cbn [map snd List.concat]. split.
    + rewrite map_app, Hs, IHs. reflexivity.
    + apply Forall_app. split; assumption.
Qed.

Lemma tiles_of_units (spans : list Span) (a : Z) :
  Forall (fun s => end_ s = start s + 1) spans ->
  map start spans =
    map (fun j => a + Z.of_nat j) (seq 0 (List.length spans)) ->
  tiles a (a + Z.of_nat (List.length spans)) spans.
Proof.
  revert a; induction spans as [ | s rest IH]; intros a Hu Hs.
  - cbn. lia.
  - inversion Hu as [ | ? ? Hend Hrest]; subst.
    cbn [List.length seq map] in Hs. injection Hs as Hstart Hs.
    cbn [tiles List.length]. repeat split; [lia | lia | ].
    replace (a + Z.of_nat (S (List.length rest)))
      with (end_ s + Z.of_nat (List.length rest)) by lia.
    apply IH; [assumption | ].
    rewrite Hs, <- seq_shift, map_map. apply map_ext. intros j. lia.
Qed.

Lemma style_at_units (spans : list Span) (a : Z) (k : nat) (s : Span) :
  Forall (fun s => end_ s = start s + 1) spans ->
  map start spans =
    map (fun j => a + Z.of_nat j) (seq 0 (List.length spans)) ->
  nth_error spans k = Some s ->
  style_at spans (a + Z.of_nat k) = Some (style s).
Proof.
  revert a k; induction spans as [ | s0 rest IH]; intros a k Hu Hs Hk.
  - destruct k; discriminate.
  - inversion Hu as [ | ? ? Hend Hrest]; subst.
    cbn [List.length seq map] in Hs. injection Hs as Hstart Hs.
    cbn [style_at]. destruct k as [ | k]; cbn [nth_error] in Hk.
    + injection Hk as <-.
      replace (start s0 <=? a + Z.of_nat 0) with true
        by (symmetry; apply Z.leb_le; lia).
      replace (a + Z.of_nat 0 <? end_ s0) with true
        by (symmetry; apply Z.ltb_lt; lia).
      reflexivity.
    + replace (a + Z.of_nat (S k) <? end_ s0) with false
        by (symmetry; apply Z.ltb_ge; lia).
      rewrite andb_false_r.
      replace (a + Z.of_nat (S k)) with (end_ s0 + Z.of_nat k) by lia.
      apply IH; [assumption | | assumption].
      rewrite Hs, <- seq_shift, map_map. apply map_ext. intros j. lia.
Qed.

Lemma unit_spans_range (N : Z) (spans : list Span) :
  unit_spans (range N) spans ->
  List.length spans = Z.to_nat N /\
  Forall (fun s => end_ s = start s + 1) spans /\
  map start spans =
    map (fun j => 0 + Z.of_nat j) (seq 0 (List.length spans)).
Proof.
  intros [Hs Hu].
  assert (Hlen : List.length spans = Z.to_nat N).
  { rewrite <- (length_map start), Hs. apply range_length. }
  repeat split; try assumption.
  rewrite Hs, Hlen. unfold range. apply map_ext. intros j. lia.
Qed.

(** ** Doubles: rounding keeps bounds that are on the grid *)

Module FloatAccuracy.
Import Float.
Import FloatFacts.

Lemma between_at_0 (s : bool) (A K : Z) (x : spec_float) :
  between s A K x -> between_at s 0 A K x.
Proof.
  destruct x as [s' | | | s' m e]; cbn [between between_at]; try tauto.
  rewrite Z.sub_0_r. change (- 0) with 0. tauto.
Qed.

Lemma shr_fexp_spec_at (m e j : Z) (l : location) :
  0 <= m -> 0 <= j <= 1074 -> e <= - j -> m < 2 ^ (53 - j - e) ->
  exists mrs n,
    shr_fexp prec emax m e l = (mrs, e + n) /\ 0 <= n /\ e + n <= - j /\
    shr_m mrs = m / 2 ^ n /\
    (l = loc_Exact -> m mod 2 ^ n = 0 -> loc_of_shr_record mrs = loc_Exact).
Proof.
  intros Hm Hj He Hlt.
  assert (Hd : Zdigits2 m <= 53 - j - e) by (apply Zdigits2_le; lia).
  unfold shr_fexp, shr. rewrite fexp_eq.
  destruct (Z.max (Zdigits2 m + e - 53) (-1074) - e) as [ | p | p] eqn:Hn.
  - exists (shr_record_of_loc m l), 0. rewrite Z.add_0_r, Z.pow_0_r, Z.div_1_r.
    rewrite shr_record_of_loc_m. repeat split; try lia.
    intros -> _. reflexivity.
  - exists (iter_pos shr_1 p (shr_record_of_loc m l)), (Zpos p).
    rewrite iter_pos_nat.
    destruct (shr_iter (Pos.to_nat p) (shr_record_of_loc m l)) as [Him Hii].
    { rewrite shr_record_of_loc_m. exact Hm. }
    rewrite positive_nat_Z, shr_record_of_loc_m in Him, Hii.
    repeat split; try lia; try assumption.
    intros -> Hmod. apply loc_of_shr_record_exact. apply Hii; auto.
  - exists (shr_record_of_loc m l), 0. rewrite Z.add_0_r, Z.pow_0_r, Z.div_1_r.
    rewrite shr_record_of_loc_m. repeat split; try lia.
    intros -> _. reflexivity.
Qed.

Lemma binary_round_aux_at (s : bool) (m e j : Z) (l : location) (A K : Z) :
  0 <= m -> 0 <= j <= 1074 -> e <= - j -> K < 2 ^ 53 ->
  A * 2 ^ (- e - j) <= m ->
  (m + 1 <= K * 2 ^ (- e - j) \/ (l = loc_Exact /\ m <= K * 2 ^ (- e - j))) ->
  between_at s j A K (binary_round_aux prec emax s m e l).
Proof.
  intros Hm Hj He HK HA HU.
  assert (HmK : m <= K * 2 ^ (- e - j)) by (destruct HU as [ | [_ ?]]; lia).
  assert (Hpe : 0 < 2 ^ (- e - j)) by (apply pow2_pos; lia).
  assert (Hlt : m < 2 ^ (53 - j - e)).
  { replace (53 - j - e) with (53 + (- e - j)) by lia.
    rewrite pow2_split by lia. nia. }
  destruct (shr_fexp_spec_at m e j l Hm Hj He Hlt)
    as (mrs & n & Hs & Hn & Hen & Hq & Hex).
  unfold binary_round_aux. rewrite Hs.
  set (m1 := round_nearest_even (shr_m mrs) (loc_of_shr_record mrs)).
  set (e1 := e + n) in *.
  assert (Hpn : 0 < 2 ^ n) by (apply pow2_pos; lia).
  assert (Hpe1 : 0 < 2 ^ (- e1 - j)) by (apply pow2_pos; lia).
  assert (Hsplit : 2 ^ (- e - j) = 2 ^ (- e1 - j) * 2 ^ n).
  { replace (- e - j) with (- e1 - j + n) by lia. apply pow2_split; lia. }
  destruct (round_nearest_even_bounds (shr_m mrs) (loc_of_shr_record mrs))
    as [[Hlo Hhi] Hexact]. fold m1 in Hlo, Hhi, Hexact.
  assert (HA1 : A * 2 ^ (- e1 - j) <= m1).
  { rewrite Hq in Hlo. apply Z.le_trans with (m / 2 ^ n); [ | exact Hlo].
    apply div_pow2_lower; [lia | ]. rewrite <- Z.mul_assoc, <- Hsplit. exact HA. }
  assert (HK1 : m1 <= K * 2 ^ (- e1 - j)).
  { destruct (Z_lt_le_dec m (K * 2 ^ (- e - j))) as [Hstrict | Heq].
    - rewrite Hq in Hhi. apply Z.le_trans with (m / 2 ^ n + 1); [exact Hhi | ].
      apply div_pow2_upper_strict; [lia | ].
      rewrite <- Z.mul_assoc, <- Hsplit. exact Hstrict.
    - destruct HU as [HU | [Hl HU]]; [lia | ].
      assert (Hmeq : m = K * 2 ^ (- e1 - j) * 2 ^ n)
        by (rewrite <- Z.mul_assoc, <- Hsplit; lia).
      assert (Hmod : m mod 2 ^ n = 0) by (rewrite Hmeq; apply Z.mod_mul; lia).
      rewrite (Hexact (Hex Hl Hmod)), Hq, Hmeq, Z.div_mul by lia. lia. }
  assert (Hm1 : 0 <= m1).
  { apply Z.le_trans with (shr_m mrs); [ | exact Hlo].
    rewrite Hq. apply Z.div_pos; lia. }
  assert (Hlt1 : m1 < 2 ^ (53 - j - e1)).
  { replace (53 - j - e1) with (53 + (- e1 - j)) by lia.
    rewrite pow2_split by lia. nia. }
  destruct (shr_fexp_spec_at m1 e1 j loc_Exact Hm1 Hj Hen Hlt1)
    as (mrs2 & n2 & Hs2 & Hn2 & Hen2 & Hq2 & _).
  rewrite Hs2.
  set (e2 := e1 + n2) in *.
  assert (Hpn2 : 0 < 2 ^ n2) by (apply pow2_pos; lia).
  assert (Hpe2 : 0 < 2 ^ (- e2 - j)) by (apply pow2_pos; lia).
  assert (Hsplit2 : 2 ^ (- e1 - j) = 2 ^ (- e2 - j) * 2 ^ n2).
  { replace (- e1 - j) with (- e2 - j + n2) by lia. apply pow2_split; lia. }
  assert (HA2 : A * 2 ^ (- e2 - j) <= shr_m mrs2).
  { rewrite Hq2. apply div_pow2_lower; [lia | ].
    rewrite <- Z.mul_assoc, <- Hsplit2. exact HA1. }
  assert (HK2 : shr_m mrs2 <= K * 2 ^ (- e2 - j)).
  { rewrite Hq2. apply div_pow2_upper; [lia | ].
    rewrite <- Z.mul_assoc, <- Hsplit2. exact HK1. }
  assert (Hm2 : 0 <= shr_m mrs2) by (rewrite Hq2; apply Z.div_pos; lia).
  destruct (shr_m mrs2) as [ | p | p] eqn:Hm2e.
  - cbn [between_at]. split; [reflexivity | ]. nia.
  - replace (e2 <=? emax - prec) with true
      by (symmetry; apply Z.leb_le; unfold emax, prec; lia).
    cbn [between_at]. repeat split; assumption.
  - lia.
Qed.

Lemma binary_round_at (s : bool) (mx : positive) (ex j A K : Z) :
  0 <= j <= 1074 -> ex <= - j -> K < 2 ^ 53 ->
  A * 2 ^ (- ex - j) <= Zpos mx <= K * 2 ^ (- ex - j) ->
  between_at s j A K (binary_round prec emax s mx ex).
Proof.
  intros Hj He HK [HA HU]. unfold binary_round.
  destruct (shl_align_spec mx ex (fexp prec emax (Zpos (digits2_pos mx) + ex)))
    as (mz & ez & -> & Hez & Hmz).
  assert (Hsplit : 2 ^ (- ez - j) = 2 ^ (- ex - j) * 2 ^ (ex - ez)).
  { replace (- ez - j) with (- ex - j + (ex - ez)) by lia.
    apply pow2_split; lia. }
  assert (0 < 2 ^ (ex - ez)) by (apply pow2_pos; lia).
  apply binary_round_aux_at; try lia.
  - rewrite Hsplit, Hmz. nia.
  - right. split; [reflexivity | ]. rewrite Hsplit, Hmz. nia.
Qed.

Lemma binary_normalize_at (m e j A K : Z) :
  0 <= j <= 1074 -> e <= - j -> 0 <= A -> K < 2 ^ 53 ->
  A * 2 ^ (- e - j) <= m <= K * 2 ^ (- e - j) ->
  between_at false j A K (binary_normalize prec emax m e false).
Proof.
  intros Hj He HA0 HK [HA HU].
  assert (0 < 2 ^ (- e - j)) by (apply pow2_pos; lia).
  destruct m as [ | p | p]; cbn [binary_normalize].
  - cbn [between_at]. split; [reflexivity | nia].
  - apply binary_round_at; auto.
  - nia.
Qed.

(** [i / L] is within [2 ^ - 53] of the quotient: it lies between the
    two multiples of [2 ^ - 53] around it. *)
Lemma int_truediv_at (i L : Z) :
  0 <= i < L -> L < 2 ^ 53 ->
  exists x,
    int_truediv i L = Ok x /\
    between_at false 53 (i * 2 ^ 53 / L) (i * 2 ^ 53 / L + 1) x.
Proof.
  intros [Hi HL] HL53. unfold int_truediv.
  replace (L =? 0) with false by (symmetry; apply Z.eqb_neq; lia).
  replace (i <? 0) with false by (symmetry; apply Z.ltb_ge; lia).
  replace (L <? 0) with false by (symmetry; apply Z.ltb_ge; lia).
  cbn [xorb].
  assert (H53 : 0 < 2 ^ 53) by reflexivity.
  assert (HA0 : 0 <= i * 2 ^ 53 / L) by (apply Z.div_pos; nia).
  destruct (Z.eqb_spec i 0) as [-> | Hne].
  - exists (S754_zero false). split; [reflexivity | ]. cbn [between_at].
    rewrite Z.mul_0_l, Z.div_0_l by lia. lia.
  - rewrite !Z.abs_eq by lia.
    unfold SFdiv_core_binary.
    set (e' := Z.min (fexp prec emax (Zdigits2 i + 0 - (Zdigits2 L + 0))) (0 - 0)).
    assert (Hdig : Zdigits2 i <= Zdigits2 L).
    { apply Zdigits2_le; [apply Zdigits2_nonneg | lia | ].
      pose proof (Zdigits2_upper L ltac:(lia)). lia. }
    assert (He' : e' <= - 53) by (unfold e'; rewrite fexp_eq; lia).
    set (m' := match 0 - 0 - e' with
               | 0 => i
               | Zpos _ => Z.shiftl i (0 - 0 - e')
               | Zneg _ => 0
               end).
    assert (Hm' : m' = i * 2 ^ (- e')).
    { unfold m'. replace (0 - 0 - e') with (- e') by lia.
      destruct (- e') as [ | p | p] eqn:Hp;
        [rewrite Z.pow_0_r; lia | apply Z.shiftl_mul_pow2; lia | lia]. }
    assert (Hk : 0 < 2 ^ (- e' - 53)) by (apply pow2_pos; lia).
    assert (Hsplit : 2 ^ (- e') = 2 ^ 53 * 2 ^ (- e' - 53)).
    { rewrite <- pow2_split by lia. f_equal. lia. }
    assert (Hdm : Z.div_eucl m' L = (m' / L, m' mod L)).
    { unfold Z.div, Z.modulo. destruct (Z.div_eucl m' L); reflexivity. }
    rewrite Hdm.
    set (A := i * 2 ^ 53 / L) in *.
    assert (HAL : A * L <= i * 2 ^ 53 < (A + 1) * L).
    { pose proof (Z.div_mod (i * 2 ^ 53) L ltac:(lia)).
      pose proof (Z.mod_pos_bound (i * 2 ^ 53) L ltac:(lia)).
      fold A in H. nia. }
    assert (HAK : A + 1 < 2 ^ 53) by nia.
    assert (Hq0 : 0 <= m' / L) by (apply Z.div_pos; nia).
    assert (Hb : between_at false 53 A (A + 1)
              (binary_round_aux prec emax false (m' / L) e'
                 (new_location L (m' mod L)))).
    { apply binary_round_aux_at; try lia.
      - apply Z.div_le_lower_bound; [lia | ]. rewrite Hm', Hsplit. nia.
      - left.
        assert (m' / L < (A + 1) * 2 ^ (- e' - 53)); [ | lia].
        apply Z.div_lt_upper_bound; [lia | ]. rewrite Hm', Hsplit. nia. }
    destruct (binary_round_aux prec emax false (m' / L) e'
                (new_location L (m' mod L))) as [ | | | s m e] eqn:E;
      cbn [between_at] in Hb; try contradiction; eauto.
Qed.

(** The product of an exact integer and a double between two multiples
    of [2 ^ - jx]. *)
Lemma mul_at (sd : bool) (D jx Ax Kx j A K : Z) (fd x : spec_float) :
  0 <= D -> 0 <= j <= jx -> j <= 1074 -> K < 2 ^ 53 ->
  A * 2 ^ (jx - j) <= D * Ax -> D * Kx <= K * 2 ^ (jx - j) ->
  between sd D D fd -> between_at false jx Ax Kx x ->
  between_at sd j A K (mul fd x).
Proof.
  intros HD Hj Hj' HK HA HU Hfd Hx. unfold mul.
  assert (Hp : 0 < 2 ^ (jx - j)) by (apply pow2_pos; lia).
  destruct fd as [s1 | | | s1 m1 e1]; cbn [between] in Hfd; try contradiction;
    destruct x as [s2 | | | s2 m2 e2]; cbn [between_at] in Hx;
    try contradiction; cbn [SFmul].
  - destruct Hfd as [-> ?], Hx as [-> ?]. cbn [between_at].
    rewrite xorb_false_r. split; [reflexivity | ].
    assert (D = 0) by lia. subst D. nia.
  - destruct Hfd as [-> ?], Hx as (-> & ? & ?). cbn [between_at].
    rewrite xorb_false_r. split; [reflexivity | ].
    assert (D = 0) by lia. subst D. nia.
  - destruct Hfd as (-> & ? & ?), Hx as [-> ?]. cbn [between_at].
    rewrite xorb_false_r. split; [reflexivity | ]. nia.
  - destruct Hfd as (-> & He1 & Hm1), Hx as (-> & He2 & Hm2).
    rewrite xorb_false_r.
    assert (0 < 2 ^ (- e1)) by (apply pow2_pos; lia).
    assert (0 < 2 ^ (- e2 - jx)) by (apply pow2_pos; lia).
    assert (Hsplit : 2 ^ (- (e1 + e2) - j) =
                     2 ^ (- e1) * (2 ^ (- e2 - jx) * 2 ^ (jx - j))).
    { replace (- (e1 + e2) - j) with (- e1 + (- e2 - jx + (jx - j))) by lia.
      rewrite !pow2_split by lia. reflexivity. }
    assert (Hm1' : Zpos m1 = D * 2 ^ (- e1)) by lia.
    apply binary_round_aux_at; try lia.
    + rewrite Hsplit, Pos2Z.inj_mul, Hm1'.
      replace (A * (2 ^ (- e1) * (2 ^ (- e2 - jx) * 2 ^ (jx - j))))
        with (2 ^ (- e1) * (A * 2 ^ (jx - j) * 2 ^ (- e2 - jx))) by ring.
      replace (D * 2 ^ (- e1) * Zpos m2)
        with (2 ^ (- e1) * (D * Zpos m2)) by ring.
      apply Z.mul_le_mono_nonneg_l; [lia | ].
      apply Z.le_trans with (D * Ax * 2 ^ (- e2 - jx)); [nia | ].
      rewrite <- Z.mul_assoc. apply Z.mul_le_mono_nonneg_l; lia.
    + right. split; [reflexivity | ].
      rewrite Hsplit, Pos2Z.inj_mul, Hm1'.
      replace (K * (2 ^ (- e1) * (2 ^ (- e2 - jx) * 2 ^ (jx - j))))
        with (2 ^ (- e1) * (K * 2 ^ (jx - j) * 2 ^ (- e2 - jx))) by ring.
      replace (D * 2 ^ (- e1) * Zpos m2)
        with (2 ^ (- e1) * (D * Zpos m2)) by ring.
      apply Z.mul_le_mono_nonneg_l; [lia | ].
      apply Z.le_trans with (D * Kx * 2 ^ (- e2 - jx)); [ | nia].
      rewrite <- Z.mul_assoc. apply Z.mul_le_mono_nonneg_l; lia.
Qed.

Lemma between_at_exact (s : bool) (j Z0 : Z) (x : spec_float) :
  0 <= j -> between_at s j (Z0 * 2 ^ j) (Z0 * 2 ^ j) x -> between s Z0 Z0 x.
Proof.
  intros Hj. assert (Hpj : 0 < 2 ^ j) by (apply pow2_pos; lia).
  destruct x as [s' | | | s' m e]; cbn [between between_at]; try tauto.
  - intros [-> H]. split; [reflexivity | nia].
  - intros (-> & He & Hm). split; [reflexivity | ]. split; [lia | ].
    assert (Hsplit : 2 ^ (- e) = 2 ^ j * 2 ^ (- e - j)).
    { rewrite <- pow2_split by lia. f_equal. lia. }
    rewrite Hsplit, Z.mul_assoc. exact Hm.
Qed.

Lemma binary_round_int_at (s : bool) (p : positive) (j : Z) :
  0 <= j <= 53 -> Zpos p * 2 ^ j < 2 ^ 53 ->
  between_at s j (Zpos p * 2 ^ j) (Zpos p * 2 ^ j)
    (binary_round prec emax s p 0).
Proof.
  intros Hj Hz.
  assert (Hpj : 0 < 2 ^ j) by (apply pow2_pos; lia).
  unfold binary_round.
  destruct (shl_align_spec p 0 (fexp prec emax (Zpos (digits2_pos p) + 0)))
    as (mz & ez & -> & Hez & Hmz).
  rewrite fexp_eq in Hez.
  pose proof (digits2_pos_bounds p) as [Hd _].
  assert (Hdig : Zpos (digits2_pos p) <= 53 - j).
  { destruct (Z_le_gt_dec (Zpos (digits2_pos p)) (53 - j)) as [ | Hgt];
      [assumption | exfalso].
    assert (2 ^ (53 - j) <= 2 ^ (Zpos (digits2_pos p) - 1))
      by (apply Z.pow_le_mono_r; lia).
    assert (2 ^ 53 = 2 ^ (53 - j) * 2 ^ j)
      by (rewrite <- pow2_split by lia; f_equal; lia).
    nia. }
  assert (Hezj : ez <= - j) by lia.
  assert (0 < 2 ^ (- ez - j)) by (apply pow2_pos; lia).
  assert (Hsplit : 2 ^ (0 - ez) = 2 ^ j * 2 ^ (- ez - j)).
  { rewrite <- pow2_split by lia. f_equal. lia. }
  apply binary_round_aux_at; try lia;
    try (right; split; [reflexivity | ]);
    rewrite Hmz, Hsplit, Z.mul_assoc; lia.
Qed.

(** Small ints convert exactly, to a double on a fine grid. *)
Lemma of_int_at (z j : Z) :
  0 <= j <= 53 -> Z.abs z * 2 ^ j < 2 ^ 53 ->
  exists f,
    of_int z = Ok f /\
    between (z <? 0) (Z.abs z) (Z.abs z) f /\
    between_at (z <? 0) j (Z.abs z * 2 ^ j) (Z.abs z * 2 ^ j) f.
Proof.
  intros Hj Hz. unfold of_int.
  destruct z as [ | p | p]; cbn [binary_normalize Z.abs Z.ltb Z.compare] in *.
  - exists (S754_zero false). split; [reflexivity | ].
    cbn [between between_at]. lia.
  - pose proof (binary_round_int_at false p j Hj Hz) as Hat.
    destruct (binary_round prec emax false p 0) as [ | | | s m e] eqn:E;
      cbn [between_at] in Hat; try contradiction;
      (eexists; split; [reflexivity | ];
       split; [apply (between_at_exact _ j); [lia | ] | ]; exact Hat).
  - pose proof (binary_round_int_at true p j Hj Hz) as Hat.
    destruct (binary_round prec emax true p 0) as [ | | | s m e] eqn:E;
      cbn [between_at] in Hat; try contradiction;
      (eexists; split; [reflexivity | ];
       split; [apply (between_at_exact _ j); [lia | ] | ]; exact Hat).
Qed.

(** The sum of an exact integer [R] and a double of sign [sy] whose
    magnitude is between two multiples of [2 ^ - j]. *)
Lemma add_at (sy : bool) (R j A K : Z) (x y : spec_float) :
  0 <= R -> 0 <= j <= 1074 -> A <= K ->
  (if sy then K <= R * 2 ^ j else 0 <= R * 2 ^ j + A) ->
  (if sy then R * 2 ^ j - A < 2 ^ 53 else R * 2 ^ j + K < 2 ^ 53) ->
  R * 2 ^ j < 2 ^ 53 ->
  between_at false j (R * 2 ^ j) (R * 2 ^ j) x -> between_at sy j A K y ->
  between_at false j
    (if sy then R * 2 ^ j - K else R * 2 ^ j + A)
    (if sy then R * 2 ^ j - A else R * 2 ^ j + K) (add x y).
Proof.
  intros HR Hj HAK Hfit Hfit' HR53 Hx Hy. unfold add.
  assert (Hpj : 0 < 2 ^ j) by (apply pow2_pos; lia).
  destruct x as [s1 | | | s1 m1 e1]; cbn [between_at] in Hx;
    try contradiction;
    destruct y as [s2 | | | s2 m2 e2]; cbn [between_at] in Hy;
    try contradiction.
  - destruct Hx as [-> ?], Hy as [-> ?]. cbn [SFadd].
    destruct sy; cbn [between_at]; split; try reflexivity; lia.
  - destruct Hx as [-> ?], Hy as (-> & He2 & Hm2). cbn [SFadd].
    assert (0 < 2 ^ (- e2 - j)) by (apply pow2_pos; lia).
    destruct sy; cbn [between_at].
    + nia.
    + repeat split; try lia; nia.
  - destruct Hx as (-> & He1 & Hm1), Hy as [-> ?]. cbn [SFadd between_at].
    assert (0 < 2 ^ (- e1 - j)) by (apply pow2_pos; lia).
    destruct sy; repeat split; try lia; nia.
  - destruct Hx as (-> & He1 & Hm1), Hy as (-> & He2 & Hm2). cbn [SFadd].
    destruct (shl_align_spec m1 e1 (Z.min e1 e2)) as (a1 & z1 & E1 & Hz1 & Ha1).
    destruct (shl_align_spec m2 e2 (Z.min e1 e2)) as (a2 & z2 & E2 & Hz2 & Ha2).
    rewrite E1, E2. cbn [fst].
    set (ez := Z.min e1 e2) in *.
    assert (Hz1' : z1 = ez) by lia. assert (Hz2' : z2 = ez) by lia.
    clear Hz1 Hz2. subst z1 z2.
    assert (0 < 2 ^ (- e1 - j)) by (apply pow2_pos; lia).
    assert (0 < 2 ^ (- e2 - j)) by (apply pow2_pos; lia).
    assert (0 < 2 ^ (e1 - ez)) by (apply pow2_pos; lia).
    assert (0 < 2 ^ (e2 - ez)) by (apply pow2_pos; lia).
    assert (Hs1 : 2 ^ (- ez - j) = 2 ^ (- e1 - j) * 2 ^ (e1 - ez)).
    { rewrite <- pow2_split by lia. f_equal. lia. }
    assert (Hs2 : 2 ^ (- ez - j) = 2 ^ (- e2 - j) * 2 ^ (e2 - ez)).
    { rewrite <- pow2_split by lia. f_equal. lia. }
    assert (HA1 : Zpos a1 = R * 2 ^ j * 2 ^ (- ez - j)).
    { rewrite Ha1, Hs1.
      replace (Zpos m1) with (R * 2 ^ j * 2 ^ (- e1 - j)) by lia. ring. }
    assert (HA2 : A * 2 ^ (- ez - j) <= Zpos a2 <= K * 2 ^ (- ez - j)).
    { rewrite Ha2, Hs2, !Z.mul_assoc.
      split; apply Z.mul_le_mono_nonneg_r; lia. }
    assert (0 < 2 ^ (- ez - j)) by (apply pow2_pos; lia).
    destruct sy; cbn [cond_Zopp]; apply binary_normalize_at; try lia; nia.
Qed.

(** [int()] of a non-negative double between two multiples of
    [2 ^ - j]. *)
Lemma to_int_at (j A K : Z) (x : spec_float) :
  0 <= j -> 0 <= A -> between_at false j A K x ->
  exists c, to_int x = Ok c /\ floor x = Ok c /\ A / 2 ^ j <= c <= K / 2 ^ j.
Proof.
  intros Hj HA Hx.
  assert (Hpj : 0 < 2 ^ j) by (apply pow2_pos; lia).
  destruct x as [s | | | s m e]; cbn [between_at] in Hx; try contradiction.
  - exists 0. cbn [to_int floor]. destruct Hx as [_ [HA' HK]].
    assert (A = 0) by lia. subst A. rewrite Z.div_0_l by lia.
    repeat split; try lia. apply Z.div_pos; lia.
  - destruct Hx as (-> & He & Hm). cbn [to_int floor signed].
    assert (Hp : 0 < 2 ^ (- e - j)) by (apply pow2_pos; lia).
    assert (Hsplit : 2 ^ (- e) = 2 ^ j * 2 ^ (- e - j)).
    { rewrite <- pow2_split by lia. f_equal. lia. }
    destruct (Z.leb_spec 0 e) as [He0 | He0].
    + assert (e = 0) by lia. assert (j = 0) by lia. subst e j.
      change (- 0 - 0) with 0 in Hm. rewrite Z.pow_0_r in *.
      rewrite !Z.div_1_r. exists (Zpos m * 1). repeat split; lia.
    + exists (Zpos m / 2 ^ (- e)).
      assert (0 < 2 ^ (- e)) by (apply pow2_pos; lia).
      rewrite Z.quot_div_nonneg by lia.
      assert (Hdd : Zpos m / 2 ^ (- e) = Zpos m / 2 ^ (- e - j) / 2 ^ j).
      { rewrite Z.div_div by lia. rewrite Hsplit. f_equal. ring. }
      repeat split.
      * rewrite Hdd. apply Z.div_le_mono; [lia | ].
        apply Z.div_le_lower_bound; lia.
      * rewrite Hdd. apply Z.div_le_mono; [lia | ].
        apply Z.div_le_upper_bound; lia.
Qed.

End FloatAccuracy.

(** ** The interpolation against exact arithmetic *)

(** How far [D * t] can be from [D * i / L] when [t] is [i / L] cut or
    raised to a multiple of [2 ^ - 53]: with [q] and [r] the quotient
    and remainder of [D * i] by [L], in units of [2 ^ - 53]. *)
Lemma scaled_quotient_bounds (D i L : Z) :
  0 <= D <= 255 -> 0 <= i < L -> L <= 2 ^ 44 ->
  let T := i * 2 ^ 53 / L in
  let q := D * i / L in
  let r := (D * i) mod L in
  0 <= T /\ T + 1 <= 2 ^ 53 /\ 0 <= q <= D /\ (0 < D -> q < D) /\
  q * 2 ^ 53 - 255 <= D * T /\
  D * (T + 1) <= (q + 1) * 2 ^ 53 - 256 /\
  (r = 0 -> D * (T + 1) <= q * 2 ^ 53 + 255) /\
  (r <> 0 -> q * 2 ^ 53 + 256 <= D * T).
Proof.
  intros HD Hi HL T q r.
  change (2 ^ 44) with 17592186044416 in HL.
  change (2 ^ 53) with 9007199254740992 in *.
  pose proof (Z.div_mod (i * 9007199254740992) L ltac:(lia)) as HT.
  pose proof (Z.mod_pos_bound (i * 9007199254740992) L ltac:(lia)) as HTm.
  fold T in HT.
  pose proof (Z.div_mod (D * i) L ltac:(lia)) as Hq.
  pose proof (Z.mod_pos_bound (D * i) L ltac:(lia)) as Hqm.
  fold q r in Hq, Hqm.
  assert (HT0 : 0 <= T) by (apply Z.div_pos; lia).
  assert (Hq0 : 0 <= q) by (apply Z.div_pos; nia).
  assert (HTL : T * L <= i * 9007199254740992 < (T + 1) * L) by nia.
  assert (HT1 : T + 1 <= 9007199254740992) by nia.
  assert (HqD : q <= D) by nia.
  assert (HDi : D * (i * 9007199254740992) =
                (L * q + r) * 9007199254740992) by nia.
  split; [exact HT0 | ]. split; [exact HT1 | ].
  split; [lia | ]. split; [intros HD0; nia | ].
  split; [ | split; [ | split]].
  - assert (L * (q * 9007199254740992 - 255) <= L * (D * T)); [ | nia].
    assert (D * (T * L) >= D * (i * 9007199254740992 - L)) by nia.
    nia.
  - assert (L * (D * (T + 1)) <= L * ((q + 1) * 9007199254740992 - 256));
      [ | nia].
    assert (D * ((T + 1) * L) <= D * (i * 9007199254740992 + L)) by nia.
    nia.
  - intros Hr.
    assert (L * (D * (T + 1)) <= L * (q * 9007199254740992 + 255)); [ | nia].
    assert (D * ((T + 1) * L) <= D * (i * 9007199254740992 + L)) by nia.
    nia.
  - intros Hr.
    assert (L * (q * 9007199254740992 + 256) <= L * (D * T)); [ | nia].
    assert (D * (T * L) >= D * (i * 9007199254740992 - L)) by nia.
    nia.
Qed.

Lemma div_scaled (c a : Z) :
  0 <= a < 2 ^ 45 -> (c * 2 ^ 45 + a) / 2 ^ 45 = c.
Proof.
  intros Ha. symmetry. apply Z.div_unique with a; lia.
Qed.

Ltac pows :=
  change (2 ^ (53 - 45)) with 256 in *;
  change (2 ^ 45) with 35184372088832 in *;
  change (2 ^ 53) with 9007199254740992 in *.

(** The four cases of the interpolation of one channel: the channel
    falls or rises, and the exact value is an integer or not.  [D] is
    the magnitude of the difference, [sd] its sign, and [A], [K] bound
    [D * t] in units of [2 ^ - 45]. *)
Lemma blend_steps (c1 d i L D A K lo hi : Z) (sd : bool) (x : spec_float) :
  0 <= c1 <= 255 -> 0 <= c1 + d <= 255 -> 0 <= D <= 255 ->
  Z.abs d = D -> (d <? 0) = sd ->
  between_at false 53 (i * 2 ^ 53 / L) (i * 2 ^ 53 / L + 1) x ->
  A <= K -> K < 2 ^ 53 ->
  A * 256 <= D * (i * 2 ^ 53 / L) ->
  D * (i * 2 ^ 53 / L + 1) <= K * 256 ->
  0 <= A -> (sd = true -> K <= c1 * 2 ^ 45) -> hi <= 255 ->
  lo * 2 ^ 45 <= (if sd then c1 * 2 ^ 45 - K else c1 * 2 ^ 45 + A) ->
  (if sd then c1 * 2 ^ 45 - A else c1 * 2 ^ 45 + K) < (hi + 1) * 2 ^ 45 ->
  exists c,
    blend_channel c1 d x = Ok c /\
    (v <- blend_value c1 d x ;; Float.floor v) = Ok c /\
    lo <= c <= hi.
Proof.
  intros H1 H2 HD Habs Hsd Hx HAK HK HA HU HA0 Hfit Hhi255 Hlo Hhi.
  destruct (FloatAccuracy.of_int_at d 0) as (fd & Efd & Hfd & _);
    [lia | rewrite Z.pow_0_r; pows; lia | ].
  destruct (FloatAccuracy.of_int_at c1 45) as (f1 & Ef1 & _ & Hf1);
    [lia | pows; lia | ].
  replace (c1 <? 0) with false in Hf1 by (symmetry; apply Z.ltb_ge; lia).
  rewrite (Z.abs_eq c1) in Hf1 by lia.
  rewrite Habs, Hsd in Hfd.
  assert (Hmul : between_at sd 45 A K (Float.mul fd x)).
  { apply (FloatAccuracy.mul_at sd D 53 (i * 2 ^ 53 / L)
             (i * 2 ^ 53 / L + 1) 45 A K fd x); try assumption; try lia;
      change (2 ^ (53 - 45)) with 256; assumption. }
  assert (Hadd : between_at false 45
            (if sd then c1 * 2 ^ 45 - K else c1 * 2 ^ 45 + A)
            (if sd then c1 * 2 ^ 45 - A else c1 * 2 ^ 45 + K)
            (Float.add f1 (Float.mul fd x))).
  { apply (FloatAccuracy.add_at sd c1 45 A K); try assumption; try lia;
      destruct sd; try specialize (Hfit eq_refl); pows; lia. }
  assert (HA' : 0 <= (if sd then c1 * 2 ^ 45 - K else c1 * 2 ^ 45 + A))
    by (destruct sd; try specialize (Hfit eq_refl); pows; lia).
  assert (H45 : 0 <= 45) by lia.
  destruct (FloatAccuracy.to_int_at 45 _ _ _ H45 HA' Hadd)
    as (c & Hc & Hfl & Hb).
  exists c. unfold blend_channel, blend_value. rewrite Efd, Ef1.
  cbn [bind]. split; [exact Hc | ]. split; [exact Hfl | ].
  assert (Hp : 0 < 2 ^ 45) by reflexivity.
  split.
  - apply Z.le_trans with
      ((if sd then c1 * 2 ^ 45 - K else c1 * 2 ^ 45 + A) / 2 ^ 45);
      [ | lia].
    apply Z.div_le_lower_bound; lia.
  - assert ((if sd then c1 * 2 ^ 45 - A else c1 * 2 ^ 45 + K) / 2 ^ 45
            < hi + 1); [ | lia].
    apply Z.div_lt_upper_bound; lia.
Qed.

(** The channel computed in doubles against the exact quotient. *)
Lemma blend_channel_exact (c1 c2 i L : Z) :
  0 <= c1 <= 255 -> 0 <= c2 <= 255 -> 0 <= i < L -> L <= 2 ^ 44 ->
  exists x c,
    Float.int_truediv i L = Ok x /\
    blend_channel c1 (c2 - c1) x = Ok c /\
    interpolate_channel c1 c2 i L = Ok c /\
    exact_channel c1 c2 i L - 1 <= c <= exact_channel c1 c2 i L /\
    (((c2 - c1) * i) mod L <> 0 -> c = exact_channel c1 c2 i L).
Proof.
  intros H1 H2 Hi HL.
  assert (HL53 : L < 2 ^ 53).
  { change (2 ^ 44) with 17592186044416 in HL. pows. lia. }
  destruct (FloatAccuracy.int_truediv_at i L Hi HL53) as (x & Hx & Hxat).
  exists x.
  assert (Hexact : exact_channel c1 c2 i L = c1 + (c2 - c1) * i / L).
  { unfold exact_channel. rewrite Z.div_add_l by lia. reflexivity. }
  assert (Hfin : forall lo hi,
            (exists c, blend_channel c1 (c2 - c1) x = Ok c /\
                       (v <- blend_value c1 (c2 - c1) x ;; Float.floor v) =
                         Ok c /\ lo <= c <= hi) ->
            exists c, Float.int_truediv i L = Ok x /\
                      blend_channel c1 (c2 - c1) x = Ok c /\
                      interpolate_channel c1 c2 i L = Ok c /\
                      lo <= c <= hi).
  { intros lo hi (c & Hc & Hfl & Hb). exists c.
    split; [exact Hx | ]. split; [exact Hc | ].
    split; [ | exact Hb]. unfold interpolate_channel. rewrite Hx. exact Hfl. }
  destruct (Z.ltb_spec (c2 - c1) 0) as [Hneg | Hpos].
  - (* the channel falls *)
    set (D := - (c2 - c1)).
    destruct (scaled_quotient_bounds D i L ltac:(unfold D; lia) Hi HL)
      as (HT0 & HT1 & Hq & HqD & Hlo & Hhi & Hr0 & Hrn).
    set (T := i * 2 ^ 53 / L) in *.
    set (q := D * i / L) in *.
    specialize (HqD ltac:(unfold D; lia)).
    assert (Hdi : (c2 - c1) * i = - (D * i)) by (unfold D; ring).
    destruct (Z.eq_dec ((D * i) mod L) 0) as [Hr | Hr].
    + assert (Hfloor : (c2 - c1) * i / L = - q).
      { rewrite Hdi. apply Z.div_opp_l_z; [lia | exact Hr]. }
      assert (Hmod : ((c2 - c1) * i) mod L = 0).
      { rewrite Hdi. apply Z.mod_opp_l_z; [lia | exact Hr]. }
      specialize (Hr0 Hr).
      destruct (Hfin (c1 - q - 1) (c1 - q)) as (c & ? & ? & ? & ?).
      { apply (blend_steps c1 (c2 - c1) i L D
                 (Z.max 0 (q * 2 ^ 45 - 1)) (q * 2 ^ 45 + 1) _ _ true);
          try assumption; try (unfold D in *; lia);
          try (apply Z.ltb_lt; lia); try discriminate; fold T; pows;
          try intros _; unfold D in *; lia. }
      exists c. rewrite Hexact, Hfloor.
      do 3 (split; [assumption | ]). split; [lia | ].
      intros Hne. contradiction.
    + assert (Hfloor : (c2 - c1) * i / L = - q - 1).
      { rewrite Hdi. apply Z.div_opp_l_nz; [lia | exact Hr]. }
      specialize (Hrn Hr).
      destruct (Hfin (c1 - q - 1) (c1 - q - 1)) as (c & ? & ? & ? & ?).
      { apply (blend_steps c1 (c2 - c1) i L D
                 (q * 2 ^ 45 + 1) ((q + 1) * 2 ^ 45) _ _ true);
          try assumption; try (unfold D in *; lia);
          try (apply Z.ltb_lt; lia); try discriminate; fold T; pows;
          try intros _; unfold D in *; lia. }
      exists c. rewrite Hexact, Hfloor.
      do 3 (split; [assumption | ]). split; [lia | ].
      intros _. lia.
  - (* the channel rises or stays *)
    set (D := c2 - c1) in *.
    destruct (scaled_quotient_bounds D i L ltac:(unfold D; lia) Hi HL)
      as (HT0 & HT1 & Hq & _ & Hlo & Hhi & _ & Hrn).
    set (T := i * 2 ^ 53 / L) in *.
    set (q := D * i / L) in *.
    assert (HDT : 0 <= D * T) by nia.
    destruct (Z.eq_dec ((D * i) mod L) 0) as [Hr | Hr].
    + destruct (Hfin (c1 + q - 1) (c1 + q)) as (c & ? & ? & ? & ?).
      { apply (blend_steps c1 D i L D
                 (Z.max 0 (q * 2 ^ 45 - 1)) ((q + 1) * 2 ^ 45 - 1) _ _ false);
          try assumption; try (unfold D in *; lia);
          try (apply Z.ltb_ge; lia); try discriminate; fold T; pows;
          try intros _; unfold D in *; lia. }
      exists c. rewrite Hexact.
      do 3 (split; [assumption | ]). split; [lia | ].
      intros Hne. contradiction.
    + specialize (Hrn Hr).
      destruct (Hfin (c1 + q) (c1 + q)) as (c & ? & ? & ? & ?).
      { apply (blend_steps c1 D i L D
                 (q * 2 ^ 45) ((q + 1) * 2 ^ 45 - 1) _ _ false);
          try assumption; try (unfold D in *; lia);
          try (apply Z.ltb_ge; lia); try discriminate; fold T; pows;
          try intros _; unfold D in *; lia. }
      exists c. rewrite Hexact.
      do 3 (split; [assumption | ]). split; [lia | ].
      intros _. lia.
Qed.

Lemma channel_near (c1 c2 i L c : Z) :
  0 <= c1 <= 255 -> 0 <= c2 <= 255 -> 0 <= i < L -> L <= 2 ^ 44 ->
  interpolate_channel c1 c2 i L = Ok c ->
  near_exact c1 c2 i L c /\ Z.min c1 c2 <= c <= Z.max c1 c2.
Proof.
  intros H1 H2 Hi HL Hc.
  destruct (blend_channel_exact c1 c2 i L H1 H2 Hi HL)
    as (x & c' & Hx & _ & Hc' & Hb & Hne).
  destruct (channel_spec c1 c2 i L x H1 H2 Hi Hx) as (c'' & _ & Hc'' & Hw & _).
  rewrite Hc in Hc', Hc''. injection Hc' as <-. injection Hc'' as <-.
  split; [split; assumption | exact Hw].
Qed.

Lemma interpolated_near (color1 color2 : Color) (i L : Z) (rgb : Z * Z * Z) :
  valid_color color1 = true -> valid_color color2 = true ->
  0 <= i < L -> L <= 2 ^ 44 ->
  interpolated (rgb_tuple color1) (rgb_tuple color2) i L rgb ->
  near_exact_rgb (rgb_tuple color1) (rgb_tuple color2) i L rgb.
Proof.
  intros V1 V2 Hi HL.
  destruct (rgb_tuple color1) as [[r1 g1] b1] eqn:E1.
  destruct (rgb_tuple color2) as [[r2 g2] b2] eqn:E2.
  destruct (valid_color_bounds color1 r1 g1 b1 V1 E1) as (? & ? & ?).
  destruct (valid_color_bounds color2 r2 g2 b2 V2 E2) as (? & ? & ?).
  destruct rgb as [[r g] b]. cbn [interpolated near_exact_rgb].
  intros (Hr & Hg & Hb).
  split; [ | split]; eapply channel_near; eauto.
Qed.

(** Between two characters of a chunk no channel moves backwards. *)
Lemma channel_mono (c1 c2 i j L a b : Z) :
  0 <= c1 <= 255 -> 0 <= c2 <= 255 -> 0 <= i <= j -> j < L -> L <= 2 ^ 44 ->
  interpolate_channel c1 c2 i L = Ok a ->
  interpolate_channel c1 c2 j L = Ok b ->
  (c1 <= c2 -> a <= b) /\ (c2 <= c1 -> b <= a).
Proof.
  intros H1 H2 Hij HjL HL Hia Hjb.
  destruct (Z.eq_dec i j) as [<- | Hne].
  { rewrite Hia in Hjb. injection Hjb as <-. lia. }
  destruct (channel_near c1 c2 i L a H1 H2 ltac:(lia) HL Hia)
    as [[Ha Hna] Hwa].
  destruct (channel_near c1 c2 j L b H1 H2 ltac:(lia) HL Hjb)
    as [[Hb Hnb] Hwb].
  assert (Hex : forall k, exact_channel c1 c2 k L = c1 + (c2 - c1) * k / L).
  { intros k. unfold exact_channel. rewrite Z.div_add_l by lia. reflexivity. }
  rewrite Hex in Ha, Hna, Hb, Hnb.
  set (d := c2 - c1) in *.
  pose proof (Z.div_mod (d * i) L ltac:(lia)) as Hdi.
  pose proof (Z.mod_pos_bound (d * i) L ltac:(lia)) as Hmi.
  pose proof (Z.div_mod (d * j) L ltac:(lia)) as Hdj.
  pose proof (Z.mod_pos_bound (d * j) L ltac:(lia)) as Hmj.
  assert (Hlt : i < j) by lia.
  split; intros Hc.
  - assert (Hd : 0 <= d) by (unfold d; lia).
    destruct (Z.eq_dec d 0) as [Hd0 | Hd0]; [unfold d in Hd0; lia | ].
    destruct (Z.eq_dec ((d * j) mod L) 0) as [Hz | Hnz].
    + assert (d * i / L < d * j / L); [ | lia].
      apply Z.div_lt_upper_bound; [lia | ]. nia.
    + rewrite (Hnb Hnz).
      assert (d * i / L <= d * j / L); [ | lia].
      apply Z.div_le_mono; [lia | nia].
  - assert (Hd : d <= 0) by (unfold d; lia).
    destruct (Z.eq_dec d 0) as [Hd0 | Hd0]; [unfold d in Hd0; lia | ].
    destruct (Z.eq_dec ((d * i) mod L) 0) as [Hz | Hnz].
    + assert (d * j / L < d * i / L); [ | lia].
      apply Z.div_lt_upper_bound; [lia | ]. nia.
    + rewrite (Hna Hnz).
      assert (d * j / L <= d * i / L); [ | lia].
      apply Z.div_le_mono; [lia | nia].
Qed.

Lemma interpolated_toward (color1 color2 : Color) (i j L : Z)
  (x y : Z * Z * Z) :
  valid_color color1 = true -> valid_color color2 = true ->
  0 <= i <= j -> j < L -> L <= 2 ^ 44 ->
  interpolated (rgb_tuple color1) (rgb_tuple color2) i L x ->
  interpolated (rgb_tuple color1) (rgb_tuple color2) j L y ->
  toward (rgb_tuple color1) (rgb_tuple color2) x y.
Proof.
  intros V1 V2 Hij HjL HL.
  destruct (rgb_tuple color1) as [[r1 g1] b1] eqn:E1.
  destruct (rgb_tuple color2) as [[r2 g2] b2] eqn:E2.
  destruct (valid_color_bounds color1 r1 g1 b1 V1 E1) as (? & ? & ?).
  destruct (valid_color_bounds color2 r2 g2 b2 V2 E2) as (? & ? & ?).
  destruct x as [[xr xg] xb], y as [[yr yg] yb].
  cbn [interpolated toward].
  intros (Hxr & Hxg & Hxb) (Hyr & Hyg & Hyb).
  split; [ | split].
  - apply (channel_mono r1 r2 i j L xr yr); assumption.
  - apply (channel_mono g1 g2 i j L xg yg); assumption.
  - apply (channel_mono b1 b2 i j L xb yb); assumption.
Qed.

Lemma section_length_le (N k i : Z) :
  0 <= N -> 1 <= k -> 0 <= i ->
  Z.of_nat (List.length (section N k i)) <= N.
Proof.
  intros HN Hk Hi. rewrite section_length by lia.
  pose proof (Z.div_mod N k ltac:(lia)).
  pose proof (Z.mod_pos_bound N k ltac:(lia)).
  assert (0 <= N / k) by (apply Z.div_pos; lia).
  destruct (Z.ltb_spec i (N mod k)); [ | nia].
  destruct (Z.eq_dec k 1) as [-> | ]; [lia | nia].
Qed.

(** ** Construction *)

Section Construction.

Variable named_rgb : string -> Z * Z * Z.

Lemma init_state_inv (text : Gradient.TextArg) (colors : option (list Color))
  (rainbow invert : bool) (hues : Z) (color_sample : bool) (style : Gradient.StyleArg)
  (spans : option (list Span)) (start_index : Z) (self : Gradient.Self) :
  Gradient.init_state named_rgb text colors rainbow invert hues color_sample
    style spans start_index = Ok self ->
  (exists s, text = Gradient.Str s /\
             Gradient._length self =
               Z.of_nat (String.length (strip_control_codes s))) /\
  1 < Z.of_nat (List.length (Gradient._colors self)) < Gradient._length self /\
  Gradient.hues self = (if rainbow then 10 else hues) /\
  Gradient.set_style style = Ok (Gradient._style self) /\
  (forall cs, colors = Some cs -> Gradient._colors self = cs) /\
  (colors = None ->
   exists palette,
     ColorList.color_list named_rgb start_index invert = Ok palette /\
     Gradient._colors self = slice palette 0 (Gradient.hues self)).
Proof.
  unfold Gradient.init_state. intros H.
  destruct text as [s | plain sp]; cbn [bind] in H; [ | discriminate].
  apply bind_Ok_inv in H as (parsed & Hstyle & H).
  rewrite Hstyle in H; cbn [bind] in H.
  apply bind_Ok_inv in H as (cols & Hcols & H).
  destruct (1 <? Z.of_nat (List.length cols)) eqn:E1; cbn [negb] in H;
    [ | discriminate].
  destruct (Z.of_nat (List.length cols) <? _) eqn:E2; cbn [negb] in H;
    [ | discriminate].
  injection H as <-. cbn [Gradient._length Gradient._colors Gradient.hues
                            Gradient._style].
  apply Z.ltb_lt in E1, E2.
  repeat split; try assumption; eauto.
  - intros cs ->. destruct cs as [ | c cs]; [discriminate | congruence].
  - intros ->. apply bind_Ok_inv in Hcols as (palette & Hp & [= <-]). eauto.
Qed.

(** What a successful construction went through. *)
Lemma init_inv (text : Gradient.TextArg) (colors : option (list Color))
  (rainbow invert : bool) (hues : Z) (color_sample : bool) (style : Gradient.StyleArg)
  (spans : option (list Span)) (start_index : Z) (g : Gradient.Self) :
  Gradient.__init__ named_rgb text colors rainbow invert hues color_sample
    style spans start_index = Ok g ->
  exists self pre,
    Gradient.init_state named_rgb text colors rainbow invert hues
      color_sample style spans start_index = Ok self /\
    2 <= Gradient.hues self /\
    Gradient._substring_indexes self =
      Ok (map (section (Gradient._length self) (Gradient.hues self - 1))
              (range (Gradient.hues self - 1))) /\
    Gradient._substring_spans self
      (map (section (Gradient._length self) (Gradient.hues self - 1))
           (range (Gradient.hues self - 1))) = Ok pre /\
    Gradient.simplify_spans pre = Ok (Gradient._spans g) /\
    Gradient._text g = Gradient._text self /\
    Gradient._length g = Gradient._length self /\
    Gradient.hues g = Gradient.hues self /\
    Gradient._style g = Gradient._style self /\
    Gradient._colors g = Gradient._colors self.
Proof.
  unfold Gradient.__init__. intros H.
  apply bind_Ok_inv in H as (self & Hself & H).
  apply bind_Ok_inv in H as (indexes & Hidx & H).
  apply bind_Ok_inv in H as (pre & Hpre & H).
  apply bind_Ok_inv in H as (simplified & Hsimp & [= <-]).
  destruct (init_state_inv _ _ _ _ _ _ _ _ _ _ Hself)
    as ((s & _ & Hlen) & _).
  assert (HN : 0 <= Gradient._length self) by lia.
  assert (Hh : 2 <= Gradient.hues self).
  { unfold Gradient._substring_indexes, Numpy.array_split in Hidx.
    destruct (Z.leb_spec (Gradient.hues self - 1) 0); [discriminate | lia]. }
  assert (Hidx' := Hidx). unfold Gradient._substring_indexes in Hidx'.
  rewrite array_split_arange in Hidx' by lia. injection Hidx' as <-.
  exists self, pre. cbn. repeat split; assumption.
Qed.

(** A constructed Gradient holds the style that the setter parsed. *)
Lemma init_style (text : Gradient.TextArg) (colors : option (list Color))
  (rainbow invert : bool) (hues : Z) (color_sample : bool)
  (style : Gradient.StyleArg) (spans : option (list Span)) (start_index : Z)
  (g : Gradient.Self) :
  Gradient.__init__ named_rgb text colors rainbow invert hues color_sample
    style spans start_index = Ok g ->
  Gradient.set_style style = Ok (Gradient._style g).
Proof.
  intros H.
  destruct (init_inv _ _ _ _ _ _ _ _ _ _ H)
    as (self & pre & Hself & _ & _ & _ & _ & _ & _ & _ & HS & _).
  destruct (init_state_inv _ _ _ _ _ _ _ _ _ _ Hself)
    as (_ & _ & _ & Hstyle & _).
  rewrite HS. exact Hstyle.
Qed.

(** The spans handed to [simplify_spans] are one unit span per
    character of the text, in order. *)
Lemma pre_spans_unit (self : Gradient.Self) (pre : list Span) :
  0 <= Gradient._length self -> 2 <= Gradient.hues self ->
  Gradient._substring_spans self
    (map (section (Gradient._length self) (Gradient.hues self - 1))
         (range (Gradient.hues self - 1))) = Ok pre ->
  unit_spans (range (Gradient._length self)) pre.
Proof.
  intros HN Hh H.
  rewrite substring_spans_parts in H
    by (rewrite length_map, range_length; lia).
  apply bind_Ok_inv in H as (parts & Hparts & [= <-]).
  apply parts_unit in Hparts.
  rewrite enumerate_snd, concat_all_sections in Hparts by lia.
  exact Hparts.
Qed.

End Construction.

(** ** The claims *)

(** C1. For every constructed Gradient (which has a text of length N
    and at least 2 and fewer than N colours) the compressed span list
    tiles [[0, N)] contiguously, without gap or overlap, and no two
    neighbouring spans of it have equal style. *)
Theorem C1_compressed_spans_tile
  (named_rgb : string -> Z * Z * Z) (text : Gradient.TextArg)
  (colors : option (list Color)) (rainbow invert : bool) (hues : Z)
  (color_sample : bool) (style : Gradient.StyleArg) (spans : option (list Span))
  (start_index : Z) (g : Gradient.Self) :
  Gradient.__init__ named_rgb text colors rainbow invert hues color_sample
    style spans start_index = Ok g ->
  2 <= Z.of_nat (List.length (Gradient._colors g)) < Gradient._length g /\
  tiles 0 (Gradient._length g) (Gradient._spans g) /\
  no_adjacent_equal (Gradient._spans g).
Proof.
  intros H.
  destruct (init_inv _ _ _ _ _ _ _ _ _ _ _ H)
    as (self & pre & Hself & Hh & _ & Hpre & Hsimp & _ & HL & _ & _ & HC).
  destruct (init_state_inv _ _ _ _ _ _ _ _ _ _ _ Hself)
    as (_ & Hcount & _).
  rewrite HL, HC. split; [lia | ].
  apply pre_spans_unit in Hpre; [ | lia | assumption].
  apply unit_spans_range in Hpre as (Hlen & Hu & Hs).
  destruct pre as [ | s rest]; [cbn in Hlen; lia | ].
  rewrite simplify_spans_cons in Hsimp. injection Hsimp as <-.
  split.
  - apply compress_tiles.
    replace (Gradient._length self)
      with (0 + Z.of_nat (List.length (s :: rest))) by lia.
    apply tiles_of_units; assumption.
  - apply compress_no_adjacent_equal.
Qed.

(** C4. On a non-empty span list [simplify_spans] is idempotent, and a
    list without two equal neighbouring styles is returned as it is. *)
Theorem C4_simplify_idempotent (spans : list Span) :
  spans <> [] ->
  exists out,
    Gradient.simplify_spans spans = Ok out /\
    Gradient.simplify_spans out = Ok out /\
    (no_adjacent_equal spans -> out = spans).
Proof.
  intros Hne. destruct spans as [ | s rest]; [contradiction | ].
  exists (compress s rest). split; [apply simplify_spans_cons | ].
  split.
  - assert (Hn := compress_no_adjacent_equal s rest).
    destruct (compress_head s rest) as (e & tl & Hc). rewrite Hc in *.
    rewrite simplify_spans_cons. f_equal. apply compress_fixed. exact Hn.
  - apply compress_fixed.
Qed.

Lemma section_nth_error (N k i : Z) (n : nat) :
  0 <= N -> 1 <= k -> 0 <= i ->
  (n < List.length (section N k i))%nat ->
  nth_error (section N k i) n = Some (div_point N k i + Z.of_nat n).
Proof.
  intros HN Hk Hi Hn. unfold section in *.
  rewrite length_map, range_length in Hn.
  rewrite nth_error_map, range_nth by assumption. reflexivity.
Qed.

Lemma sections_nth_error (N k : Z) (n : nat) :
  (n < Z.to_nat k)%nat ->
  nth_error (map (section N k) (range k)) n = Some (section N k (Z.of_nat n)).
Proof.
  intros Hn. rewrite nth_error_map, range_nth by assumption. reflexivity.
Qed.

Lemma sections_nth_inv (N k : Z) (n : nat) (chunk : list Z) :
  nth_error (map (section N k) (range k)) n = Some chunk ->
  (n < Z.to_nat k)%nat /\ chunk = section N k (Z.of_nat n).
Proof.
  intros H.
  assert (Hn : (n < Z.to_nat k)%nat).
  { assert (Hs : nth_error (map (section N k) (range k)) n <> None) by congruence.
    apply nth_error_Some in Hs. rewrite length_map, range_length in Hs. exact Hs. }
  rewrite sections_nth_error in H by assumption. split; congruence.
Qed.

(** C3. For [N >= segments >= 1] the partitioner splits [[0, N)] into
    exactly [segments] chunks that follow each other in increasing
    order, whose sizes differ by at most 1 with the larger chunks first;
    the spans of chunk [i] are computed from the anchor pair
    [(colors[i], colors[i + 1])]. *)
Theorem C3_balanced_partition (N segments : Z) :
  1 <= segments <= N ->
  exists chunks,
    Numpy.array_split (Numpy.arange N) segments = Ok chunks /\
    Z.of_nat (List.length chunks) = segments /\
    List.concat chunks = range N /\
    (forall i chunk, nth_error chunks i = Some chunk ->
       exists first,
         chunk = map (fun j => first + j)
                     (range (Z.of_nat (List.length chunk))) /\
         1 <= Z.of_nat (List.length chunk)) /\
    (forall i j ci cj,
       nth_error chunks i = Some ci -> nth_error chunks j = Some cj ->
       (i <= j)%nat ->
       (List.length cj <= List.length ci <= List.length cj + 1)%nat) /\
    (forall self,
       Gradient._length self = N -> Gradient.hues self = segments + 1 ->
       Gradient._substring_indexes self = Ok chunks /\
       Gradient._substring_spans self chunks =
         (parts <- map_result
                     (chunk_spans (Gradient._style self) (Gradient._colors self))
                     (enumerate chunks) ;;
          Ok (List.concat parts)) /\
       forall i chunk color1 color2,
         nth_error chunks i = Some chunk ->
         nth_error (Gradient._colors self) i = Some color1 ->
         nth_error (Gradient._colors self) (S i) = Some color2 ->
         nth_error (enumerate chunks) i = Some (Z.of_nat i, chunk) /\
         chunk_spans (Gradient._style self) (Gradient._colors self)
           (Z.of_nat i, chunk) =
         map_result
           (substring_span (Gradient._style self) (vars_of color1 color2) chunk)
           (range (Z.of_nat (List.length chunk)))).
Proof.
  intros [Hs HN].
  exists (map (section N segments) (range segments)).
  assert (Hq : 1 <= N / segments).
  { apply Z.div_le_lower_bound; lia. }
  assert (Hr := Z.mod_pos_bound N segments ltac:(lia)).
  split; [apply array_split_arange; lia | ].
  split; [rewrite length_map, range_length; lia | ].
  split; [apply concat_all_sections; lia | ].
  split; [ | split].
  - intros i chunk Hi. apply sections_nth_inv in Hi as [Hi ->].
    exists (div_point N segments (Z.of_nat i)).
    assert (Hl := section_length N segments (Z.of_nat i)
                    ltac:(lia) ltac:(lia) ltac:(lia)).
    split.
    + unfold section at 1. rewrite Hl. f_equal. f_equal.
      unfold div_point. destruct (Z.ltb_spec (Z.of_nat i) (N mod segments)); lia.
    + rewrite Hl. destruct (Z.of_nat i <? N mod segments); lia.
  - intros i j ci cj Hi Hj Hij.
    apply sections_nth_inv in Hi as [Hi ->].
    apply sections_nth_inv in Hj as [Hj ->].
    assert (Hli := section_length N segments (Z.of_nat i)
                     ltac:(lia) ltac:(lia) ltac:(lia)).
    assert (Hlj := section_length N segments (Z.of_nat j)
                     ltac:(lia) ltac:(lia) ltac:(lia)).
    destruct (Z.ltb_spec (Z.of_nat i) (N mod segments)),
      (Z.ltb_spec (Z.of_nat j) (N mod segments)); lia.
  - intros self HL Hh.
    split; [ | split].
    + unfold Gradient._substring_indexes. rewrite HL, Hh.
      replace (segments + 1 - 1) with segments by lia.
      apply array_split_arange; lia.
    + apply substring_spans_parts. rewrite length_map, range_length. lia.
    + intros i chunk color1 color2 Hi H1 H2.
      split; [apply enumerate_nth; exact Hi | ].
      unfold chunk_spans. rewrite (pair_vars_nth _ _ _ _ H1 H2). reflexivity.
Qed.

Lemma concat_nth_error {A : Type} (parts : list (list A)) (k : nat)
  (part : list A) (i : nat) :
  nth_error parts k = Some part -> (i < List.length part)%nat ->
  nth_error (List.concat parts)
            (List.length (List.concat (firstn k parts)) + i) =
  nth_error part i.
Proof.
  revert k; induction parts as [ | p parts IH]; intros k Hk Hi.
  - destruct k; discriminate.
  - destruct k as [ | k]; cbn [nth_error firstn List.concat] in *.
    + injection Hk as ->. cbn [List.length Nat.add].
      apply nth_error_app1. exact Hi.
    + rewrite length_app, <- Nat.add_assoc.
      rewrite nth_error_app2 by lia.
      replace (List.length p + (List.length (List.concat (firstn k parts)) + i)
               - List.length p)%nat
        with (List.length (List.concat (firstn k parts)) + i)%nat by lia.
      apply IH; assumption.
Qed.

Lemma concat_firstn_length {A B : Type} (xs : list (list A))
  (ys : list (list B)) (k : nat) :
  Forall2 (fun x y => List.length x = List.length y) xs ys ->
  List.length (List.concat (firstn k xs)) =
  List.length (List.concat (firstn k ys)).
Proof.
  intros H. revert k; induction H as [ | x y xs ys Hxy _ IH]; intros k.
  - rewrite !firstn_nil. reflexivity.
  - destruct k as [ | k]; cbn [firstn List.concat]; [reflexivity | ].
    rewrite !length_app, Hxy, IH. reflexivity.
Qed.

Lemma forallb_nth_error {A : Type} (p : A -> bool) (xs : list A) (n : nat)
  (x : A) :
  forallb p xs = true -> nth_error xs n = Some x -> p x = true.
Proof.
  intros H Hn. apply (proj1 (forallb_forall p xs) H).
  eapply nth_error_In. exact Hn.
Qed.

(** The span of the character at local index [i] of chunk [k]. *)
Lemma substring_spans_char (self : Gradient.Self) (indexes : list (list Z))
  (spans : list Span) (k : nat) (chunk : list Z) (i : nat) (idx : Z) :
  forallb valid_color (Gradient._colors self) = true ->
  Z.of_nat (List.length indexes) <= Gradient.hues self ->
  Gradient._substring_spans self indexes = Ok spans ->
  nth_error indexes k = Some chunk -> nth_error chunk i = Some idx ->
  exists color1 color2 rgb cs,
    nth_error (Gradient._colors self) k = Some color1 /\
    nth_error (Gradient._colors self) (S k) = Some color2 /\
    nth_error spans (List.length (List.concat (firstn k indexes)) + i) =
      Some (mkSpan idx (idx + 1) (Style_add cs (Gradient._style self))) /\
    char_style color1 color2 (Z.of_nat i) (Z.of_nat (List.length chunk)) rgb cs.
Proof.
  intros Hvalid Hlen H Hk Hi.
  rewrite substring_spans_parts in H by assumption.
  apply bind_Ok_inv in H as (parts & Hparts & [= <-]).
  destruct (map_result_nth _ _ _ k _ Hparts (enumerate_nth _ _ _ Hk))
    as (part & Hpart & Hchunk).
  assert (Hlens : Forall2 (fun x y => List.length x = List.length y)
                    indexes parts).
  { apply map_result_Forall2 in Hparts.
    rewrite <- (enumerate_snd indexes) at 1.
    clear - Hparts. induction Hparts as [ | [j c] p es ps Hp _ IH];
      cbn [map]; constructor; [ | exact IH].
    apply chunk_spans_unit in Hp as [Hp _]. cbn [snd].
    rewrite <- Hp. apply length_map. }
  unfold chunk_spans in Hchunk.
  apply bind_Ok_inv in Hchunk as (vars & Hvars & Hmap).
  apply pair_vars_inv in Hvars as (color1 & color2 & H1 & H2 & ->); [ | lia].
  rewrite Nat2Z.id in H1, H2.
  assert (V1 := forallb_nth_error _ _ _ _ Hvalid H1).
  assert (V2 := forallb_nth_error _ _ _ _ Hvalid H2).
  destruct (substring_span_spec (Gradient._style self) color1 color2 chunk
              i idx V1 V2 Hi) as (rgb & cs & Hspan & Hcs).
  assert (Hil : (i < List.length chunk)%nat)
    by (apply nth_error_Some; congruence).
  destruct (map_result_nth _ _ _ i (Z.of_nat i) Hmap) as (sp & Hsp & Hs).
  { apply range_nth. lia. }
  rewrite Hspan in Hs. injection Hs as <-.
  exists color1, color2, rgb, cs.
  split; [exact H1 | split; [exact H2 | split; [ | exact Hcs]]].
  rewrite (concat_firstn_length indexes parts k Hlens).
  rewrite (concat_nth_error parts k part i Hpart); [exact Hsp | ].
  apply nth_error_Some. congruence.
Qed.

(** The span [_calculate_span] computes for index [j]. *)
Lemma calculate_span_spec (self : GradientSubstring.Self) (j : Z) :
  valid_color (GradientSubstring.color_start self) = true ->
  valid_color (GradientSubstring.color_end self) = true ->
  0 <= j < GradientSubstring._length self ->
  exists rgb cs,
    GradientSubstring._calculate_span self j =
      Ok (mkSpan (GradientSubstring.start_index self + j)
                 (GradientSubstring.start_index self + j + 1)
                 (Style_add (GradientSubstring.style self) cs)) /\
    char_style (GradientSubstring.color_start self)
      (GradientSubstring.color_end self) j (GradientSubstring._length self)
      rgb cs.
Proof.
  intros V1 V2 Hj.
  destruct (int_truediv_blend _ _ Hj) as (x & Hx & _).
  destruct (blend_color_spec _ _ _ _ x V1 V2 Hj Hx)
    as (rgb & token & Hbc & Htok & Hlen & Hsty & Hint & Hwith & Hzero).
  exists rgb, (color_style rgb). split.
  - unfold GradientSubstring._calculate_span. rewrite Hx. cbn [bind].
    destruct (rgb_tuple (GradientSubstring.color_start self)) as [[r1 g1] b1].
    destruct (rgb_tuple (GradientSubstring.color_end self)) as [[r2 g2] b2].
    rewrite Hbc. cbn [bind]. rewrite Hsty. reflexivity.
  - unfold char_style. repeat split; try assumption.
    exists token. repeat split; assumption.
Qed.

Lemma color_resolved (rgb : Z * Z * Z) (base : Style) :
  color (Style_add (color_style rgb) base) = Some (resolved_color base rgb).
Proof.
  destruct rgb as [[r g] b]. unfold resolved_color. cbn.
  destruct (color base); reflexivity.
Qed.

Lemma color_on_top (base : Style) (rgb : Z * Z * Z) :
  color (Style_add base (color_style rgb)) = Some (true_color rgb).
Proof. destruct rgb as [[r g] b]. reflexivity. Qed.

Lemma char_style_exact (color1 color2 : Color) (i L : Z) (rgb : Z * Z * Z)
  (cs : Style) :
  valid_color color1 = true -> valid_color color2 = true ->
  0 <= i < L -> L <= 2 ^ 44 ->
  char_style color1 color2 i L rgb cs ->
  cs = color_style rgb /\ exact_char color1 color2 i L rgb.
Proof.
  intros V1 V2 Hi HL (Hint & Hwith & (token & Htok & Hlen & Hparse) & Hcs & Hz).
  split; [exact Hcs | ].
  split; [apply interpolated_near; assumption | ].
  split; [exact Hwith | ]. split; [ | exact Hz].
  destruct rgb as [[r g] b]. subst token. rewrite <- Hcs. auto.
Qed.

(** C2, as the code has it.  In a chunk of length [L <= 2 ^ 44] with
    the colour pair [(c1, c2)] of 8-bit channels and base style [s],
    the character at local index [i] gets the colour whose channels
    are [int(c1 + (c2 - c1) * (i / L))] computed in doubles.  Each
    channel is the exact [floor(c1 + (c2 - c1) * i / L)] or one below
    it, and the exact floor whenever [(c2 - c1) * i / L] is not an
    integer; it lies between [c1] and [c2].  The colour is written as
    a token of two hexadecimal digits per channel and composed with
    [s]: [_substring_spans] adds [s] on top of it, so a colour of [s]
    is the one that shows, and [GradientSubstring._calculate_span] adds
    it on top of [s].  At index 0 the channels are exactly those of
    [c1]. *)
Theorem C2_interpolated_character
  (self : Gradient.Self) (indexes : list (list Z)) (spans : list Span)
  (k : nat) (chunk : list Z) (i : nat) (idx : Z)
  (sub : GradientSubstring.Self) (j : Z) :
  forallb valid_color (Gradient._colors self) = true ->
  Z.of_nat (List.length indexes) <= Gradient.hues self ->
  Gradient._substring_spans self indexes = Ok spans ->
  nth_error indexes k = Some chunk -> nth_error chunk i = Some idx ->
  Z.of_nat (List.length chunk) <= 2 ^ 44 ->
  valid_color (GradientSubstring.color_start sub) = true ->
  valid_color (GradientSubstring.color_end sub) = true ->
  0 <= j < GradientSubstring._length sub ->
  GradientSubstring._length sub <= 2 ^ 44 ->
  (exists color1 color2 rgb,
     nth_error (Gradient._colors self) k = Some color1 /\
     nth_error (Gradient._colors self) (S k) = Some color2 /\
     nth_error spans (List.length (List.concat (firstn k indexes)) + i) =
       Some (mkSpan idx (idx + 1)
               (Style_add (color_style rgb) (Gradient._style self))) /\
     color (Style_add (color_style rgb) (Gradient._style self)) =
       Some (resolved_color (Gradient._style self) rgb) /\
     exact_char color1 color2 (Z.of_nat i) (Z.of_nat (List.length chunk))
       rgb) /\
  (exists rgb,
     GradientSubstring._calculate_span sub j =
       Ok (mkSpan (GradientSubstring.start_index sub + j)
                  (GradientSubstring.start_index sub + j + 1)
                  (Style_add (GradientSubstring.style sub)
                     (color_style rgb))) /\
     color (Style_add (GradientSubstring.style sub) (color_style rgb)) =
       Some (true_color rgb) /\
     exact_char (GradientSubstring.color_start sub)
       (GradientSubstring.color_end sub) j (GradientSubstring._length sub)
       rgb).
Proof.
  intros Hvalid Hlen H Hk Hi HL V1 V2 Hj HLs. split.
  - destruct (substring_spans_char self indexes spans k chunk i idx
                Hvalid Hlen H Hk Hi)
      as (color1 & color2 & rgb & cs & H1 & H2 & Hsp & Hcs).
    assert (Hi' : (i < List.length chunk)%nat)
      by (apply nth_error_Some; congruence).
    assert (Hb : 0 <= Z.of_nat i < Z.of_nat (List.length chunk)) by lia.
    destruct (char_style_exact color1 color2 _ _ rgb cs
                (forallb_nth_error _ _ _ _ Hvalid H1)
                (forallb_nth_error _ _ _ _ Hvalid H2) Hb HL Hcs)
      as [-> Hex].
    exists color1, color2, rgb.
    split; [exact H1 | ]. split; [exact H2 | ]. split; [exact Hsp | ].
    split; [apply color_resolved | exact Hex].
  - destruct (calculate_span_spec sub j V1 V2 Hj) as (rgb & cs & Hsp & Hcs).
    destruct (char_style_exact _ _ _ _ rgb cs V1 V2 Hj HLs Hcs) as [-> Hex].
    exists rgb. split; [exact Hsp | ].
    split; [apply color_on_top | exact Hex].
Qed.

Lemma substring_spans_fields (self1 self2 : Gradient.Self)
  (indexes : list (list Z)) :
  Gradient.hues self1 = Gradient.hues self2 ->
  Gradient._colors self1 = Gradient._colors self2 ->
  Gradient._style self1 = Gradient._style self2 ->
  Gradient._substring_spans self1 indexes =
  Gradient._substring_spans self2 indexes.
Proof.
  destruct self1, self2. cbn. intros -> -> ->. reflexivity.
Qed.

Lemma substring_indexes_fields (self1 self2 : Gradient.Self) :
  Gradient.hues self1 = Gradient.hues self2 ->
  Gradient._length self1 = Gradient._length self2 ->
  Gradient._substring_indexes self1 = Gradient._substring_indexes self2.
Proof.
  destruct self1, self2. cbn. intros -> ->. reflexivity.
Qed.

Lemma getitem_firstn {A : Type} (xs : list A) (n : nat) (i : Z) :
  0 <= i -> (Z.to_nat i < n)%nat -> getitem (firstn n xs) i = getitem xs i.
Proof.
  intros Hi Hn. unfold getitem.
  replace (i <? 0) with false by (symmetry; apply Z.ltb_ge; lia).
  rewrite nth_error_firstn.
  replace (Z.to_nat i <? n)%nat with true
    by (symmetry; apply Nat.ltb_lt; assumption).
  reflexivity.
Qed.

Lemma pair_vars_firstn (colors : list Color) (n : nat) (k : Z) :
  0 <= k -> (Z.to_nat k + 1 < n)%nat ->
  Gradient.pair_vars (firstn n colors) k = Gradient.pair_vars colors k.
Proof.
  intros Hk Hn. unfold Gradient.pair_vars.
  rewrite !getitem_firstn by lia. reflexivity.
Qed.

Lemma pair_vars_short (colors : list Color) (k : Z) :
  0 <= k -> Z.of_nat (List.length colors) <= k + 1 ->
  exists e, Gradient.pair_vars colors k = Raise e.
Proof.
  intros Hk Hlen. unfold Gradient.pair_vars.
  destruct (getitem colors k) as [color1 | e]; cbn [bind]; [ | eauto].
  destruct (rgb_tuple color1) as [[r1 g1] b1].
  rewrite getitem_short by lia. cbn. eauto.
Qed.

(** Synthesis reads the first [hues] anchor colours and no other. *)
Lemma substring_spans_firstn (self : Gradient.Self)
  (indexes : list (list Z)) :
  2 <= Gradient.hues self ->
  Z.of_nat (List.length indexes) = Gradient.hues self - 1 ->
  Gradient._substring_spans
    (with_colors self
       (firstn (Z.to_nat (Gradient.hues self)) (Gradient._colors self)))
    indexes =
  Gradient._substring_spans self indexes.
Proof.
  intros Hh Hlen.
  rewrite !substring_spans_parts by (cbn [with_colors Gradient.hues]; lia).
  apply (f_equal (fun m => bind m _)).
  apply map_result_ext_in. intros [k chunk] Hin.
  apply in_combine_l, range_In in Hin.
  unfold chunk_spans. cbn [with_colors Gradient._colors Gradient._style].
  rewrite pair_vars_firstn by lia. reflexivity.
Qed.

(** With fewer than [hues] colours synthesis fails. *)
Lemma substring_spans_short (self : Gradient.Self)
  (indexes : list (list Z)) (colors : list Color) :
  2 <= Gradient.hues self ->
  Z.of_nat (List.length indexes) = Gradient.hues self - 1 ->
  Z.of_nat (List.length colors) < Gradient.hues self ->
  exists e,
    Gradient._substring_spans (with_colors self colors) indexes = Raise e.
Proof.
  intros Hh Hlen Hshort.
  rewrite substring_spans_parts by (cbn [with_colors Gradient.hues]; lia).
  cbn [with_colors Gradient._colors Gradient._style].
  destruct (nth_error indexes (Z.to_nat (Gradient.hues self - 2)))
    as [chunk | ] eqn:Hchunk.
  2:{ apply nth_error_None in Hchunk. lia. }
  apply enumerate_nth in Hchunk. apply nth_error_In in Hchunk.
  rewrite Z2Nat.id in Hchunk by lia.
  destruct (pair_vars_short colors (Gradient.hues self - 2)) as [e He];
    [lia | lia | ].
  destruct (map_result_Raise
              (chunk_spans (Gradient._style self) colors) _ _ e Hchunk)
    as [e' ->].
  - unfold chunk_spans. rewrite He. reflexivity.
  - cbn. eauto.
Qed.

Lemma slice_prefix_length {A : Type} (xs : list A) (n : Z) :
  0 <= n -> Z.of_nat (List.length (slice xs 0 n)) <= n.
Proof.
  intros Hn. unfold slice.
  replace (n <? 0) with false by (symmetry; apply Z.ltb_ge; lia).
  cbn [Z.ltb Z.compare]. rewrite length_firstn. lia.
Qed.

(** C6. For every constructed Gradient span synthesis uses exactly
    [hues] anchor colours, the first [hues] of the stored list: it
    gives the same spans with only these and fails with fewer; the
    partition has [hues - 1] segments.  This holds however the colours
    were supplied; with the default palette (and so with [rainbow],
    which sets [hues] to 10) the stored list has exactly [hues]
    colours. *)
Theorem C6_hues_anchor_colors
  (named_rgb : string -> Z * Z * Z) (text : Gradient.TextArg)
  (colors : option (list Color)) (rainbow invert : bool) (hues : Z)
  (color_sample : bool) (style : Gradient.StyleArg) (spans : option (list Span))
  (start_index : Z) (g : Gradient.Self) :
  Gradient.__init__ named_rgb text colors rainbow invert hues color_sample
    style spans start_index = Ok g ->
  2 <= Gradient.hues g /\
  Gradient.hues g = (if rainbow then 10 else hues) /\
  exists indexes pre,
    Gradient._substring_indexes g = Ok indexes /\
    Z.of_nat (List.length indexes) = Gradient.hues g - 1 /\
    Gradient._substring_spans g indexes = Ok pre /\
    Gradient.simplify_spans pre = Ok (Gradient._spans g) /\
    Gradient.hues g <= Z.of_nat (List.length (Gradient._colors g)) /\
    (colors = None ->
     Z.of_nat (List.length (Gradient._colors g)) = Gradient.hues g) /\
    Z.of_nat (List.length (firstn (Z.to_nat (Gradient.hues g))
                             (Gradient._colors g))) = Gradient.hues g /\
    Gradient._substring_spans
      (with_colors g (firstn (Z.to_nat (Gradient.hues g)) (Gradient._colors g)))
      indexes = Ok pre /\
    (forall fewer,
       Z.of_nat (List.length fewer) < Gradient.hues g ->
       exists e,
         Gradient._substring_spans (with_colors g fewer) indexes = Raise e).
Proof.
  intros H.
  destruct (init_inv _ _ _ _ _ _ _ _ _ _ _ H)
    as (self & pre & Hself & Hh & Hidx & Hpre & Hsimp & _ & HL & HH & HS & HC).
  destruct (init_state_inv _ _ _ _ _ _ _ _ _ _ _ Hself)
    as (_ & Hcount & Hhues & _ & _ & Hpal).
  set (indexes := map (section (Gradient._length self) (Gradient.hues self - 1))
                      (range (Gradient.hues self - 1))) in *.
  assert (Hlen : Z.of_nat (List.length indexes) = Gradient.hues g - 1).
  { unfold indexes. rewrite length_map, range_length. lia. }
  assert (Hpre' : Gradient._substring_spans g indexes = Ok pre).
  { rewrite <- Hpre. apply substring_spans_fields; assumption. }
  assert (Hle : Gradient.hues g <= Z.of_nat (List.length (Gradient._colors g))).
  { destruct (Z_lt_le_dec (Z.of_nat (List.length (Gradient._colors g)))
                (Gradient.hues g)) as [Hlt | ]; [ | assumption].
    destruct (substring_spans_short g indexes (Gradient._colors g)
                ltac:(lia) Hlen Hlt) as [e He].
    replace (with_colors g (Gradient._colors g)) with g in He
      by (destruct g; reflexivity).
    congruence. }
  split; [lia | ]. split; [congruence | ].
  exists indexes, pre.
  split; [rewrite <- Hidx; apply substring_indexes_fields; assumption | ].
  split; [exact Hlen | ]. split; [exact Hpre' | ]. split; [exact Hsimp | ].
  split; [exact Hle | ]. split; [ | split; [ | split]].
  - intros Hnone. destruct (Hpal Hnone) as (palette & _ & Hslice).
    assert (Hs := slice_prefix_length palette (Gradient.hues self) ltac:(lia)).
    rewrite <- Hslice, <- HC, <- HH in Hs. lia.
  - rewrite length_firstn. lia.
  - rewrite substring_spans_firstn by lia. exact Hpre'.
  - intros fewer Hfew. apply substring_spans_short; lia.
Qed.

Lemma firstn_range (k : nat) (K : Z) :
  Z.of_nat k <= K -> firstn k (range K) = range (Z.of_nat k).
Proof.
  intros Hk. unfold range. rewrite firstn_map, firstn_seq, Nat2Z.id.
  f_equal. f_equal. lia.
Qed.

(** In a constructed Gradient, the style of the character at local
    index [i] of chunk [k]. *)
Lemma constructed_char_style
  (named_rgb : string -> Z * Z * Z) (text : Gradient.TextArg)
  (colors : option (list Color)) (rainbow invert : bool) (hues : Z)
  (color_sample : bool) (style : Gradient.StyleArg) (spans : option (list Span))
  (start_index : Z) (g : Gradient.Self) (k i : nat) :
  Gradient.__init__ named_rgb text colors rainbow invert hues color_sample
    style spans start_index = Ok g ->
  forallb valid_color (Gradient._colors g) = true ->
  Z.of_nat k < Gradient.hues g - 1 ->
  (i < List.length (section (Gradient._length g) (Gradient.hues g - 1)
                      (Z.of_nat k)))%nat ->
  exists color1 color2 rgb cs,
    nth_error (Gradient._colors g) k = Some color1 /\
    nth_error (Gradient._colors g) (S k) = Some color2 /\
    style_at (Gradient._spans g)
      (div_point (Gradient._length g) (Gradient.hues g - 1) (Z.of_nat k)
       + Z.of_nat i) = Some (Style_add cs (Gradient._style g)) /\
    char_style color1 color2 (Z.of_nat i)
      (Z.of_nat (List.length (section (Gradient._length g)
                                (Gradient.hues g - 1) (Z.of_nat k))))
      rgb cs.
Proof.
  intros H Hvalid Hk Hi.
  destruct (init_inv _ _ _ _ _ _ _ _ _ _ _ H)
    as (self & pre & Hself & Hh & Hidx & Hpre & Hsimp & _ & HL & HH & HS & HC).
  destruct (init_state_inv _ _ _ _ _ _ _ _ _ _ _ Hself)
    as (_ & Hcount & _).
  rewrite HL, HH, HS, HC in *.
  set (N := Gradient._length self) in *.
  set (K := Gradient.hues self - 1) in *.
  assert (HN : 0 <= N) by lia.
  assert (HK : 1 <= K) by lia.
  destruct (substring_spans_char self (map (section N K) (range K)) pre k
              (section N K (Z.of_nat k)) i
              (div_point N K (Z.of_nat k) + Z.of_nat i) Hvalid)
    as (color1 & color2 & rgb & cs & H1 & H2 & Hsp & Hcs).
  { rewrite length_map, range_length. lia. }
  { exact Hpre. }
  { apply sections_nth_error. lia. }
  { apply section_nth_error; try lia. }
  exists color1, color2, rgb, cs.
  split; [exact H1 | split; [exact H2 | split; [ | exact Hcs]]].
  rewrite firstn_map, firstn_range in Hsp by lia.
  rewrite concat_sections, range_length in Hsp by lia.
  assert (Hdp := div_point_le N K (Z.of_nat k) HN HK ltac:(lia)).
  apply pre_spans_unit in Hpre; [ | lia | assumption].
  apply unit_spans_range in Hpre as (Hlen & Hu & Hs).
  destruct pre as [ | s rest];
    [destruct (Z.to_nat (div_point N K (Z.of_nat k)) + i)%nat; discriminate | ].
  rewrite simplify_spans_cons in Hsimp. injection Hsimp as <-.
  rewrite (compress_style_at 0 N).
  - replace (div_point N K (Z.of_nat k) + Z.of_nat i)
      with (0 + Z.of_nat (Z.to_nat (div_point N K (Z.of_nat k)) + i)) by lia.
    rewrite (style_at_units _ 0 _ _ Hu Hs Hsp). reflexivity.
  - replace N with (0 + Z.of_nat (List.length (s :: rest))) by lia.
    apply tiles_of_units; assumption.
Qed.

Lemma init_hues_bounds
  (named_rgb : string -> Z * Z * Z) (text : Gradient.TextArg)
  (colors : option (list Color)) (rainbow invert : bool) (hues : Z)
  (color_sample : bool) (style : Gradient.StyleArg) (spans : option (list Span))
  (start_index : Z) (g : Gradient.Self) :
  Gradient.__init__ named_rgb text colors rainbow invert hues color_sample
    style spans start_index = Ok g ->
  2 <= Gradient.hues g <= Z.of_nat (List.length (Gradient._colors g)) /\
  Z.of_nat (List.length (Gradient._colors g)) < Gradient._length g /\
  (forall cs, colors = Some cs -> Gradient._colors g = cs).
Proof.
  intros H.
  destruct (init_inv _ _ _ _ _ _ _ _ _ _ _ H)
    as (self & pre & Hself & Hh & Hidx & Hpre & Hsimp & _ & HL & HH & HS & HC).
  destruct (init_state_inv _ _ _ _ _ _ _ _ _ _ _ Hself)
    as (_ & Hcount & _ & _ & Hcs & _).
  rewrite HL, HH, HC.
  split; [split; [exact Hh | ] | split; [lia | exact Hcs]].
  destruct (Z_lt_le_dec (Z.of_nat (List.length (Gradient._colors self)))
              (Gradient.hues self)) as [Hlt | ]; [ | assumption].
  destruct (substring_spans_short self
              (map (section (Gradient._length self) (Gradient.hues self - 1))
                   (range (Gradient.hues self - 1)))
              (Gradient._colors self) ltac:(lia)
              ltac:(rewrite length_map, range_length; lia) Hlt) as [e He].
  replace (with_colors self (Gradient._colors self)) with self in He
    by (destruct self; reflexivity).
  congruence.
Qed.

(** C7, as the code has it.  A 2-colour gradient is constructed only
    from a style given as a string that parses, and its text then has
    length [L >= 3].  The character at index 0 gets exactly the channels
    of [color_start]; the character at index [L - 1] gets the channels
    [int(c1 + (c2 - c1) * ((L - 1) / L))] computed in doubles, which lie
    between the channels of [color_start] and [color_end] and, for
    [L <= 2 ^ 44], are [floor(c1 + (c2 - c1) * (L - 1) / L)] or one
    below it.  The parsed base style is added on top of each of these
    colours: they show when the base style has no colour, and otherwise
    the colour of the base style shows. *)
Theorem C7_two_color_endpoints
  (named_rgb : string -> Z * Z * Z) (text : Gradient.TextArg)
  (color_start color_end : Color) (rainbow invert : bool) (hues : Z)
  (color_sample : bool) (style : Gradient.StyleArg)
  (spans : option (list Span)) (start_index : Z) (g : Gradient.Self) :
  Gradient.__init__ named_rgb text (Some [color_start; color_end]) rainbow
    invert hues color_sample style spans start_index = Ok g ->
  valid_color color_start = true -> valid_color color_end = true ->
  Gradient.set_style style = Ok (Gradient._style g) /\
  3 <= Gradient._length g /\
  style_at (Gradient._spans g) 0 =
    Some (Style_add (color_style (rgb_tuple color_start))
            (Gradient._style g)) /\
  color (Style_add (color_style (rgb_tuple color_start))
           (Gradient._style g)) =
    Some (resolved_color (Gradient._style g) (rgb_tuple color_start)) /\
  exists rgb,
    style_at (Gradient._spans g) (Gradient._length g - 1) =
      Some (Style_add (color_style rgb) (Gradient._style g)) /\
    color (Style_add (color_style rgb) (Gradient._style g)) =
      Some (resolved_color (Gradient._style g) rgb) /\
    within (rgb_tuple color_start) (rgb_tuple color_end) rgb /\
    (Gradient._length g <= 2 ^ 44 ->
     near_exact_rgb (rgb_tuple color_start) (rgb_tuple color_end)
       (Gradient._length g - 1) (Gradient._length g) rgb).
Proof.
  intros H V1 V2.
  destruct (init_hues_bounds _ _ _ _ _ _ _ _ _ _ _ H) as (Hh & HL & Hcs).
  specialize (Hcs _ eq_refl).
  assert (Hvalid : forallb valid_color (Gradient._colors g) = true)
    by (rewrite Hcs; cbn; rewrite V1, V2; reflexivity).
  rewrite Hcs in Hh, HL. cbn [List.length] in Hh, HL.
  assert (Hh2 : Gradient.hues g - 1 = 1) by lia.
  set (N := Gradient._length g) in *.
  assert (Hdp0 : div_point N 1 (Z.of_nat 0) = 0).
  { unfold div_point. rewrite Z.mod_1_r. reflexivity. }
  assert (Hlen : Z.of_nat (List.length (section N 1 (Z.of_nat 0))) = N).
  { rewrite section_length by lia. rewrite Z.div_1_r, Z.mod_1_r. cbn. lia. }
  split; [exact (init_style _ _ _ _ _ _ _ _ _ _ _ H) | ].
  split; [lia | ]. split; [ | split; [apply color_resolved | ]].
  - destruct (constructed_char_style _ _ _ _ _ _ _ _ _ _ g 0 0 H Hvalid)
      as (c1 & c2 & rgb & cs & H1 & H2 & Hst & Hch).
    { lia. }
    { fold N. rewrite Hh2. lia. }
    fold N in Hst. rewrite Hh2, Hdp0 in Hst.
    rewrite Hcs in H1. injection H1 as <-.
    destruct Hch as (_ & _ & _ & -> & Hz).
    rewrite Hz in Hst by reflexivity. exact Hst.
  - destruct (constructed_char_style _ _ _ _ _ _ _ _ _ _ g 0
                (Z.to_nat (N - 1)) H Hvalid)
      as (c1 & c2 & rgb & cs & H1 & H2 & Hst & Hch).
    { lia. }
    { fold N. rewrite Hh2. lia. }
    fold N in Hst, Hch. rewrite Hh2 in Hst, Hch. rewrite Hdp0 in Hst.
    rewrite Hlen in Hch. rewrite Z2Nat.id in Hst, Hch by lia.
    rewrite Hcs in H1, H2. injection H1 as <-. injection H2 as <-.
    destruct Hch as (Hint & Hwith & _ & -> & _).
    exists rgb. cbn [Z.add] in Hst.
    split; [exact Hst | ]. split; [apply color_resolved | ].
    split; [exact Hwith | ].
    intros H44. apply interpolated_near; try assumption. lia.
Qed.

Lemma C7_two_color_endpoints_witness :
  exists g,
    Gradient.__init__ sample_rgb (Gradient.Str "ABCDEFGH") (Some [red; blue])
      false false 2 false empty_style None 0 = Ok g /\
    style_at (Gradient._spans g) 0 =
      Some (Style_add (color_style (rgb_tuple red)) (Gradient._style g)).
Proof.
  destruct (Gradient.__init__ sample_rgb (Gradient.Str "ABCDEFGH")
              (Some [red; blue]) false false 2 false empty_style None 0)
    as [g | e] eqn:H.
  - exists g. split; [reflexivity | ].
    exact (proj1 (proj2 (proj2 (C7_two_color_endpoints sample_rgb
                           (Gradient.Str "ABCDEFGH") red blue false false 2
                           false empty_style None 0 g H eq_refl eq_refl)))).
  - vm_compute in H. discriminate H.
Defined.

(** C7 as stated fails: over "ABC" from red to blue, with the empty
    style string, the last character is (85, 0, 170), 85 away from blue
    in two channels. *)
Lemma C7_counterexample :
  exists g,
    Gradient.__init__ sample_rgb (Gradient.Str "ABC") (Some [red; blue])
      false false 2 false empty_style None 0 = Ok g /\
    Gradient._length g = 3 /\
    style_at (Gradient._spans g) 2 = Some (color_style (85, 0, 170)) /\
    ~ within_one (85, 0, 170) (rgb_tuple blue).
Proof.
  eexists. split; [vm_compute; reflexivity | ].
  split; [reflexivity | ]. split; [reflexivity | ].
  cbn. lia.
Qed.

(** C8, as the code has it.  With text "AB" and two colours the
    construction never succeeds: the style setter raises when the style
    is not a string that parses (the default [Style.null()] gives
    [AttributeError]), and otherwise the assertion that there are fewer
    colours than characters fails.  The boundary policy itself holds in
    every constructed Gradient: a segment of length 1 gives its single
    character [t = 0], so it gets exactly the first colour of the
    segment's pair, under the base style, whose colour shows when it
    has one. *)
Theorem C8_one_character_segments
  (named_rgb : string -> Z * Z * Z) (text : Gradient.TextArg)
  (colors : option (list Color)) (color1 color2 : Color)
  (rainbow invert : bool) (hues : Z) (color_sample : bool)
  (style : Gradient.StyleArg) (spans : option (list Span))
  (start_index : Z) (g : Gradient.Self) (k : nat) :
  Gradient.__init__ named_rgb (Gradient.Str "AB") (Some [color1; color2])
    rainbow invert hues color_sample style spans start_index =
    match Gradient.set_style style with
    | Ok _ =>
        Raise (AssertionError
                 "Gradient must have fewer colors than characters.")
    | Raise e => Raise e
    end
  /\
  (Gradient.__init__ named_rgb text colors rainbow invert hues color_sample
     style spans start_index = Ok g ->
   forallb valid_color (Gradient._colors g) = true ->
   Z.of_nat k < Gradient.hues g - 1 ->
   List.length (section (Gradient._length g) (Gradient.hues g - 1)
                  (Z.of_nat k)) = 1%nat ->
   exists first,
     nth_error (Gradient._colors g) k = Some first /\
     style_at (Gradient._spans g)
       (div_point (Gradient._length g) (Gradient.hues g - 1) (Z.of_nat k)) =
       Some (Style_add (color_style (rgb_tuple first)) (Gradient._style g)) /\
     color (Style_add (color_style (rgb_tuple first)) (Gradient._style g)) =
       Some (resolved_color (Gradient._style g) (rgb_tuple first))).
Proof.
  split.
  { unfold Gradient.__init__, Gradient.init_state. cbn [bind].
    destruct (Gradient.set_style style); reflexivity. }
  intros H Hvalid Hk Hlen.
  destruct (constructed_char_style _ _ _ _ _ _ _ _ _ _ g k 0 H Hvalid Hk)
    as (c1 & c2 & rgb & cs & H1 & H2 & Hst & Hch).
  { rewrite Hlen. lia. }
  exists c1. split; [exact H1 | ].
  destruct Hch as (_ & _ & _ & -> & Hz).
  rewrite Hz in Hst by reflexivity.
  rewrite Z.add_0_r in Hst. split; [exact Hst | apply color_resolved].
Qed.

Lemma C8_one_character_segments_witness :
  exists g,
    Gradient.__init__ sample_rgb (Gradient.Str "ABCDE")
      (Some [red; lime; blue; yellow]) false false 4 false empty_style None 0 =
      Ok g /\
    exists first,
      nth_error (Gradient._colors g) 2 = Some first /\
      style_at (Gradient._spans g)
        (div_point (Gradient._length g) (Gradient.hues g - 1) (Z.of_nat 2)) =
        Some (Style_add (color_style (rgb_tuple first)) (Gradient._style g)).
Proof.
  destruct (Gradient.__init__ sample_rgb (Gradient.Str "ABCDE")
              (Some [red; lime; blue; yellow]) false false 4 false empty_style
              None 0) as [g | e] eqn:H.
  - exists g. split; [reflexivity | ].
    assert (Hg := H). vm_compute in Hg. injection Hg as Hg.
    destruct (proj2 (C8_one_character_segments sample_rgb
                       (Gradient.Str "ABCDE")
                       (Some [red; lime; blue; yellow]) red blue false false 4
                       false empty_style None 0 g 2) H)
      as (first & H1 & H2 & _);
      try (rewrite <- Hg; vm_compute; reflexivity).
    exists first. split; assumption.
  - vm_compute in H. discriminate H.
Defined.

(** C8 as stated fails: the construction does not succeed.  As the
    claim has it, with the default style, the style setter raises
    [AttributeError]; with the empty style string and [hues = 2] the
    assertion on the number of colours fails. *)
Lemma C8_counterexample :
  Gradient.__init__ sample_rgb (Gradient.Str "AB") (Some [red; blue])
    false false 3 false default_style None 0 = Raise AttributeError /\
  Gradient.__init__ sample_rgb (Gradient.Str "AB") (Some [red; blue])
    false false 2 false empty_style None 0 =
    Raise (AssertionError "Gradient must have fewer colors than characters.").
Proof. split; vm_compute; reflexivity. Qed.







Lemma combine_map_r {A B : Type} (f : A -> B) (xs : list A) :
  combine xs (map f xs) = map (fun x => (x, f x)) xs.
Proof.
  induction xs as [ | x xs IH]; cbn [map combine]; [reflexivity | ].
  rewrite IH. reflexivity.
Qed.

Lemma enumerate_sections (N K : Z) :
  enumerate (map (section N K) (range K)) =
  map (fun i => (i, section N K i)) (range K).
Proof.
  unfold enumerate. rewrite length_map, range_length.
  destruct (Z_le_gt_dec 0 K) as [HK | HK].
  - rewrite Z2Nat.id by lia. apply combine_map_r.
  - replace (Z.of_nat (Z.to_nat K)) with 0 by lia.
    unfold range. replace (Z.to_nat K) with 0%nat by lia. reflexivity.
Qed.

Lemma map_result_fmap {A B C : Type} (f : A -> Result B) (h : B -> C)
  (xs : list A) :
  map_result (fun x => y <- f x ;; Ok (h y)) xs =
  (ys <- map_result f xs ;; Ok (map h ys)).
Proof.
  induction xs as [ | x xs IH]; cbn [map_result bind map]; [reflexivity | ].
  destruct (f x) as [y | e]; cbn [bind]; [ | reflexivity].
  rewrite IH. destruct (map_result f xs); reflexivity.
Qed.

Lemma alias_span_alias (spans : list Span) :
  map alias_span (map span_alias spans) = spans.
Proof.
  rewrite map_map. rewrite <- (map_id spans) at 2.
  apply map_ext. intros [a b s]. reflexivity.
Qed.

(** With equal chunks both loops compute the same start, end and style
    for a character; one makes a span of them, the other an alias. *)
Lemma equal_chunk_spans (base : Style) (colors : list Color) (N K i : Z) :
  0 <= N -> 1 <= K -> N mod K = 0 -> 0 <= i ->
  gradient_chunk_spans base colors (N / K) i =
  (part <- chunk_spans base colors (i, section N K i) ;;
   Ok (map span_alias part)).
Proof.
  intros HN HK Hmod Hi. unfold chunk_spans, gradient_chunk_spans.
  destruct (Gradient.pair_vars colors i) as [vars | e]; cbn [bind];
    [ | reflexivity].
  assert (Hlen := section_length N K i HN HK Hi).
  rewrite Hmod in Hlen.
  replace (i <? 0) with false in Hlen by (symmetry; apply Z.ltb_ge; lia).
  rewrite Hlen, Z.add_0_r.
  assert (Hq : 0 <= N / K) by (apply Z.div_pos; lia).
  rewrite <- map_result_fmap.
  apply map_result_ext_in. intros j Hj. apply range_In in Hj.
  unfold substring_span, gradient_span. rewrite Hlen, Z.add_0_r.
  destruct (Float.int_truediv j (N / K)) as [blend | e]; cbn [bind];
    [ | reflexivity].
  destruct vars as [[[[[r1 g1] b1] dr] dg] db].
  destruct (blend_color r1 g1 b1 dr dg db blend) as [token | e]; cbn [bind];
    [ | reflexivity].
  destruct (Style_of_color token) as [cs | e]; cbn [bind]; [ | reflexivity].
  rewrite (proj2 (getitem_nth (section N K i) j (i * (N / K) + j) ltac:(lia))).
  - reflexivity.
  - rewrite section_nth_error by lia.
    rewrite Z2Nat.id by lia. unfold div_point. rewrite Hmod. f_equal. lia.
Qed.

Lemma map_result_Ok {A B : Type} (f : A -> Result B) (xs : list A) :
  (forall x, In x xs -> exists y, f x = Ok y) ->
  exists ys, map_result f xs = Ok ys.
Proof.
  induction xs as [ | x rest IH]; intros H; [exists []; reflexivity | ].
  destruct (H x (or_introl eq_refl)) as [y Hy].
  destruct IH as [ys Hys]; [intros z Hz; apply H; right; exact Hz | ].
  exists (y :: ys). cbn [map_result]. rewrite Hy. cbn [bind].
  rewrite Hys. reflexivity.
Qed.

Lemma chunk_spans_Ok (base : Style) (colors : list Color) (k : Z)
  (chunk : list Z) :
  forallb valid_color colors = true ->
  0 <= k -> k + 1 < Z.of_nat (List.length colors) ->
  exists part, chunk_spans base colors (k, chunk) = Ok part.
Proof.
  intros Hv Hk Hlen.
  destruct (nth_error colors (Z.to_nat k)) as [color1 | ] eqn:H1;
    [ | apply nth_error_None in H1; lia].
  destruct (nth_error colors (S (Z.to_nat k))) as [color2 | ] eqn:H2;
    [ | apply nth_error_None in H2; lia].
  unfold chunk_spans.
  pose proof (pair_vars_nth colors (Z.to_nat k) color1 color2 H1 H2) as Hp.
  rewrite Z2Nat.id in Hp by lia. rewrite Hp. cbn [bind].
  apply map_result_Ok. intros i Hi. apply range_In in Hi.
  destruct (nth_error chunk (Z.to_nat i)) as [idx | ] eqn:Hn;
    [ | apply nth_error_None in Hn; lia].
  destruct (substring_span_spec base color1 color2 chunk (Z.to_nat i) idx
              (forallb_nth_error _ _ _ _ Hv H1)
              (forallb_nth_error _ _ _ _ Hv H2) Hn)
    as (rgb & cs & Hspan & _).
  rewrite Z2Nat.id in Hspan by lia. eauto.
Qed.

Lemma enumerate_In {A : Type} (xs : list A) (k : Z) (x : A) :
  In (k, x) (enumerate xs) -> 0 <= k < Z.of_nat (List.length xs).
Proof.
  intros H. apply in_combine_l in H. apply range_In in H. exact H.
Qed.

Lemma substring_spans_Ok (self : Gradient.Self) (indexes : list (list Z)) :
  forallb valid_color (Gradient._colors self) = true ->
  Z.of_nat (List.length indexes) <= Gradient.hues self ->
  Z.of_nat (List.length indexes) <
    Z.of_nat (List.length (Gradient._colors self)) ->
  exists pre, Gradient._substring_spans self indexes = Ok pre.
Proof.
  intros Hv Hh Hc. rewrite substring_spans_parts by exact Hh.
  destruct (map_result_Ok
              (chunk_spans (Gradient._style self) (Gradient._colors self))
              (enumerate indexes)) as [parts Hparts].
  - intros [k chunk] Hin. apply enumerate_In in Hin.
    apply chunk_spans_Ok; [exact Hv | lia | lia].
  - rewrite Hparts. cbn [bind]. eauto.
Qed.

(** [_gradient_spans] makes one alias per character of the first
    [gradient_size * (hues - 1)] characters; their arguments are the
    fields of the spans that [_substring_spans] makes when the text
    length is a multiple of [hues - 1]. *)
Lemma gradient_spans_units (self : Gradient.Self) :
  forallb valid_color (Gradient._colors self) = true ->
  2 <= Gradient.hues self <= Z.of_nat (List.length (Gradient._colors self)) ->
  Gradient.hues self - 1 <= Gradient._length self ->
  let N := Gradient._length self in
  let K := Gradient.hues self - 1 in
  exists pre,
    Gradient._gradient_spans self = Ok (map span_alias pre) /\
    unit_spans (range (N / K * K)) pre /\
    (N mod K = 0 ->
     Gradient._substring_spans self (map (section N K) (range K)) = Ok pre).
Proof.
  intros Hv Hh HN N K.
  pose proof (Z.div_mod N K ltac:(unfold K; lia)) as Hdm.
  pose proof (Z.mod_pos_bound N K ltac:(unfold K; lia)) as Hmb.
  assert (Hq : 1 <= N / K)
    by (apply Z.div_le_lower_bound; unfold N, K; lia).
  set (self' := Gradient.mkSelf (Gradient._text self) (N / K * K)
                  (Gradient.hues self) (Gradient._style self)
                  (Gradient._colors self) (Gradient._spans self)).
  assert (Heq : Gradient._gradient_spans self =
                (pre <- Gradient._substring_spans self'
                          (map (section (N / K * K) K) (range K)) ;;
                 Ok (map span_alias pre))).
  { rewrite gradient_spans_parts by (fold K; lia). fold N K.
    rewrite substring_spans_parts
      by (rewrite length_map, range_length; cbn; lia).
    rewrite enumerate_sections, map_result_map.
    cbn [Gradient._style Gradient._colors self'].
    rewrite (map_result_ext_in
               (gradient_chunk_spans (Gradient._style self)
                  (Gradient._colors self) (N / K))
               (fun i =>
                  part <- chunk_spans (Gradient._style self)
                            (Gradient._colors self)
                            (i, section (N / K * K) K i) ;;
                  Ok (map span_alias part))).
    2:{ intros i Hi. apply range_In in Hi.
        rewrite <- (Z.div_mul (N / K) K) at 1 by lia.
        apply equal_chunk_spans; [nia | lia | apply Z.mod_mul; lia | lia]. }
    rewrite map_result_fmap.
    destruct (map_result _ (range K)) as [parts | e]; cbn [bind];
      [ | reflexivity].
    rewrite concat_map. reflexivity. }
  destruct (substring_spans_Ok self'
              (map (section (N / K * K) K) (range K))) as [pre Hpre].
  - exact Hv.
  - rewrite length_map, range_length. cbn. lia.
  - rewrite length_map, range_length. cbn. lia.
  - exists pre. rewrite Heq, Hpre. cbn [bind].
    split; [reflexivity | ]. split.
    + apply (pre_spans_unit self' pre); [cbn; nia | cbn; lia | exact Hpre].
    + intros Hmod. rewrite <- Hpre.
      replace (N / K * K) with N by lia.
      apply substring_spans_fields; reflexivity.
Qed.

(** C9, as the code has it.  The two variants do not compute the same
    result on any constructed Gradient with 8-bit colours.
    [_substring_spans(_substring_indexes())] gives one [Span] per
    character of the text.  [_gradient_spans()] gives a list of the
    aliases [Span[start, end, style]], none of which is equal to a
    [Span], one for each of the first
    [length - length mod (hues - 1)] characters: the characters after
    the last full chunk get none.  Only when the length is a multiple
    of [hues - 1] are the arguments of the aliases, in order, the
    fields of the spans of the other variant. *)
Theorem C9_gradient_spans_diverge
  (named_rgb : string -> Z * Z * Z) (text : Gradient.TextArg)
  (colors : option (list Color)) (rainbow invert : bool) (hues : Z)
  (color_sample : bool) (style : Gradient.StyleArg)
  (spans : option (list Span)) (start_index : Z) (g : Gradient.Self) :
  Gradient.__init__ named_rgb text colors rainbow invert hues color_sample
    style spans start_index = Ok g ->
  forallb valid_color (Gradient._colors g) = true ->
  exists aliases pre,
    Gradient._gradient_spans g = Ok aliases /\
    (indexes <- Gradient._substring_indexes g ;;
     Gradient._substring_spans g indexes) = Ok pre /\
    aliases_eqb aliases pre = false /\
    unit_spans (range (Gradient._length g)) pre /\
    unit_spans
      (range (Gradient._length g
              - Gradient._length g mod (Gradient.hues g - 1)))
      (map alias_span aliases) /\
    (Gradient._length g mod (Gradient.hues g - 1) = 0 ->
     map alias_span aliases = pre).
Proof.
  intros H Hv.
  destruct (init_hues_bounds _ _ _ _ _ _ _ _ _ _ _ H) as (Hh & Hc & _).
  destruct (init_inv _ _ _ _ _ _ _ _ _ _ _ H)
    as (self & pre & Hself & _ & Hidx & Hpre & Hsimp & _ & HL & HH & HS & HC).
  assert (Hsub : (indexes <- Gradient._substring_indexes g ;;
                  Gradient._substring_spans g indexes) = Ok pre).
  { rewrite (substring_indexes_fields g self HH HL), Hidx. cbn [bind].
    rewrite (substring_spans_fields g self _ HH HC HS). exact Hpre. }
  assert (Hu : unit_spans (range (Gradient._length g)) pre).
  { rewrite HL. apply (pre_spans_unit self pre); [lia | lia | exact Hpre]. }
  destruct (gradient_spans_units g Hv Hh ltac:(lia))
    as (pre' & Hal & Hu' & Hdiv).
  pose proof (Z.div_mod (Gradient._length g) (Gradient.hues g - 1)
                ltac:(lia)) as Hdm.
  exists (map span_alias pre'), pre.
  split; [exact Hal | ]. split; [exact Hsub | ].
  split; [ | split; [exact Hu | split]].
  - apply unit_spans_range in Hu as (Hlen & _).
    destruct pre as [ | sp rest]; [cbn [List.length] in Hlen; lia | ].
    destruct (map span_alias pre'); reflexivity.
  - rewrite alias_span_alias.
    replace (Gradient._length g
             - Gradient._length g mod (Gradient.hues g - 1))
      with (Gradient._length g / (Gradient.hues g - 1)
            * (Gradient.hues g - 1)) by lia.
    exact Hu'.
  - intros Hmod. rewrite alias_span_alias.
    specialize (Hdiv Hmod).
    rewrite <- (substring_spans_fields self g _ (eq_sym HH) (eq_sym HC)
                  (eq_sym HS)) in Hdiv.
    rewrite HL, HH in Hdiv. congruence.
Qed.

Lemma C9_gradient_spans_diverge_witness :
  exists g aliases pre,
    Gradient.__init__ sample_rgb (Gradient.Str "ABCDE")
      (Some [red; lime; blue]) false false 3 false empty_style None 0 = Ok g /\
    Gradient._gradient_spans g = Ok aliases /\
    (indexes <- Gradient._substring_indexes g ;;
     Gradient._substring_spans g indexes) = Ok pre /\
    aliases_eqb aliases pre = false /\
    List.length aliases = 4%nat /\ List.length pre = 5%nat.
Proof.
  destruct (Gradient.__init__ sample_rgb (Gradient.Str "ABCDE")
              (Some [red; lime; blue]) false false 3 false empty_style None 0)
    as [g | e] eqn:H.
  - assert (Hg := H). vm_compute in Hg. injection Hg as Hg.
    assert (Hv : forallb valid_color (Gradient._colors g) = true)
      by (rewrite <- Hg; reflexivity).
    destruct (C9_gradient_spans_diverge sample_rgb (Gradient.Str "ABCDE")
                (Some [red; lime; blue]) false false 3 false empty_style
                None 0 g H Hv)
      as (aliases & pre & Hal & Hsub & Hne & Hu & Hu' & _).
    exists g, aliases, pre.
    split; [reflexivity | ]. split; [exact Hal | ]. split; [exact Hsub | ].
    split; [exact Hne | ].
    apply unit_spans_range in Hu as (Hlen & _).
    apply unit_spans_range in Hu' as (Hlen' & _).
    rewrite length_map in Hlen'. rewrite Hlen, Hlen', <- Hg.
    split; reflexivity.
  - vm_compute in H. discriminate H.
Defined.

Lemma Style_of_color_hex (c : Color) :
  valid_color c = true ->
  Style_of_color (Color_hex c) = Ok (color_style (rgb_tuple c)).
Proof.
  intros V. unfold Color_hex.
  destruct (rgb_tuple c) as [[r g] b] eqn:E.
  destruct (valid_color_bounds c r g b V E) as (Hr & Hg & Hb).
  apply Style_of_color_bytes; assumption.
Qed.

Lemma color_style_color (rgb : Z * Z * Z) :
  color (color_style rgb) = Some (true_color rgb).
Proof. destruct rgb as [[r g] b]. reflexivity. Qed.

Lemma styles_end_color (style : GradientSubstring.StyleArg)
  (color_end : Color) (self_style end_style : Style) :
  valid_color color_end = true ->
  GradientSubstring.styles style color_end = Ok (self_style, end_style) ->
  color end_style =
    match style with
    | GradientSubstring.StyleNone => None
    | _ => Some (true_color (rgb_tuple color_end))
    end.
Proof.
  intros V H. unfold GradientSubstring.styles in H.
  destruct style as [ | | parsed | s].
  - rewrite Style_of_color_hex in H by assumption. cbn [bind] in H.
    injection H as _ <-. apply color_style_color.
  - injection H as _ <-. reflexivity.
  - unfold GradientSubstring.parse_with_color in H.
    destruct (Style_is_null _); cbn [bind] in H; [discriminate | ].
    rewrite Style_of_color_hex in H by assumption. cbn [bind] in H.
    injection H as _ <-. destruct (rgb_tuple color_end) as [[r g] b].
    reflexivity.
  - unfold GradientSubstring.parse_with_color in H.
    destruct (Style_is_null _); cbn [bind] in H; [discriminate | ].
    rewrite Style_of_color_hex in H by assumption. cbn [bind] in H.
    injection H as _ <-. destruct (rgb_tuple color_end) as [[r g] b].
    reflexivity.
Qed.

(** C10, as the code has it.  For a GradientSubstring of length
    [L >= 2] the list handed to compression begins with the span
    [(0, L - 1)], whose start is 0 whatever [start_index] is; it
    carries the end-colour style, or the null style when [style] is
    "none".  The [L] unit spans [[start_index + i, start_index + i + 1)]
    follow.  At [start_index = 0] the first two spans of this list
    overlap, and when the first character's style differs from the
    style of the first span the compressed output keeps both, so it is
    not a tiling; when the styles agree the two are merged into one
    span that starts at 0. *)
Theorem C10_initial_span
  (text : string) (start_index : Z) (color_start color_end : Color)
  (style : GradientSubstring.StyleArg) (sub : GradientSubstring.Self) :
  GradientSubstring.__init__ text start_index color_start color_end style =
    Ok sub ->
  valid_color color_start = true -> valid_color color_end = true ->
  2 <= GradientSubstring._length sub ->
  exists end_style units,
    GradientSubstring.styles style color_end =
      Ok (GradientSubstring.style sub, end_style) /\
    color end_style =
      match style with
      | GradientSubstring.StyleNone => None
      | _ => Some (true_color (rgb_tuple color_end))
      end /\
    GradientSubstring.initial_spans sub end_style =
      Ok (mkSpan 0 (GradientSubstring._length sub - 1) end_style :: units) /\
    GradientSubstring.simplify_spans
      (mkSpan 0 (GradientSubstring._length sub - 1) end_style :: units) =
      Ok (GradientSubstring._spans sub) /\
    Z.of_nat (List.length units) = GradientSubstring._length sub /\
    (forall i, Z.of_nat i < GradientSubstring._length sub ->
       exists rgb cs,
         nth_error units i =
           Some (mkSpan (start_index + Z.of_nat i)
                        (start_index + Z.of_nat i + 1)
                        (Style_add (GradientSubstring.style sub) cs)) /\
         char_style color_start color_end (Z.of_nat i)
           (GradientSubstring._length sub) rgb cs) /\
    (start_index = 0 ->
     exists first,
       nth_error units 0 = Some first /\
       overlap (mkSpan 0 (GradientSubstring._length sub - 1) end_style) first /\
       (Rich.style first <> end_style ->
        exists e tl,
          GradientSubstring._spans sub =
            mkSpan 0 (GradientSubstring._length sub - 1) end_style
            :: mkSpan 0 e (Rich.style first) :: tl /\
          forall b, ~ tiles 0 b (GradientSubstring._spans sub)) /\
       (Rich.style first = end_style ->
        exists e tl,
          1 <= e /\
          GradientSubstring._spans sub = mkSpan 0 e end_style :: tl)).
Proof.
  intros H V1 V2 HL.
  unfold GradientSubstring.__init__ in H.
  apply bind_Ok_inv in H as ([self_style end_style] & Hstyles & H).
  apply bind_Ok_inv in H as (initial & Hinit & H).
  apply bind_Ok_inv in H as (simplified & Hsimp & [= <-]).
  cbn [GradientSubstring._length GradientSubstring.style
         GradientSubstring._spans] in *.
  set (L := Z.of_nat (String.length (strip_control_codes text))) in *.
  set (sub := GradientSubstring.mkSelf L (strip_control_codes text)
                start_index color_start color_end self_style simplified).
  unfold GradientSubstring.initial_spans in Hinit.
  apply bind_Ok_inv in Hinit as (units & Hunits & [= <-]).
  cbn [GradientSubstring._length app] in Hsimp.
  assert (Hunits' : map_result (GradientSubstring._calculate_span sub)
                      (range L) = Ok units) by exact Hunits.
  assert (Hlen := map_result_length _ _ _ Hunits').
  rewrite range_length in Hlen.
  assert (Hnth : forall i, Z.of_nat i < L ->
            exists rgb cs,
              nth_error units i =
                Some (mkSpan (start_index + Z.of_nat i)
                             (start_index + Z.of_nat i + 1)
                             (Style_add self_style cs)) /\
              char_style color_start color_end (Z.of_nat i) L rgb cs).
  { intros i Hi.
    destruct (calculate_span_spec sub (Z.of_nat i) V1 V2 ltac:(cbn; lia))
      as (rgb & cs & Hspan & Hcs).
    destruct (map_result_nth _ _ _ i (Z.of_nat i) Hunits') as (sp & Hsp & Hs).
    { apply range_nth. lia. }
    rewrite Hspan in Hs. injection Hs as <-.
    exists rgb, cs. split; [exact Hsp | exact Hcs]. }
  exists end_style, units.
  split; [exact Hstyles | ].
  split; [eapply styles_end_color; eassumption | ].
  split; [unfold GradientSubstring.initial_spans;
          change (GradientSubstring.calculate_spans_concurrently sub)
            with (map_result (GradientSubstring._calculate_span sub) (range L));
          rewrite Hunits'; reflexivity | ].
  split; [exact Hsimp | ]. split; [lia | ]. split; [exact Hnth | ].
  intros Hstart. destruct (Hnth 0%nat ltac:(lia)) as (rgb & cs & Hfirst & _).
  rewrite Hstart in Hfirst. cbn [Z.of_nat Z.add] in Hfirst.
  eexists. split; [exact Hfirst | ]. split.
  - exists 0. cbn [start end_]. lia.
  - destruct units as [ | first rest]; [discriminate | ].
    injection Hfirst as ->.
    rewrite simplify_spans_same, simplify_spans_cons in Hsimp.
    injection Hsimp as <-. cbn [compress Rich.style]. split.
    + intros Hne.
      replace (Style_eqb (Style_add self_style cs) end_style) with false
        by (symmetry; apply Style_eqb_neq; exact Hne).
      destruct (compress_head (mkSpan 0 1 (Style_add self_style cs)) rest)
        as (e & tl & ->).
      cbn [start Rich.style]. exists e, tl. split; [reflexivity | ].
      intros b Ht. cbn [tiles start end_] in Ht. lia.
    + intros Heq.
      replace (Style_eqb (Style_add self_style cs) end_style) with true
        by (symmetry; apply Style_eqb_eq; exact Heq).
      cbn [start end_].
      assert (Ht : tiles 0 (0 + Z.of_nat (List.length
                     (mkSpan 0 1 (Style_add self_style cs) :: rest)))
                     (mkSpan 0 1 (Style_add self_style cs) :: rest)).
      { apply tiles_of_units.
        - apply Forall_forall. intros sp Hin.
          apply In_nth_error in Hin as [n Hn].
          assert (Hn' : (n < List.length
                           (mkSpan 0 1 (Style_add self_style cs) :: rest))%nat)
            by (apply nth_error_Some; congruence).
          destruct (Hnth n ltac:(lia)) as (rgb' & cs' & Hsp & _).
          rewrite Hn in Hsp. injection Hsp as ->. reflexivity.
        - apply nth_error_ext. intros n. rewrite !nth_error_map.
          destruct (Nat.ltb_spec n (List.length
                      (mkSpan 0 1 (Style_add self_style cs) :: rest)))
            as [Hn | Hn].
          + destruct (Hnth n ltac:(lia)) as (rgb' & cs' & Hsp & _).
            rewrite Hsp, nth_error_seq.
            destruct (Nat.ltb_spec n (List.length
                        (mkSpan 0 1 (Style_add self_style cs) :: rest)));
              [ | lia].
            cbn [option_map start]. f_equal. lia.
          + rewrite (proj2 (nth_error_None _ _)) by lia.
            rewrite (proj2 (nth_error_None _ _))
              by (rewrite length_seq; lia).
            reflexivity. }
      assert (Ht' := compress_tiles 0 _
                       (mkSpan 0 1 (Style_add self_style cs)) rest Ht).
      rewrite Heq in *.
      destruct (compress_head (mkSpan 0 1 end_style) rest) as (e & tl & Hc).
      rewrite Hc in Ht'. cbn [tiles start end_] in Ht'.
      exists e, tl. split; [lia | exact Hc].
Qed.

Lemma C10_initial_span_witness :
  exists sub end_style units,
    GradientSubstring.__init__ "ABC" 0 red blue GradientSubstring.StyleFalsy =
      Ok sub /\
    GradientSubstring.initial_spans sub end_style =
      Ok (mkSpan 0 (GradientSubstring._length sub - 1) end_style :: units) /\
    color end_style = Some (true_color (rgb_tuple blue)).
Proof.
  destruct (GradientSubstring.__init__ "ABC" 0 red blue
              GradientSubstring.StyleFalsy) as [sub | e] eqn:H.
  - assert (Hg := H). vm_compute in Hg. injection Hg as Hg.
    assert (HL : 2 <= GradientSubstring._length sub)
      by (rewrite <- Hg; vm_compute; discriminate).
    destruct (C10_initial_span "ABC" 0 red blue GradientSubstring.StyleFalsy
                sub H eq_refl eq_refl HL)
      as (end_style & units & _ & Hcolor & Hinit & _).
    exists sub, end_style, units.
    split; [reflexivity | split; [exact Hinit | exact Hcolor]].
  - vm_compute in H. discriminate H.
Defined.

(** C10 as stated fails: with equal start and end colours the
    compressed output of "AB" at [start_index = 0] is the single span
    [(0, 2)], a tiling of its range. *)
Lemma C10_counterexample :
  exists sub,
    GradientSubstring.__init__ "AB" 0 red red GradientSubstring.StyleFalsy =
      Ok sub /\
    GradientSubstring._length sub = 2 /\
    GradientSubstring.start_index sub = 0 /\
    GradientSubstring._spans sub = [mkSpan 0 2 (color_style (255, 0, 0))] /\
    tiles 0 2 (GradientSubstring._spans sub).
Proof.
  eexists. split; [vm_compute; reflexivity | ].
  split; [reflexivity | ]. split; [reflexivity | ]. split; [reflexivity | ].
  cbn. lia.
Qed.

(** ** Instances and remarks *)

Lemma C1_compressed_spans_tile_witness :
  exists g,
    Gradient.__init__ sample_rgb (Gradient.Str "ABCDEFGHIJ")
      (Some [red; lime; blue]) false false 3 false empty_style None 0 = Ok g /\
    tiles 0 (Gradient._length g) (Gradient._spans g) /\
    no_adjacent_equal (Gradient._spans g).
Proof.
  destruct (Gradient.__init__ sample_rgb (Gradient.Str "ABCDEFGHIJ")
              (Some [red; lime; blue]) false false 3 false empty_style None 0)
    as [g | e] eqn:H.
  - exists g. split; [reflexivity | ].
    exact (proj2 (C1_compressed_spans_tile sample_rgb
                    (Gradient.Str "ABCDEFGHIJ") (Some [red; lime; blue])
                    false false 3 false empty_style None 0 g H)).
  - vm_compute in H. discriminate H.
Defined.

Lemma C2_interpolated_character_witness :
  let self := Gradient.mkSelf "ABCDE" 5 3 Style_null [red; lime; blue] [] in
  let sub := GradientSubstring.mkSelf 3 "ABC" 0 red blue Style_null [] in
  exists spans rgb,
    Gradient._substring_spans self [[0; 1; 2]; [3; 4]] = Ok spans /\
    nth_error spans 4 =
      Some (mkSpan 4 5 (Style_add (color_style rgb) Style_null)) /\
    exact_char lime blue 1 2 rgb.
Proof.
  intros self sub.
  destruct (Gradient._substring_spans self [[0; 1; 2]; [3; 4]])
    as [spans | e] eqn:H.
  - destruct (proj1 (C2_interpolated_character self [[0; 1; 2]; [3; 4]] spans
                       1 [3; 4] 1 4 sub 1 eq_refl ltac:(vm_compute; discriminate)
                       H eq_refl eq_refl ltac:(vm_compute; discriminate)
                       eq_refl eq_refl
                       ltac:(vm_compute; split; [discriminate | reflexivity])
                       ltac:(vm_compute; discriminate)))
      as (color1 & color2 & rgb & H1 & H2 & Hsp & _ & Hex).
    injection H1 as <-. injection H2 as <-.
    exists spans, rgb. split; [reflexivity | ]. split; assumption.
  - vm_compute in H. discriminate H.
Defined.

(** C2 as stated fails: from 0 to 90 over a chunk of 10 characters the
    character at index 7 gets the channel 62, where
    [floor(0 + 90 * 7 / 10)] is 63: the double nearest to [7 / 10] lies
    below it, and so does the product. *)
Lemma C2_counterexample :
  let self := Gradient.mkSelf "ABCDEFGHIJ" 10 2 Style_null
                [mkColor "#000000" (0, 0, 0); mkColor "#5A0000" (90, 0, 0)]
                [] in
  exists spans,
    Gradient._substring_spans self [range 10] = Ok spans /\
    nth_error spans 7 = Some (mkSpan 7 8 (color_style (62, 0, 0))) /\
    exact_channel 0 90 7 10 = 63 /\
    (t <- Float.int_truediv 7 10 ;; blend_channel 0 (90 - 0) t) = Ok 62.
Proof.
  intros self. eexists.
  split; [vm_compute; reflexivity | ].
  split; [reflexivity | ]. split; reflexivity.
Qed.

Lemma C3_balanced_partition_witness :
  1 <= 3 <= 10 /\
  exists chunks,
    Numpy.array_split (Numpy.arange 10) 3 = Ok chunks /\
    Z.of_nat (List.length chunks) = 3 /\
    List.concat chunks = range 10.
Proof.
  split; [lia | ].
  destruct (C3_balanced_partition 10 3 ltac:(lia))
    as (chunks & Hsplit & Hlen & Hcat & _).
  exists chunks. auto.
Defined.

Lemma C4_simplify_idempotent_witness :
  exists out,
    Gradient.simplify_spans
      [mkSpan 0 1 Style_null; mkSpan 1 2 Style_null] = Ok out /\
    Gradient.simplify_spans out = Ok out.
Proof.
  destruct (C4_simplify_idempotent
              [mkSpan 0 1 Style_null; mkSpan 1 2 Style_null]
              ltac:(discriminate)) as (out & H1 & H2 & _).
  exists out. auto.
Defined.

Lemma C6_hues_anchor_colors_witness :
  exists g,
    Gradient.__init__ sample_rgb (Gradient.Str "ABCDEFGHIJ")
      (Some [red; lime; blue; yellow; red]) false false 3 false empty_style
      None 0 = Ok g /\
    2 <= Gradient.hues g /\
    Gradient.hues g = 3.
Proof.
  destruct (Gradient.__init__ sample_rgb (Gradient.Str "ABCDEFGHIJ")
              (Some [red; lime; blue; yellow; red]) false false 3 false
              empty_style None 0) as [g | e] eqn:H.
  - exists g. split; [reflexivity | ].
    destruct (C6_hues_anchor_colors sample_rgb (Gradient.Str "ABCDEFGHIJ")
                (Some [red; lime; blue; yellow; red]) false false 3 false
                empty_style None 0 g H) as (Hh & Heq & _).
    auto.
  - vm_compute in H. discriminate H.
Defined.

(** * Further properties of the code *)

(** ** The palette of [ColorList] *)

Lemma draw_cases (start_index : Z) :
  0 <= start_index <= 9 -> In start_index (range 10).
Proof. intros H. apply range_In. lia. Qed.

(** The list of a [ColorList], for every draw. *)
Lemma color_list_spec (named_rgb : string -> Z * Z * Z)
  (start_index : Z) (invert : bool) :
  0 <= start_index <= 9 ->
  exists cl,
    ColorList.color_list named_rgb start_index invert = Ok cl /\
    List.length cl = 10%nat /\
    (forall i, 0 <= i < 10 ->
       nth_error cl (Z.to_nat i) =
       palette_color named_rgb
         (if invert then start_index - i else start_index + i)) /\
    (forall name, In name ColorList.colors ->
       count_occ string_dec (map original cl) name = 1%nat) /\
    (forall c, In c cl ->
       exists name, In name ColorList.colors /\
                    c = ColorList.Color_of_name named_rgb name).
Proof.
  intros H. apply draw_cases in H. cbn in H.
  assert (Hi : forall i, 0 <= i < 10 -> In i (range 10))
    by (intros i Hi; apply range_In; lia).
  repeat (destruct H as [<- | H]); try contradiction;
    destruct invert; eexists; (split; [vm_compute; reflexivity | ]);
    (split; [reflexivity | ]);
    (split;
     [ intros i Hr; apply Hi in Hr; cbn in Hr;
       repeat (destruct Hr as [<- | Hr]); try contradiction; reflexivity
     | split;
       [ intros name Hn; cbn in Hn;
         repeat (destruct Hn as [<- | Hn]); try contradiction; reflexivity
       | intros c Hc; cbn in Hc;
         repeat (destruct Hc as [<- | Hc]); try contradiction;
         eexists; (split; [ | reflexivity]); cbn; tauto ] ]).
Qed.

(** X1. Whatever index [randint(0, 9)] draws, [ColorList] holds ten
    colours: the palette read cyclically from the drawn index, forwards,
    or backwards when [invert] is set; so every palette name occurs
    exactly once, and no [IndexError] is raised. *)
Theorem color_list_is_rotation (named_rgb : string -> Z * Z * Z)
  (start_index : Z) (invert : bool) :
  0 <= start_index <= 9 ->
  exists cl,
    ColorList.color_list named_rgb start_index invert = Ok cl /\
    ColorListMethods.__len__ cl = 10 /\
    (forall i, 0 <= i < 10 ->
       nth_error cl (Z.to_nat i) =
       palette_color named_rgb
         (if invert then start_index - i else start_index + i)) /\
    (forall name, In name ColorList.colors ->
       count_occ string_dec (map original cl) name = 1%nat).
Proof.
  intros H.
  destruct (color_list_spec named_rgb start_index invert H)
    as (cl & Hcl & Hlen & Hnth & Hocc & _).
  exists cl. split; [exact Hcl | ].
  split; [unfold ColorListMethods.__len__; rewrite Hlen; reflexivity | ].
  split; assumption.
Qed.

Lemma color_list_is_rotation_witness :
  exists cl,
    ColorList.color_list sample_rgb 7 true = Ok cl /\
    nth_error cl 3 = palette_color sample_rgb 4.
Proof.
  destruct (color_list_is_rotation sample_rgb 7 true ltac:(lia))
    as (cl & Hcl & _ & Hnth & _).
  exists cl. split; [exact Hcl | ]. exact (Hnth 3 ltac:(lia)).
Defined.

(** X2. On the list of a [ColorList], [get_first_color] is the palette
    colour at the drawn index and [get_last_color] its cyclic
    neighbour on the other side; [reverse] turns the list into the one
    that the opposite [invert] flag gives when the last colour is
    drawn, so that first and last colour change places. *)
Theorem color_list_first_last_reverse (named_rgb : string -> Z * Z * Z)
  (start_index : Z) (invert : bool) (cl : list Color) :
  0 <= start_index <= 9 ->
  ColorList.color_list named_rgb start_index invert = Ok cl ->
  let last_index := if invert then start_index - 9 else start_index + 9 in
  (exists first last,
     palette_color named_rgb start_index = Some first /\
     palette_color named_rgb last_index = Some last /\
     ColorListMethods.get_first_color cl = Ok first /\
     ColorListMethods.get_last_color cl = Ok last /\
     ColorListMethods.get_first_color (ColorListMethods.reverse cl) = Ok last /\
     ColorListMethods.get_last_color (ColorListMethods.reverse cl) = Ok first) /\
  ColorList.color_list named_rgb (last_index mod 10) (negb invert) =
    Ok (ColorListMethods.reverse cl) /\
  ColorListMethods.reverse (ColorListMethods.reverse cl) = cl.
Proof.
  intros H Hcl. apply draw_cases in H. cbn in H.
  repeat (destruct H as [<- | H]); try contradiction;
    destruct invert; vm_compute in Hcl; injection Hcl as <-;
    (split; [do 2 eexists; repeat split; reflexivity | ]);
    split; reflexivity.
Qed.

Lemma color_list_first_last_reverse_witness :
  exists cl,
    ColorList.color_list sample_rgb 2 false = Ok cl /\
    ColorList.color_list sample_rgb (11 mod 10) true =
      Ok (ColorListMethods.reverse cl).
Proof.
  destruct (ColorList.color_list sample_rgb 2 false) as [cl | e] eqn:Hcl.
  - exists cl. split; [reflexivity | ].
    exact (proj1 (proj2 (color_list_first_last_reverse sample_rgb 2 false cl
                           ltac:(lia) Hcl))).
  - vm_compute in Hcl. discriminate Hcl.
Defined.

(** ** Compression *)

Lemma end_last (s cur : Span) (rest : list Span) (a : Z) (st : Style) :
  end_ (last rest (mkSpan a (end_ s) st)) = end_ (last (s :: rest) cur).
Proof.
  destruct rest as [ | x rest]; [reflexivity | ].
  change (last (s :: x :: rest) cur) with (last (x :: rest) cur).
  f_equal. revert x.
  induction rest as [ | y rest IH]; intros x; [reflexivity | ].
  change (last (x :: y :: rest) (mkSpan a (end_ s) st))
    with (last (y :: rest) (mkSpan a (end_ s) st)).
  change (last (x :: y :: rest) cur) with (last (y :: rest) cur).
  apply IH.
Qed.

Lemma compress_one_style (cur : Span) (rest : list Span) :
  Forall (fun s => style s = style cur) rest ->
  compress cur rest =
    [mkSpan (start cur) (end_ (last rest cur)) (style cur)].
Proof.
  revert cur. induction rest as [ | s rest IH]; intros cur Hall.
  - destruct cur; reflexivity.
  - inversion Hall as [ | ? ? Hs Hrest]; subst.
    cbn [compress].
    replace (Style_eqb (style s) (style cur)) with true
      by (symmetry; apply Style_eqb_eq; exact Hs).
    rewrite IH.
    + cbn [start style]. rewrite Hs, (end_last s cur). reflexivity.
    + cbn [style]. rewrite Hs. exact Hrest.
Qed.

(** X3. [simplify_spans] merges by style alone: it never looks at the
    positions, so spans of one style become the single span from the
    start of the first to the end of the last, whether they abut,
    overlap or leave gaps; this is so for both classes.  On the empty
    list both raise [UnboundLocalError]. *)
Theorem simplify_spans_by_style_alone (first : Span) (rest : list Span) :
  Forall (fun s => style s = style first) rest ->
  Gradient.simplify_spans (first :: rest) =
    Ok [mkSpan (start first) (end_ (last rest first)) (style first)] /\
  GradientSubstring.simplify_spans (first :: rest) =
    Ok [mkSpan (start first) (end_ (last rest first)) (style first)] /\
  Gradient.simplify_spans [] = Raise UnboundLocalError /\
  GradientSubstring.simplify_spans [] = Raise UnboundLocalError.
Proof.
  intros Hall.
  rewrite simplify_spans_same, simplify_spans_cons, simplify_spans_nil.
  rewrite (compress_one_style first rest Hall). repeat split.
Qed.

Lemma simplify_spans_by_style_alone_witness :
  Gradient.simplify_spans
    [mkSpan 0 1 Style_null; mkSpan 5 6 Style_null; mkSpan 2 3 Style_null] =
    Ok [mkSpan 0 3 Style_null].
Proof.
  apply (simplify_spans_by_style_alone (mkSpan 0 1 Style_null)
           [mkSpan 5 6 Style_null; mkSpan 2 3 Style_null]).
  repeat constructor.
Defined.

(** X4. On spans that tile a range, [simplify_spans] changes no
    character's style: the result tiles the same range, no two of its
    neighbours have equal style, and every position has the style it
    had before. *)
Theorem simplify_spans_keeps_styles (a b : Z) (spans : list Span) :
  a < b -> tiles a b spans ->
  exists out,
    Gradient.simplify_spans spans = Ok out /\
    tiles a b out /\
    no_adjacent_equal out /\
    (List.length out <= List.length spans)%nat /\
    forall i, style_at out i = style_at spans i.
Proof.
  intros Hab Ht.
  destruct spans as [ | first rest]; [cbn in Ht; lia | ].
  exists (compress first rest).
  split; [apply simplify_spans_cons | ].
  split; [apply compress_tiles; exact Ht | ].
  split; [apply compress_no_adjacent_equal | ].
  split.
  - clear. revert first.
    induction rest as [ | s rest IH]; intros first; [cbn; lia | ].
    cbn [compress]. destruct (Style_eqb (style s) (style first)).
    + specialize (IH (mkSpan (start first) (end_ s) (style s))).
      cbn [List.length] in *. lia.
    + specialize (IH s). cbn [List.length] in *. lia.
  - intros i. eapply compress_style_at. exact Ht.
Qed.

Lemma simplify_spans_keeps_styles_witness :
  exists out,
    Gradient.simplify_spans
      [mkSpan 0 1 Style_null; mkSpan 1 2 Style_null;
       mkSpan 2 4 (color_style (1, 2, 3))] = Ok out /\
    tiles 0 4 out /\
    style_at out 1 = Some Style_null.
Proof.
  destruct (simplify_spans_keeps_styles 0 4
              [mkSpan 0 1 Style_null; mkSpan 1 2 Style_null;
               mkSpan 2 4 (color_style (1, 2, 3))])
    as (out & Hout & Ht & _ & _ & Hs).
  - lia.
  - cbn. lia.
  - exists out. split; [exact Hout | ]. split; [exact Ht | ].
    rewrite Hs. reflexivity.
Defined.

(** ** The setters *)

Lemma strip_control_codes_sanitized (text : string) :
  sanitized (strip_control_codes text) = true.
Proof.
  unfold sanitized. induction text as [ | c rest IH]; [reflexivity | ].
  cbn [strip_control_codes]. destruct (is_control c) eqn:Hc; [exact IH | ].
  cbn [list_ascii_of_string forallb]. rewrite Hc. exact IH.
Qed.

Lemma strip_control_codes_fixed (text : string) :
  sanitized text = true -> strip_control_codes text = text.
Proof.
  unfold sanitized. induction text as [ | c rest IH]; [reflexivity | ].
  cbn [list_ascii_of_string forallb strip_control_codes].
  intros H. apply andb_true_iff in H as [Hc Hrest].
  apply negb_true_iff in Hc. rewrite Hc, IH by exact Hrest. reflexivity.
Qed.

Lemma strip_control_codes_length (text : string) :
  (String.length (strip_control_codes text) <= String.length text)%nat.
Proof.
  induction text as [ | c rest IH]; [cbn; lia | ].
  cbn [strip_control_codes]. destruct (is_control c); cbn [String.length]; lia.
Qed.

Lemma strip_control_codes_all (text : string) :
  forallb is_control (list_ascii_of_string text) = true ->
  strip_control_codes text = EmptyString.
Proof.
  induction text as [ | c rest IH]; [reflexivity | ].
  cbn [list_ascii_of_string forallb strip_control_codes].
  intros H. apply andb_true_iff in H as [Hc Hrest].
  rewrite Hc. apply IH. exact Hrest.
Qed.

(** X5. The [text] setter rejects exactly the empty string.  Any other
    string is stored without its control codes, with [_length] the
    number of characters kept; the check comes before the codes are
    stripped, so a text made of control codes only is accepted and
    leaves length 0.  Colours, hues, style and spans stay as they were:
    the spans are not computed again.  Storing the stored text again
    changes nothing. *)
Theorem set_text_str (self : Gradient.Self) (s : string) :
  (s = EmptyString ->
   Gradient.set_text self (Gradient.Str s) =
     Raise (ValueError "Text cannot be empty.")) /\
  (s <> EmptyString ->
   exists self',
     Gradient.set_text self (Gradient.Str s) = Ok self' /\
     Gradient._text self' = strip_control_codes s /\
     sanitized (Gradient._text self') = true /\
     Gradient._length self' =
       Z.of_nat (String.length (Gradient._text self')) /\
     Gradient._length self' <= Z.of_nat (String.length s) /\
     Gradient.hues self' = Gradient.hues self /\
     Gradient._style self' = Gradient._style self /\
     Gradient._colors self' = Gradient._colors self /\
     Gradient._spans self' = Gradient._spans self /\
     (forallb is_control (list_ascii_of_string s) = true ->
      Gradient._length self' = 0) /\
     (Gradient._text self' <> EmptyString ->
      Gradient.set_text self' (Gradient.Str (Gradient._text self')) =
        Ok self')).
Proof.
  split.
  - intros ->. reflexivity.
  - intros Hne. unfold Gradient.set_text.
    destruct (String.eqb s EmptyString) eqn:He;
      [apply String.eqb_eq in He; contradiction | ].
    eexists. split; [reflexivity | ]. cbn.
    split; [reflexivity | ].
    split; [apply strip_control_codes_sanitized | ].
    split; [reflexivity | ].
    split; [pose proof (strip_control_codes_length s); lia | ].
    repeat (split; [reflexivity | ]).
    split.
    + intros Hall. rewrite (strip_control_codes_all s Hall). reflexivity.
    + intros Hne'.
      destruct (String.eqb (strip_control_codes s) EmptyString) eqn:He';
        [apply String.eqb_eq in He'; contradiction | ].
      rewrite (strip_control_codes_fixed (strip_control_codes s))
        by apply strip_control_codes_sanitized.
      reflexivity.
Qed.

Lemma set_text_str_witness :
  let self := Gradient.mkSelf "ABCD" 4 3 Style_null [red; lime; blue] [] in
  let cr := String (ascii_of_nat 13) EmptyString in
  exists self',
    Gradient.set_text self (Gradient.Str cr) = Ok self' /\
    Gradient._length self' = 0.
Proof.
  intros self cr.
  destruct (proj2 (set_text_str self cr) ltac:(discriminate))
    as (self' & Hset & _ & _ & _ & _ & _ & _ & _ & _ & Hall & _).
  exists self'. split; [exact Hset | ]. apply Hall. reflexivity.
Defined.

Lemma block_text_length (n : Z) :
  String.length (Gradient.block_text n) = Z.to_nat n.
Proof.
  unfold Gradient.block_text.
  induction (Z.to_nat n) as [ | k IH]; [reflexivity | ].
  cbn [repeat string_of_list_ascii String.length]. rewrite IH. reflexivity.
Qed.

Lemma block_text_sanitized (n : Z) :
  sanitized (Gradient.block_text n) = true.
Proof.
  unfold sanitized, Gradient.block_text.
  induction (Z.to_nat n) as [ | k IH]; [reflexivity | ].
  cbn [repeat string_of_list_ascii list_ascii_of_string forallb].
  rewrite IH. reflexivity.
Qed.

(** X6. The [color_sample] setter, given [True], replaces the text of
    a gradient of [n >= 1] characters by [n] blocks and keeps the
    length, colours, hues, style and spans; on a gradient of length 0
    it raises the setter's [ValueError], because the block string is
    then empty.  Given [False] it changes nothing. *)
Theorem set_color_sample_blocks (self : Gradient.Self) :
  GradientMethods.set_color_sample self false = Ok (self, false) /\
  (Gradient._length self <= 0 ->
   GradientMethods.set_color_sample self true =
     Raise (ValueError "Text cannot be empty.")) /\
  (1 <= Gradient._length self ->
   GradientMethods.set_color_sample self true =
     Ok (Gradient.mkSelf (Gradient.block_text (Gradient._length self))
           (Gradient._length self) (Gradient.hues self)
           (Gradient._style self) (Gradient._colors self)
           (Gradient._spans self), true) /\
   String.length (Gradient.block_text (Gradient._length self)) =
     Z.to_nat (Gradient._length self)).
Proof.
  split; [reflexivity | ]. split.
  - intros Hn. unfold GradientMethods.set_color_sample, Gradient.set_text.
    unfold Gradient.block_text.
    replace (Z.to_nat (Gradient._length self)) with 0%nat by lia.
    reflexivity.
  - intros Hn. split; [ | apply block_text_length].
    unfold GradientMethods.set_color_sample, Gradient.set_text.
    destruct (String.eqb (Gradient.block_text (Gradient._length self))
                EmptyString) eqn:He.
    + apply String.eqb_eq in He.
      pose proof (block_text_length (Gradient._length self)) as Hl.
      rewrite He in Hl. cbn in Hl. lia.
    + rewrite (strip_control_codes_fixed _
                 (block_text_sanitized (Gradient._length self))).
      rewrite block_text_length. cbn [bind].
      rewrite Z2Nat.id by lia. reflexivity.
Qed.

Lemma set_color_sample_blocks_witness :
  let self := Gradient.mkSelf "ABCD" 4 3 Style_null [red; lime; blue] [] in
  exists self',
    GradientMethods.set_color_sample self true = Ok (self', true) /\
    String.length (Gradient._text self') = 4%nat.
Proof.
  intros self.
  destruct (proj2 (proj2 (set_color_sample_blocks self)) ltac:(cbn; lia))
    as [Hset Hlen].
  eexists. split; [exact Hset | exact Hlen].
Defined.

(** ** [generate_indexes], [gradient_size] and the partition *)

Lemma section_zero_nonempty (N k : Z) :
  1 <= N -> 1 <= k -> exists first rest, section N k 0 = first :: rest.
Proof.
  intros HN Hk.
  pose proof (section_length N k 0 ltac:(lia) Hk ltac:(lia)) as Hl.
  assert (1 <= Z.of_nat (List.length (section N k 0))).
  { rewrite Hl. destruct (Z.ltb_spec 0 (N mod k)) as [Hm | Hm].
    - pose proof (Z.div_pos N k ltac:(lia) ltac:(lia)). lia.
    - pose proof (Z.mod_pos_bound N k ltac:(lia)).
      assert (N mod k = 0) by lia.
      assert (N = k * (N / k)) by (pose proof (Z.div_mod N k ltac:(lia)); lia).
      assert (0 < N / k) by nia. lia. }
  destruct (section N k 0) as [ | first rest]; [cbn in *; lia | ].
  eauto.
Qed.

Lemma getitem_last_nonempty {A : Type} (x : A) (xs : list A) :
  exists y, getitem (x :: xs) (-1) = Ok y.
Proof.
  unfold getitem.
  replace (-1 <? 0) with true by reflexivity.
  destruct (Z.ltb_spec (-1 + Z.of_nat (List.length (x :: xs))) 0) as [H | H];
    [cbn [List.length] in H; lia | ].
  destruct (nth_error (x :: xs)
              (Z.to_nat (-1 + Z.of_nat (List.length (x :: xs))))) eqn:Hn;
    [eauto | ].
  apply nth_error_None in Hn. cbn [List.length] in *. lia.
Qed.

(** X7. [generate_indexes] never returns.  With [hues <= 1] numpy
    rejects the number of sections; with at least one section and an
    empty text the first substring is empty and [substring[0]] raises
    [IndexError]; in every other case the first round of the loop
    calls [tuple(start, end)], which raises [TypeError]. *)
Theorem generate_indexes_never_returns (self : Gradient.Self) :
  GradientMethods.generate_indexes self =
    if Gradient.hues self - 1 <=? 0
    then Raises (ValueError "number sections must be larger than 0.")
    else if Gradient._length self <=? 0
         then Raises IndexError
         else RaisesTypeError "tuple expected at most 1 argument, got 2".
Proof.
  unfold GradientMethods.generate_indexes.
  destruct (Z.leb_spec (Gradient.hues self - 1) 0) as [Hk | Hk].
  - unfold Numpy.array_split.
    destruct (Z.leb_spec (Gradient.hues self - 1) 0); [reflexivity | lia].
  - destruct (Z.leb_spec (Gradient._length self) 0) as [HN | HN].
    + assert (Ha : Numpy.arange (Gradient._length self) = Numpy.arange 0).
      { unfold Numpy.arange, range.
        replace (Z.to_nat (Gradient._length self)) with (Z.to_nat 0) by lia.
        reflexivity. }
      rewrite Ha, array_split_arange by lia.
      replace (Gradient.hues self - 1)
        with ((Gradient.hues self - 2) + 1) by lia.
      rewrite range_succ by lia.
      assert (Hr : exists tl, range (Gradient.hues self - 2) ++
                              [Gradient.hues self - 2] = 0 :: tl).
      { destruct (Z.eq_dec (Gradient.hues self - 2) 0) as [-> | Hne].
        - exists []. reflexivity.
        - unfold range.
          destruct (Z.to_nat (Gradient.hues self - 2)) eqn:Hz; [lia | ].
          cbn [seq map app]. eauto. }
      destruct Hr as [tl ->]. cbn [map GradientMethods.generate_indexes_loop].
      unfold section, div_point.
      rewrite !Z.div_0_l, !Z.mod_0_l by lia. cbn. reflexivity.
    + rewrite array_split_arange by lia.
      replace (Gradient.hues self - 1)
        with ((Gradient.hues self - 2) + 1) at 2 by lia.
      rewrite range_succ by lia.
      assert (Hr : exists tl, range (Gradient.hues self - 2) ++
                              [Gradient.hues self - 2] = 0 :: tl).
      { destruct (Z.eq_dec (Gradient.hues self - 2) 0) as [-> | Hne].
        - exists []. reflexivity.
        - unfold range.
          destruct (Z.to_nat (Gradient.hues self - 2)) eqn:Hz; [lia | ].
          cbn [seq map app]. eauto. }
      destruct Hr as [tl ->]. cbn [map GradientMethods.generate_indexes_loop].
      destruct (section_zero_nonempty (Gradient._length self)
                  (Gradient.hues self - 1) ltac:(lia) ltac:(lia))
        as (first & rest & ->).
      destruct (getitem_last_nonempty first rest) as [y ->].
      reflexivity.
Qed.

(** X8. [gradient_size] raises [ZeroDivisionError] when [hues] is 1.
    With [hues >= 2] it is the size of the smaller substrings of
    [_substring_indexes]: every substring has [gradient_size]
    indexes, or one more for the first [length mod (hues - 1)] of
    them. *)
Theorem gradient_size_of_substrings (self : Gradient.Self) :
  (Gradient.hues self = 1 ->
   Gradient.gradient_size self = Raise ZeroDivisionError) /\
  (2 <= Gradient.hues self -> 0 <= Gradient._length self ->
   exists size indexes,
     Gradient.gradient_size self = Ok size /\
     Gradient._substring_indexes self = Ok indexes /\
     Z.of_nat (List.length indexes) = Gradient.hues self - 1 /\
     size * (Gradient.hues self - 1) <= Gradient._length self
       < (size + 1) * (Gradient.hues self - 1) /\
     forall i substring,
       nth_error indexes i = Some substring ->
       Z.of_nat (List.length substring) =
       size + (if Z.of_nat i <?
                    Gradient._length self - size * (Gradient.hues self - 1)
               then 1 else 0)).
Proof.
  split.
  - intros H1. unfold Gradient.gradient_size, floordiv. rewrite H1.
    reflexivity.
  - intros Hh HN.
    set (N := Gradient._length self) in *.
    set (k := Gradient.hues self - 1) in *.
    exists (N / k), (map (section N k) (range k)).
    split.
    { unfold Gradient.gradient_size, floordiv. fold N k.
      destruct (Z.eqb_spec k 0); [lia | reflexivity]. }
    split.
    { unfold Gradient._substring_indexes. fold N k.
      apply array_split_arange; lia. }
    split; [rewrite length_map, range_length; lia | ].
    pose proof (Z.div_mod N k ltac:(lia)) as Hdm.
    pose proof (Z.mod_pos_bound N k ltac:(lia)) as Hmb.
    split; [nia | ].
    intros i substring Hi.
    apply sections_nth_inv in Hi as [Hlt ->].
    rewrite section_length by lia.
    replace (N - N / k * k) with (N mod k) by lia. reflexivity.
Qed.

Lemma gradient_size_of_substrings_witness :
  let self := Gradient.mkSelf "ABCDEFG" 7 4 Style_null
                [red; lime; blue; yellow] [] in
  exists size indexes,
    Gradient.gradient_size self = Ok size /\
    Gradient._substring_indexes self = Ok indexes /\
    size * 3 <= 7 < (size + 1) * 3.
Proof.
  intros self.
  destruct (proj2 (gradient_size_of_substrings self)
              ltac:(cbn; lia) ltac:(cbn; lia))
    as (size & indexes & Hs & Hi & _ & Hb & _).
  exists size, indexes. split; [exact Hs | ]. split; [exact Hi | exact Hb].
Defined.

(** X9. [_substring_indexes] on a text shorter than the number of
    segments: the first [length] substrings hold one index each and
    the others are empty.  With [hues <= 1] there is no segment and
    numpy's [ValueError] comes out. *)
Theorem substring_indexes_short_text (self : Gradient.Self) :
  (Gradient.hues self <= 1 ->
   Gradient._substring_indexes self =
     Raise (ValueError "number sections must be larger than 0.")) /\
  (0 <= Gradient._length self < Gradient.hues self - 1 ->
   exists indexes,
     Gradient._substring_indexes self = Ok indexes /\
     Z.of_nat (List.length indexes) = Gradient.hues self - 1 /\
     forall i, 0 <= i < Gradient.hues self - 1 ->
       nth_error indexes (Z.to_nat i) =
       Some (if i <? Gradient._length self then [i] else [])).
Proof.
  split.
  - intros Hh. unfold Gradient._substring_indexes, Numpy.array_split.
    destruct (Z.leb_spec (Gradient.hues self - 1) 0); [reflexivity | lia].
  - intros HN.
    set (N := Gradient._length self) in *.
    set (k := Gradient.hues self - 1) in *.
    exists (map (section N k) (range k)).
    split.
    { unfold Gradient._substring_indexes. fold N k.
      apply array_split_arange; lia. }
    split; [rewrite length_map, range_length; lia | ].
    intros i Hi.
    rewrite sections_nth_error by lia. rewrite Z2Nat.id by lia.
    f_equal. unfold section, div_point.
    rewrite Z.div_small, Z.mod_small by lia.
    destruct (Z.ltb_spec i N) as [Hlt | Hge].
    + replace (Z.min (i + 1) N) with (i + 1) by lia.
      replace (Z.min i N) with i by lia.
      replace ((i + 1) * 0 + (i + 1) - (i * 0 + i)) with 1 by lia.
      change (range 1) with [0]. cbn [map]. f_equal. lia.
    + replace (Z.min (i + 1) N) with N by lia.
      replace (Z.min i N) with N by lia.
      replace ((i + 1) * 0 + N - (i * 0 + N)) with 0 by lia.
      reflexivity.
Qed.

Lemma substring_indexes_short_text_witness :
  let self := Gradient.mkSelf "AB" 2 5 Style_null [] [] in
  exists indexes,
    Gradient._substring_indexes self = Ok indexes /\
    nth_error indexes 1 = Some [1] /\ nth_error indexes 3 = Some [].
Proof.
  intros self.
  destruct (proj2 (substring_indexes_short_text self) ltac:(cbn; lia))
    as (indexes & Hi & _ & Hn).
  exists indexes. split; [exact Hi | ].
  split; [exact (Hn 1 ltac:(cbn; lia)) | exact (Hn 3 ltac:(cbn; lia))].
Defined.

(** ** When the construction succeeds *)

Lemma map_result_first_Raise {A B : Type} (f : A -> Result B)
  (pre : list A) (x : A) (post : list A) (e : Exception) :
  (forall y, In y pre -> exists z, f y = Ok z) ->
  f x = Raise e ->
  map_result f (pre ++ x :: post) = Raise e.
Proof.
  induction pre as [ | y pre IH]; intros Hpre Hx.
  - cbn [app map_result]. rewrite Hx. reflexivity.
  - destruct (Hpre y (or_introl eq_refl)) as [z Hz].
    cbn [app map_result]. rewrite Hz. cbn [bind].
    rewrite IH; [reflexivity | | exact Hx].
    intros w Hw. apply Hpre. right. exact Hw.
Qed.

(** With fewer than [hues] valid colours the first pair that is not
    there stops the synthesis with [IndexError]. *)
Lemma substring_spans_IndexError (self : Gradient.Self) (N : Z) :
  forallb valid_color (Gradient._colors self) = true ->
  1 <= Z.of_nat (List.length (Gradient._colors self)) < Gradient.hues self ->
  Gradient._substring_spans self
    (map (section N (Gradient.hues self - 1))
         (range (Gradient.hues self - 1))) = Raise IndexError.
Proof.
  intros Hv Hc.
  set (K := Gradient.hues self - 1) in *.
  set (n := Z.of_nat (List.length (Gradient._colors self))) in *.
  rewrite substring_spans_parts
    by (rewrite length_map, range_length; unfold K; lia).
  rewrite enumerate_sections.
  rewrite <- (range_app (n - 1) K) by lia.
  assert (Hr : exists tl, range (K - (n - 1)) = 0 :: tl).
  { unfold range. destruct (Z.to_nat (K - (n - 1))) eqn:Hz; [lia | ].
    cbn [seq map]. eauto. }
  destruct Hr as [tl ->]. cbn [map]. rewrite map_app. cbn [map].
  rewrite (map_result_first_Raise _ _ _ _ IndexError); [reflexivity | | ].
  - intros [k chunk] Hin. apply in_map_iff in Hin as (i & [= <- <-] & Hi).
    apply range_In in Hi.
    apply chunk_spans_Ok; [exact Hv | lia | fold n; lia].
  - unfold chunk_spans, Gradient.pair_vars.
    replace (n - 1 + 0) with (n - 1) by lia.
    destruct (nth_error (Gradient._colors self) (Z.to_nat (n - 1)))
      as [color1 | ] eqn:H1; [ | apply nth_error_None in H1; lia].
    rewrite (proj2 (getitem_nth _ (n - 1) color1 ltac:(lia)) H1).
    cbn [bind]. destruct (rgb_tuple color1) as [[r1 g1] b1].
    rewrite getitem_short by (fold n; lia). reflexivity.
Qed.

Section Success.

Variable named_rgb : string -> Z * Z * Z.

(** What [__init__] does once the checks on the colours have passed. *)
Lemma init_after_checks (text : Gradient.TextArg)
  (colors : option (list Color)) (rainbow invert : bool) (hues : Z)
  (color_sample : bool) (style : Gradient.StyleArg) (spans : option (list Span))
  (start_index : Z) (self : Gradient.Self) :
  Gradient.init_state named_rgb text colors rainbow invert hues color_sample
    style spans start_index = Ok self ->
  forallb valid_color (Gradient._colors self) = true ->
  (Gradient.hues self <= 1 ->
   Gradient.__init__ named_rgb text colors rainbow invert hues color_sample
     style spans start_index =
     Raise (ValueError "number sections must be larger than 0.")) /\
  (Z.of_nat (List.length (Gradient._colors self)) < Gradient.hues self ->
   Gradient.__init__ named_rgb text colors rainbow invert hues color_sample
     style spans start_index = Raise IndexError) /\
  (2 <= Gradient.hues self <= Z.of_nat (List.length (Gradient._colors self)) ->
   exists simplified,
     Gradient.__init__ named_rgb text colors rainbow invert hues color_sample
       style spans start_index =
     Ok (Gradient.mkSelf (Gradient._text self) (Gradient._length self)
           (Gradient.hues self) (Gradient._style self)
           (Gradient._colors self) simplified)).
Proof.
  intros Hstate Hv.
  destruct (init_state_inv named_rgb _ _ _ _ _ _ _ _ _ _ Hstate)
    as ((s & _ & HN) & Hc & _).
  assert (0 <= Gradient._length self) by lia.
  unfold Gradient.__init__. rewrite Hstate. cbn [bind].
  split; [ | split].
  - intros Hh. unfold Gradient._substring_indexes, Numpy.array_split.
    destruct (Z.leb_spec (Gradient.hues self - 1) 0); [reflexivity | lia].
  - intros Hlt. unfold Gradient._substring_indexes.
    rewrite array_split_arange by lia. cbn [bind].
    rewrite substring_spans_IndexError by (try exact Hv; lia). reflexivity.
  - intros Hh. unfold Gradient._substring_indexes.
    rewrite array_split_arange by lia. cbn [bind].
    destruct (substring_spans_Ok self
                (map (section (Gradient._length self) (Gradient.hues self - 1))
                     (range (Gradient.hues self - 1)))) as [pre Hpre];
      [exact Hv | | | ].
    + rewrite length_map, range_length. lia.
    + rewrite length_map, range_length. lia.
    + rewrite Hpre. cbn [bind].
      pose proof (pre_spans_unit self pre ltac:(lia) ltac:(lia) Hpre) as Hu.
      apply unit_spans_range in Hu as (Hlen & _).
      destruct pre as [ | first rest]; [cbn in Hlen; lia | ].
      rewrite simplify_spans_cons. cbn [bind]. eauto.
Qed.

End Success.

Lemma set_style_Ok (style : Gradient.StyleArg) (parsed : Style) :
  Gradient.set_style style = Ok parsed ->
  style = Gradient.StyleDefinition (Some parsed).
Proof.
  destruct style as [ | obj | [p | ]]; cbn; intros H;
    try discriminate H.
  injection H as ->. reflexivity.
Qed.

(** X10. With an explicit list of 8-bit colours the construction
    succeeds exactly under the conditions the code reads: a [str]
    text, a style given as a string that parses, at least two colours,
    fewer colours than characters of the sanitized text, and
    [2 <= hues <= len(colors)] (with [rainbow], hues is 10).  The
    instance then keeps the whole list, the parsed style and the
    sanitized text, or blocks for a colour sample.  A style that is
    not a string, such as the default [Style.null()], raises
    [AttributeError] in the style setter. *)
Theorem init_succeeds_explicit (named_rgb : string -> Z * Z * Z)
  (s : string) (colors : list Color) (rainbow invert : bool) (hues : Z)
  (color_sample : bool) (parsed : Style) (spans : option (list Span))
  (start_index : Z) :
  forallb valid_color colors = true ->
  (2 <= (if rainbow then 10 else hues) <= Z.of_nat (List.length colors) ->
   (List.length colors < String.length (strip_control_codes s))%nat ->
   exists g,
     Gradient.__init__ named_rgb (Gradient.Str s) (Some colors) rainbow invert
       hues color_sample (Gradient.StyleDefinition (Some parsed)) spans
       start_index = Ok g /\
     Gradient._colors g = colors /\
     Gradient.hues g = (if rainbow then 10 else hues) /\
     Gradient._style g = parsed /\
     Gradient._length g = Z.of_nat (String.length (strip_control_codes s)) /\
     Gradient._text g =
       (if color_sample then Gradient.block_text (Gradient._length g)
        else strip_control_codes s)) /\
  (forall text style g,
     Gradient.__init__ named_rgb text (Some colors) rainbow invert hues
       color_sample style spans start_index = Ok g ->
     exists s',
       text = Gradient.Str s' /\
       style = Gradient.StyleDefinition (Some (Gradient._style g)) /\
       2 <= (if rainbow then 10 else hues) <= Z.of_nat (List.length colors) /\
       (List.length colors < String.length (strip_control_codes s'))%nat) /\
  (forall text obj,
     Gradient.__init__ named_rgb (Gradient.Str text) (Some colors) rainbow
       invert hues color_sample (Gradient.StyleInstance obj) spans
       start_index = Raise AttributeError).
Proof.
  intros Hv. split; [ | split; [ | reflexivity]].
  - intros Hh Hlen.
    set (N := Z.of_nat (String.length (strip_control_codes s))).
    set (h := if rainbow then 10 else hues) in *.
    assert (Hstate :
      Gradient.init_state named_rgb (Gradient.Str s) (Some colors) rainbow
        invert hues color_sample (Gradient.StyleDefinition (Some parsed))
        spans start_index =
      Ok (Gradient.mkSelf
            (if color_sample then Gradient.block_text N
             else strip_control_codes s)
            N h parsed colors (match spans with None => [] | Some l => l end))).
    { unfold Gradient.init_state. cbn [bind Gradient.set_style].
      destruct colors as [ | c cs]; [cbn in Hh; lia | ]. cbn [bind].
      destruct (Z.ltb_spec 1 (Z.of_nat (List.length (c :: cs)))); [ | lia].
      cbn [negb].
      destruct (Z.ltb_spec (Z.of_nat (List.length (c :: cs)))
                  (Z.of_nat (String.length (strip_control_codes s))));
        [ | lia].
      reflexivity. }
    destruct (init_after_checks named_rgb _ _ _ _ _ _ _ _ _ _ Hstate Hv)
      as (_ & _ & Hok).
    destruct (Hok ltac:(cbn; lia)) as [simplified Hg].
    eexists. split; [exact Hg | ]. cbn. repeat split.
  - intros text style g Hg.
    destruct (init_hues_bounds named_rgb _ _ _ _ _ _ _ _ _ _ Hg)
      as (Hh & Hc & Hcs).
    destruct (init_inv named_rgb _ _ _ _ _ _ _ _ _ _ Hg)
      as (self & pre & Hstate & _ & _ & _ & _ & _ & HL & HH & _ & _).
    destruct (init_state_inv named_rgb _ _ _ _ _ _ _ _ _ _ Hstate)
      as ((s' & Hs' & HN) & _ & Hhues & _).
    rewrite (Hcs colors eq_refl) in Hh, Hc.
    exists s'. split; [exact Hs' | ].
    split; [apply set_style_Ok, (init_style named_rgb _ _ _ _ _ _ _ _ _ _ Hg) | ].
    rewrite HH, Hhues in Hh. split; [exact Hh | ].
    rewrite HL, HN in Hc. lia.
Qed.

Lemma init_succeeds_explicit_witness :
  exists g,
    Gradient.__init__ sample_rgb (Gradient.Str "ABCDE") (Some [red; lime; blue])
      false false 2 true empty_style None 0 = Ok g /\
    Gradient._colors g = [red; lime; blue] /\
    Gradient.hues g = 2.
Proof.
  destruct (proj1 (init_succeeds_explicit sample_rgb "ABCDE"
                     [red; lime; blue] false false 2 true Style_null None 0
                     eq_refl))
    as (g & Hg & Hc & Hh & _);
    [cbn; lia | apply Nat.ltb_lt; reflexivity | ].
  exists g. split; [exact Hg | ]. split; [exact Hc | exact Hh].
Defined.

(** X11. After the style setter and the two assertions on the number
    of colours have passed, [hues] decides: with [hues <= 1] numpy's
    [ValueError] about the number of sections comes out, and with more
    hues than colours an [IndexError] from the colour list.  So two
    colours with the default [hues = 3] and a style string that parses
    raise [IndexError]. *)
Theorem init_hues_errors (named_rgb : string -> Z * Z * Z)
  (text : Gradient.TextArg) (colors : option (list Color))
  (rainbow invert : bool) (hues : Z) (color_sample : bool) (style : Gradient.StyleArg)
  (spans : option (list Span)) (start_index : Z) (self : Gradient.Self) :
  Gradient.init_state named_rgb text colors rainbow invert hues color_sample
    style spans start_index = Ok self ->
  forallb valid_color (Gradient._colors self) = true ->
  (Gradient.hues self <= 1 ->
   Gradient.__init__ named_rgb text colors rainbow invert hues color_sample
     style spans start_index =
     Raise (ValueError "number sections must be larger than 0.")) /\
  (Z.of_nat (List.length (Gradient._colors self)) < Gradient.hues self ->
   Gradient.__init__ named_rgb text colors rainbow invert hues color_sample
     style spans start_index = Raise IndexError).
Proof.
  intros Hstate Hv.
  destruct (init_after_checks named_rgb _ _ _ _ _ _ _ _ _ _ Hstate Hv)
    as (H1 & H2 & _).
  split; assumption.
Qed.

Lemma init_hues_errors_witness :
  Gradient.__init__ sample_rgb (Gradient.Str "ABCDE") (Some [red; blue])
    false false 3 false empty_style None 0 = Raise IndexError.
Proof.
  destruct (Gradient.init_state sample_rgb (Gradient.Str "ABCDE")
              (Some [red; blue]) false false 3 false empty_style None 0)
    as [self | e] eqn:Hstate.
  - assert (Hs := Hstate). vm_compute in Hs. injection Hs as <-.
    apply (init_hues_errors _ _ _ _ _ _ _ _ _ _ _ Hstate);
      [reflexivity | cbn; lia].
  - vm_compute in Hstate. discriminate Hstate.
Defined.

(** ** The default palette *)

Lemma slice_prefix {A : Type} (xs : list A) (n : Z) :
  0 <= n <= Z.of_nat (List.length xs) ->
  slice xs 0 n = firstn (Z.to_nat n) xs.
Proof.
  intros Hn. unfold slice.
  destruct (Z.ltb_spec n 0); [lia | ].
  replace (0 <? 0) with false by reflexivity.
  replace (Z.min 0 (Z.of_nat (List.length xs))) with 0 by lia.
  replace (Z.min n (Z.of_nat (List.length xs))) with n by lia.
  rewrite Z.sub_0_r. reflexivity.
Qed.

Lemma forallb_firstn {A : Type} (p : A -> bool) (xs : list A) (n : nat) :
  forallb p xs = true -> forallb p (firstn n xs) = true.
Proof.
  intros H. apply forallb_forall. intros x Hx.
  apply (proj1 (forallb_forall p xs) H).
  rewrite <- (firstn_skipn n xs). apply in_or_app. left. exact Hx.
Qed.

Lemma nth_error_firstn_lt {A : Type} (xs : list A) (n i : nat) :
  (i < n)%nat -> nth_error (firstn n xs) i = nth_error xs i.
Proof.
  revert xs i. induction n as [ | n IH]; intros xs i Hi; [lia | ].
  destruct xs as [ | x xs]; [destruct i; reflexivity | ].
  destruct i as [ | i]; [reflexivity | ].
  cbn [firstn nth_error]. apply IH. lia.
Qed.

(** X12. Without a colour list, and with a style given as a string
    that parses, the gradient takes the first [hues] colours of the
    [ColorList] palette ([rainbow] sets hues to 10).  For
    [2 <= hues <= 10] the construction succeeds exactly when the
    sanitized text has more than [hues] characters, and fails the
    assertion on the number of colours otherwise: the default
    [hues = 3] needs 4 characters, a rainbow needs 11.  With a style
    that is not a string, such as the default [Style.null()], it
    raises [AttributeError] whatever the text. *)
Theorem init_default_palette (named_rgb : string -> Z * Z * Z)
  (s : string) (rainbow invert : bool) (hues : Z) (color_sample : bool)
  (parsed : Style) (spans : option (list Span)) (start_index : Z) :
  valid_palette named_rgb = true ->
  0 <= start_index <= 9 ->
  2 <= (if rainbow then 10 else hues) <= 10 ->
  let h := if rainbow then 10 else hues in
  let N := Z.of_nat (String.length (strip_control_codes s)) in
  (h < N ->
   exists g,
     Gradient.__init__ named_rgb (Gradient.Str s) None rainbow invert hues
       color_sample (Gradient.StyleDefinition (Some parsed)) spans
       start_index = Ok g /\
     Gradient.hues g = h /\ Gradient._length g = N /\
     Gradient._style g = parsed /\
     Z.of_nat (List.length (Gradient._colors g)) = h /\
     forall i, 0 <= i < h ->
       nth_error (Gradient._colors g) (Z.to_nat i) =
       palette_color named_rgb
         (if invert then start_index - i else start_index + i)) /\
  (N <= h ->
   Gradient.__init__ named_rgb (Gradient.Str s) None rainbow invert hues
     color_sample (Gradient.StyleDefinition (Some parsed)) spans
     start_index =
   Raise (AssertionError "Gradient must have fewer colors than characters.")) /\
  (forall obj,
     Gradient.__init__ named_rgb (Gradient.Str s) None rainbow invert hues
       color_sample (Gradient.StyleInstance obj) spans start_index =
     Raise AttributeError).
Proof.
  intros Hpal Hstart Hh h N. fold h in Hh.
  destruct (color_list_spec named_rgb start_index invert Hstart)
    as (palette & Hcl & Hlen & Hnth & _ & Hin).
  assert (Hvalid : forallb valid_color palette = true).
  { apply forallb_forall. intros c Hc.
    destruct (Hin c Hc) as (name & Hname & ->).
    exact (proj1 (forallb_forall _ _) Hpal name Hname). }
  assert (Hslice : slice palette 0 h = firstn (Z.to_nat h) palette)
    by (apply slice_prefix; lia).
  assert (Hcount : Z.of_nat (List.length (firstn (Z.to_nat h) palette)) = h)
    by (rewrite length_firstn; lia).
  split; [ | split; [ | reflexivity]].
  - intros HN.
    assert (Hstate :
      Gradient.init_state named_rgb (Gradient.Str s) None rainbow invert hues
        color_sample (Gradient.StyleDefinition (Some parsed)) spans
        start_index =
      Ok (Gradient.mkSelf
            (if color_sample then Gradient.block_text N
             else strip_control_codes s)
            N h parsed (firstn (Z.to_nat h) palette)
            (match spans with None => [] | Some l => l end))).
    { unfold Gradient.init_state. cbn [bind Gradient.set_style].
      rewrite Hcl. cbn [bind].
      fold h N. rewrite Hslice.
      destruct (Z.ltb_spec 1 (Z.of_nat (List.length
                  (firstn (Z.to_nat h) palette)))); [ | lia].
      cbn [negb].
      destruct (Z.ltb_spec (Z.of_nat (List.length
                  (firstn (Z.to_nat h) palette))) N); [ | lia].
      reflexivity. }
    destruct (init_after_checks named_rgb _ _ _ _ _ _ _ _ _ _ Hstate
                (forallb_firstn _ _ _ Hvalid)) as (_ & _ & Hok).
    destruct (Hok ltac:(cbn [Gradient.hues Gradient._colors]; lia))
      as [simplified Hg].
    eexists. split; [exact Hg | ]. cbn.
    split; [reflexivity | ]. split; [reflexivity | ].
    split; [reflexivity | ]. split; [exact Hcount | ].
    intros i Hi. rewrite nth_error_firstn_lt by lia. apply Hnth. lia.
  - intros HN. unfold Gradient.__init__, Gradient.init_state.
    cbn [bind Gradient.set_style]. rewrite Hcl. cbn [bind]. fold h N.
    rewrite Hslice.
    destruct (Z.ltb_spec 1 (Z.of_nat (List.length
                (firstn (Z.to_nat h) palette)))); [ | lia].
    cbn [negb].
    destruct (Z.ltb_spec (Z.of_nat (List.length
                (firstn (Z.to_nat h) palette))) N); [lia | ].
    reflexivity.
Qed.

Lemma init_default_palette_witness :
  Gradient.__init__ sample_rgb (Gradient.Str "0123456789") None true false 3
    false empty_style None 4 =
  Raise (AssertionError "Gradient must have fewer colors than characters.").
Proof.
  apply (proj1 (proj2 (init_default_palette sample_rgb "0123456789" true
                         false 3 false Style_null None 4
                         eq_refl ltac:(lia) ltac:(cbn; lia)))).
  apply Z.leb_le. reflexivity.
Defined.

(** ** What the spans do not depend on *)

Lemma init_state_color_sample (named_rgb : string -> Z * Z * Z)
  (text : Gradient.TextArg) (colors : option (list Color))
  (rainbow invert : bool) (hues : Z) (style : Gradient.StyleArg)
  (spans : option (list Span)) (start_index : Z) :
  Gradient.init_state named_rgb text colors rainbow invert hues true style
    spans start_index =
  match Gradient.init_state named_rgb text colors rainbow invert hues false
          style spans start_index with
  | Ok self =>
      Ok (Gradient.mkSelf (Gradient.block_text (Gradient._length self))
            (Gradient._length self) (Gradient.hues self)
            (Gradient._style self) (Gradient._colors self)
            (Gradient._spans self))
  | Raise e => Raise e
  end.
Proof.
  unfold Gradient.init_state.
  destruct text as [s | plain sp]; [ | reflexivity]. cbn [bind].
  destruct (Gradient.set_style style) as [parsed | e]; [ | reflexivity].
  cbn [bind].
  destruct (match colors with
            | Some [] => Raise (ValueError "Colors must be a list of colors.")
            | Some (c :: cs) => Ok (c :: cs)
            | None =>
                palette <- ColorList.color_list named_rgb start_index invert ;;
                Ok (slice palette 0 (if rainbow then 10 else hues))
            end) as [cl | e]; [ | reflexivity].
  cbn [bind].
  destruct (negb (1 <? Z.of_nat (List.length cl))); [reflexivity | ].
  destruct (negb (Z.of_nat (List.length cl) <?
                  Z.of_nat (String.length (strip_control_codes s))));
    reflexivity.
Qed.

(** X13. [color_sample] changes the text and nothing else: the same
    call with [color_sample=True] succeeds or fails as without it, with
    the same error or with the same length, colours, style and spans,
    and with [_length] blocks as text.  In both instances [_length] is
    the number of characters of the text. *)
Theorem init_color_sample_only_text (named_rgb : string -> Z * Z * Z)
  (text : Gradient.TextArg) (colors : option (list Color))
  (rainbow invert : bool) (hues : Z) (style : Gradient.StyleArg)
  (spans : option (list Span)) (start_index : Z) :
  match Gradient.__init__ named_rgb text colors rainbow invert hues false
          style spans start_index with
  | Ok g =>
      Gradient.__init__ named_rgb text colors rainbow invert hues true
        style spans start_index =
      Ok (Gradient.mkSelf (Gradient.block_text (Gradient._length g))
            (Gradient._length g) (Gradient.hues g) (Gradient._style g)
            (Gradient._colors g) (Gradient._spans g)) /\
      Z.of_nat (String.length (Gradient._text g)) = Gradient._length g /\
      Z.of_nat (String.length (Gradient.block_text (Gradient._length g))) =
        Gradient._length g
  | Raise e =>
      Gradient.__init__ named_rgb text colors rainbow invert hues true
        style spans start_index = Raise e
  end.
Proof.
  unfold Gradient.__init__. rewrite init_state_color_sample.
  destruct (Gradient.init_state named_rgb text colors rainbow invert hues
              false style spans start_index) as [self | e] eqn:Hstate;
    [ | reflexivity].
  cbn [bind].
  set (self' := Gradient.mkSelf _ _ _ _ _ _).
  rewrite (substring_indexes_fields self' self) by reflexivity.
  destruct (Gradient._substring_indexes self) as [indexes | e];
    [ | reflexivity].
  cbn [bind].
  rewrite (substring_spans_fields self' self) by reflexivity.
  destruct (Gradient._substring_spans self indexes) as [pre | e];
    [ | reflexivity].
  cbn [bind].
  destruct (Gradient.simplify_spans pre) as [simplified | e];
    [ | reflexivity].
  cbn [bind Gradient._length Gradient.hues Gradient._style Gradient._colors
         Gradient._spans Gradient._text].
  split; [reflexivity | ].
  assert (Hlen : Z.of_nat (String.length (Gradient._text self)) =
                 Gradient._length self /\ 0 <= Gradient._length self).
  { unfold Gradient.init_state in Hstate.
    destruct text as [s | plain sp]; [ | discriminate Hstate].
    cbn [bind] in Hstate.
    apply bind_Ok_inv in Hstate as (parsed & Hparsed & Hstate).
    rewrite Hparsed in Hstate. cbn [bind] in Hstate.
    apply bind_Ok_inv in Hstate as (cl & _ & Hstate).
    destruct (negb (1 <? Z.of_nat (List.length cl)));
      [discriminate Hstate | ].
    destruct (negb (Z.of_nat (List.length cl) <?
                    Z.of_nat (String.length (strip_control_codes s))));
      [discriminate Hstate | ].
    injection Hstate as <-. cbn. lia. }
  split; [exact (proj1 Hlen) | ].
  rewrite block_text_length. lia.
Qed.

(** ** A base style with a colour *)

Lemma map_result_Forall_out {A B : Type} (f : A -> Result B) (P : B -> Prop)
  (xs : list A) (ys : list B) :
  (forall x y, f x = Ok y -> P y) ->
  map_result f xs = Ok ys -> Forall P ys.
Proof.
  intros HP H. apply map_result_Forall2 in H.
  induction H as [ | x y xs ys Hxy _ IH]; constructor; eauto.
Qed.

Lemma substring_span_style (base : Style) (vars : Gradient.ColorVars)
  (chunk : list Z) (index : Z) (sp : Span) :
  substring_span base vars chunk index = Ok sp ->
  exists c, style sp = Style_add (mkStyle (Some c) None 0 0) base.
Proof.
  unfold substring_span. intros H.
  apply bind_Ok_inv in H as (blend & _ & H).
  destruct vars as [[[[[r1 g1] b1] dr] dg] db].
  apply bind_Ok_inv in H as (hex_color & _ & H).
  apply bind_Ok_inv in H as (cs & Hcs & H).
  apply bind_Ok_inv in H as (span_start & _ & [= <-]).
  unfold Style_of_color in Hcs.
  apply bind_Ok_inv in Hcs as (c & _ & [= <-]).
  exists c. reflexivity.
Qed.

Lemma substring_spans_styles (self : Gradient.Self)
  (indexes : list (list Z)) (pre : list Span) :
  Z.of_nat (List.length indexes) <= Gradient.hues self ->
  Gradient._substring_spans self indexes = Ok pre ->
  Forall (fun sp => exists c,
            style sp =
            Style_add (mkStyle (Some c) None 0 0) (Gradient._style self))
         pre.
Proof.
  intros Hh H. rewrite substring_spans_parts in H by exact Hh.
  apply bind_Ok_inv in H as (parts & Hparts & [= <-]).
  apply Forall_concat.
  eapply map_result_Forall_out; [ | exact Hparts].
  intros [k chunk] part Hpart. unfold chunk_spans in Hpart.
  apply bind_Ok_inv in Hpart as (vars & _ & Hpart).
  eapply map_result_Forall_out; [ | exact Hpart].
  intros i sp Hsp. eapply substring_span_style. exact Hsp.
Qed.

Lemma Style_add_colored (c c' : RichColor) (base : Style) :
  color base = Some c ->
  Style_add (mkStyle (Some c') None 0 0) base =
  mkStyle (Some c) (bgcolor base)
    (Z.land (attributes base) (set_attributes base)) (set_attributes base).
Proof.
  intros Hc. unfold Style_add. cbn [color bgcolor attributes set_attributes].
  rewrite Hc. destruct (bgcolor base); reflexivity.
Qed.

Lemma last_default {A : Type} (x : A) (xs : list A) (d d' : A) :
  last (x :: xs) d = last (x :: xs) d'.
Proof.
  revert x. induction xs as [ | y xs IH]; intros x; [reflexivity | ].
  change (last (x :: y :: xs) d) with (last (y :: xs) d).
  change (last (x :: y :: xs) d') with (last (y :: xs) d').
  apply IH.
Qed.

Lemma nth_error_last {A : Type} (first : A) (rest : list A) :
  nth_error (first :: rest) (List.length rest) = Some (last rest first).
Proof.
  revert first. induction rest as [ | x rest IH]; intros first;
    [reflexivity | ].
  cbn [List.length nth_error]. rewrite IH.
  destruct rest as [ | y rest]; [reflexivity | ].
  f_equal. change (last (x :: y :: rest) first) with (last (y :: rest) first).
  apply last_default.
Qed.

Lemma unit_spans_ends (N : Z) (first : Span) (rest : list Span) :
  unit_spans (range N) (first :: rest) ->
  start first = 0 /\ end_ (last rest first) = N.
Proof.
  intros Hu. apply unit_spans_range in Hu as (Hlen & Hend & Hstart).
  split.
  - cbn [map seq List.length] in Hstart. injection Hstart as H0 _. lia.
  - pose proof (nth_error_last first rest) as Hl.
    assert (Hs : nth_error (map start (first :: rest)) (List.length rest) =
                 Some (start (last rest first)))
      by (rewrite nth_error_map, Hl; reflexivity).
    rewrite Hstart, nth_error_map, nth_error_seq in Hs.
    destruct (Nat.ltb_spec (List.length rest) (List.length (first :: rest)))
      as [_ | Hf]; [ | cbn [List.length] in Hf; lia].
    cbn [option_map] in Hs. injection Hs as Hs.
    pose proof (proj1 (Forall_forall _ _) Hend (last rest first)) as He.
    rewrite He by (eapply nth_error_In; exact Hl).
    cbn [List.length] in Hlen. lia.
Qed.

(** X14. In a [Gradient] the base style is added on top of the colour
    of each character ([Style(color=...) + self.style]), so a base
    style that has a colour of its own hides the gradient: every
    character gets that colour, and the compressed spans are the
    single span [(0, length)]. *)
Theorem init_style_color_hides_gradient (named_rgb : string -> Z * Z * Z)
  (text : Gradient.TextArg) (colors : option (list Color))
  (rainbow invert : bool) (hues : Z) (color_sample : bool) (style : Gradient.StyleArg)
  (spans : option (list Span)) (start_index : Z) (g : Gradient.Self)
  (c : RichColor) :
  Gradient.__init__ named_rgb text colors rainbow invert hues color_sample
    style spans start_index = Ok g ->
  color (Gradient._style g) = Some c ->
  Gradient._spans g =
    [mkSpan 0 (Gradient._length g)
       (mkStyle (Some c) (bgcolor (Gradient._style g))
          (Z.land (attributes (Gradient._style g))
             (set_attributes (Gradient._style g)))
          (set_attributes (Gradient._style g)))].
Proof.
  intros Hg Hc.
  destruct (init_inv named_rgb _ _ _ _ _ _ _ _ _ _ Hg)
    as (self & pre & Hstate & Hh & _ & Hpre & Hsimp & _ & HL & _ & HS & _).
  destruct (init_state_inv named_rgb _ _ _ _ _ _ _ _ _ _ Hstate)
    as ((s & _ & HN) & Hcount & _).
  assert (Hst := Hpre). apply substring_spans_styles in Hst;
    [ | rewrite length_map, range_length; lia].
  rewrite <- HS in Hst.
  set (base := Gradient._style g) in *.
  assert (Hall : Forall (fun sp => Rich.style sp =
                   mkStyle (Some c) (bgcolor base)
                     (Z.land (attributes base) (set_attributes base))
                     (set_attributes base)) pre).
  { eapply Forall_impl; [ | exact Hst]. cbn. intros sp [c' ->].
    apply Style_add_colored. exact Hc. }
  pose proof (pre_spans_unit self pre ltac:(lia) Hh Hpre) as Hu.
  destruct pre as [ | first rest].
  { apply unit_spans_range in Hu as [Hlen _]. cbn in Hlen. lia. }
  apply unit_spans_ends in Hu as [H0 HE].
  inversion Hall as [ | ? ? Hfirst Hrest]; subst.
  rewrite simplify_spans_cons in Hsimp. injection Hsimp as <-.
  rewrite compress_one_style.
  - rewrite H0, HE, Hfirst, HL. reflexivity.
  - rewrite Hfirst. exact Hrest.
Qed.

Lemma init_style_color_hides_gradient_witness :
  exists g,
    Gradient.__init__ sample_rgb (Gradient.Str "ABCDE") (Some [red; blue])
      false false 2 false
      (Gradient.StyleDefinition (Some (color_style (0, 255, 0)))) None 0 =
      Ok g /\
    Gradient._spans g = [mkSpan 0 (Gradient._length g) (color_style (0, 255, 0))].
Proof.
  destruct (Gradient.__init__ sample_rgb (Gradient.Str "ABCDE")
              (Some [red; blue]) false false 2 false
              (Gradient.StyleDefinition (Some (color_style (0, 255, 0))))
              None 0) as [g | e] eqn:Hg.
  - exists g. split; [reflexivity | ].
    assert (Hs : Gradient._style g = color_style (0, 255, 0)).
    { assert (Hc := Hg). vm_compute in Hc. injection Hc as <-. reflexivity. }
    rewrite (init_style_color_hides_gradient _ _ _ _ _ _ _ _ _ _ g
               (TrueColor 0 255 0) Hg ltac:(rewrite Hs; reflexivity)).
    rewrite Hs. reflexivity.
  - vm_compute in Hg. discriminate Hg.
Defined.

(** ** [_gradient_spans] on any length *)

(** X15. In a constructed Gradient with 8-bit colours
    [_gradient_spans] succeeds and gives one alias
    [Span[i, i + 1, style]] per character of the first
    [(hues - 1) * gradient_size] characters, in order: the last
    [length mod (hues - 1)] characters of the text get none. *)
Theorem gradient_spans_cover (named_rgb : string -> Z * Z * Z)
  (text : Gradient.TextArg) (colors : option (list Color))
  (rainbow invert : bool) (hues : Z) (color_sample : bool)
  (style : Gradient.StyleArg) (spans : option (list Span))
  (start_index : Z) (g : Gradient.Self) :
  Gradient.__init__ named_rgb text colors rainbow invert hues color_sample
    style spans start_index = Ok g ->
  forallb valid_color (Gradient._colors g) = true ->
  exists size aliases,
    Gradient.gradient_size g = Ok size /\
    1 <= size /\
    Gradient._gradient_spans g = Ok aliases /\
    unit_spans (range (size * (Gradient.hues g - 1)))
      (map alias_span aliases) /\
    size * (Gradient.hues g - 1) =
      Gradient._length g - Gradient._length g mod (Gradient.hues g - 1).
Proof.
  intros Hg Hv.
  destruct (init_hues_bounds named_rgb _ _ _ _ _ _ _ _ _ _ Hg)
    as (Hh & Hc & _).
  destruct (gradient_spans_units g Hv Hh ltac:(lia))
    as (pre & Hal & Hu & _).
  set (N := Gradient._length g) in *.
  set (K := Gradient.hues g - 1) in *.
  pose proof (Z.div_mod N K ltac:(lia)) as Hdm.
  pose proof (Z.mod_pos_bound N K ltac:(lia)) as Hmb.
  assert (Hq : 1 <= N / K) by (apply Z.div_le_lower_bound; lia).
  exists (N / K), (map span_alias pre).
  split.
  { unfold Gradient.gradient_size, floordiv. fold N K.
    destruct (Z.eqb_spec K 0); [lia | reflexivity]. }
  split; [exact Hq | ]. split; [exact Hal | ].
  split; [rewrite alias_span_alias; exact Hu | lia].
Qed.

Lemma gradient_spans_cover_witness :
  exists g size aliases,
    Gradient.__init__ sample_rgb (Gradient.Str "ABCDE")
      (Some [red; lime; blue]) false false 3 false empty_style None 0 = Ok g /\
    Gradient._gradient_spans g = Ok aliases /\
    unit_spans (range (size * (Gradient.hues g - 1)))
      (map alias_span aliases) /\
    size * (Gradient.hues g - 1) = 4.
Proof.
  destruct (Gradient.__init__ sample_rgb (Gradient.Str "ABCDE")
              (Some [red; lime; blue]) false false 3 false empty_style None 0)
    as [g | e] eqn:Hg.
  - assert (Hc := Hg). vm_compute in Hc. injection Hc as Hc.
    assert (Hv : forallb valid_color (Gradient._colors g) = true)
      by (rewrite <- Hc; reflexivity).
    destruct (gradient_spans_cover _ _ _ _ _ _ _ _ _ _ g Hg Hv)
      as (size & pre & _ & _ & Hpre & Hu & Hsize).
    exists g, size, pre. split; [reflexivity | ].
    split; [exact Hpre | ]. split; [exact Hu | ].
    rewrite Hsize, <- Hc. reflexivity.
  - vm_compute in Hg. discriminate Hg.
Defined.

(** ** [GradientSubstring] *)




(** ** [generate_style] *)

(** X17. [generate_style] adds the colour on top of the base style
    ([self.style + Style(color=color)]): for a token of three 8-bit
    channels the result has that colour, whatever colour the base style
    has, and the background and attributes of the base style.  When the
    base style has no colour this is the style that the constructor
    gives a character of that colour. *)
Theorem generate_style_color_on_top (self : Gradient.Self) (r g b : Z) :
  0 <= r <= 255 -> 0 <= g <= 255 -> 0 <= b <= 255 ->
  exists st,
    Gradient.generate_style self
      (hex_token (format_02X r) (format_02X g) (format_02X b)) = Ok st /\
    color st = Some (TrueColor r g b) /\
    bgcolor st = bgcolor (Gradient._style self) /\
    attributes st = attributes (Gradient._style self) /\
    set_attributes st = set_attributes (Gradient._style self) /\
    (color (Gradient._style self) = None ->
     Z.land (attributes (Gradient._style self))
            (set_attributes (Gradient._style self)) =
       attributes (Gradient._style self) ->
     st = Style_add (color_style (r, g, b)) (Gradient._style self)).
Proof.
  intros Hr Hg Hb. unfold Gradient.generate_style.
  rewrite (proj1 (Style_of_color_bytes r g b Hr Hg Hb)). cbn [bind].
  eexists. split; [reflexivity | ].
  unfold Style_add, color_style.
  cbn [color bgcolor attributes set_attributes].
  split; [reflexivity | ]. split; [reflexivity | ].
  split.
  { change (Z.lnot 0) with (-1). rewrite Z.land_m1_r.
    change (Z.land 0 0) with 0. apply Z.lor_0_r. }
  split; [apply Z.lor_0_r | ].
  intros Hc Hattr. rewrite Hc.
  change (Z.lnot 0) with (-1). rewrite Z.land_m1_r.
  change (Z.land 0 0) with 0. rewrite !Z.lor_0_r.
  rewrite Z.land_0_l, Z.lor_0_l, Hattr.
  destruct (bgcolor (Gradient._style self)); reflexivity.
Qed.

Lemma generate_style_color_on_top_witness :
  let self := Gradient.mkSelf "ABCD" 4 3 (color_style (9, 9, 9))
                [red; lime; blue] [] in
  exists st,
    Gradient.generate_style self "#0A141E" = Ok st /\
    color st = Some (TrueColor 10 20 30).
Proof.
  intros self.
  destruct (generate_style_color_on_top self 10 20 30
              ltac:(lia) ltac:(lia) ltac:(lia))
    as (st & Hst & Hc & _).
  exists st. split; [exact Hst | exact Hc].
Defined.

(** ** Arguments without effect *)

(** X18. The [spans] argument of [Gradient] has no effect: the
    constructor overwrites it with the spans it computes.  With an
    explicit colour list, [invert] has no effect either, nor has the
    index that [ColorList] would draw. *)
Theorem init_ignores_spans (named_rgb : string -> Z * Z * Z)
  (text : Gradient.TextArg) (colors : option (list Color))
  (rainbow invert invert' : bool) (hues : Z) (color_sample : bool)
  (style : Gradient.StyleArg) (spans spans' : option (list Span))
  (start_index start_index' : Z) :
  Gradient.__init__ named_rgb text colors rainbow invert hues color_sample
    style spans start_index =
  Gradient.__init__ named_rgb text colors rainbow invert hues color_sample
    style spans' start_index /\
  (colors <> None ->
   Gradient.__init__ named_rgb text colors rainbow invert hues color_sample
     style spans start_index =
   Gradient.__init__ named_rgb text colors rainbow invert' hues color_sample
     style spans' start_index').
Proof.
  assert (Hstate : forall inv inv' sp sp' st st',
            (colors <> None \/ (inv = inv' /\ st = st')) ->
            match Gradient.init_state named_rgb text colors rainbow inv hues
                    color_sample style sp st,
                  Gradient.init_state named_rgb text colors rainbow inv' hues
                    color_sample style sp' st' with
            | Ok self, Ok self' =>
                Gradient._text self = Gradient._text self' /\
                Gradient._length self = Gradient._length self' /\
                Gradient.hues self = Gradient.hues self' /\
                Gradient._style self = Gradient._style self' /\
                Gradient._colors self = Gradient._colors self'
            | Raise e, Raise e' => e = e'
            | _, _ => False
            end).
  { intros inv inv' sp sp' st st' Hcase. unfold Gradient.init_state.
    destruct text as [s | plain tsp]; [ | reflexivity]. cbn [bind].
    destruct (Gradient.set_style style) as [parsed | e]; [ | reflexivity].
    cbn [bind].
    assert (Hcl :
      match colors with
      | Some [] => Raise (ValueError "Colors must be a list of colors.")
      | Some (c :: cs) => Ok (c :: cs)
      | None =>
          palette <- ColorList.color_list named_rgb st inv ;;
          Ok (slice palette 0 (if rainbow then 10 else hues))
      end =
      match colors with
      | Some [] => Raise (ValueError "Colors must be a list of colors.")
      | Some (c :: cs) => Ok (c :: cs)
      | None =>
          palette <- ColorList.color_list named_rgb st' inv' ;;
          Ok (slice palette 0 (if rainbow then 10 else hues))
      end).
    { destruct colors as [[ | c cs] | ]; try reflexivity.
      destruct Hcase as [Hc | [-> ->]]; [contradiction | reflexivity]. }
    rewrite Hcl.
    destruct (match colors with
              | Some [] => Raise (ValueError "Colors must be a list of colors.")
              | Some (c :: cs) => Ok (c :: cs)
              | None =>
                  palette <- ColorList.color_list named_rgb st' inv' ;;
                  Ok (slice palette 0 (if rainbow then 10 else hues))
              end) as [cl | e]; [ | reflexivity].
    cbn [bind].
    destruct (negb (1 <? Z.of_nat (List.length cl))); [reflexivity | ].
    destruct (negb (Z.of_nat (List.length cl) <?
                    Z.of_nat (String.length (strip_control_codes s))));
      [reflexivity | ].
    cbn. repeat split. }
  assert (Hinit : forall inv inv' sp sp' st st',
            (colors <> None \/ (inv = inv' /\ st = st')) ->
            Gradient.__init__ named_rgb text colors rainbow inv hues
              color_sample style sp st =
            Gradient.__init__ named_rgb text colors rainbow inv' hues
              color_sample style sp' st').
  { intros inv inv' sp sp' st st' Hcase.
    specialize (Hstate inv inv' sp sp' st st' Hcase).
    unfold Gradient.__init__.
    destruct (Gradient.init_state named_rgb text colors rainbow inv hues
                color_sample style sp st) as [self | e];
      destruct (Gradient.init_state named_rgb text colors rainbow inv' hues
                  color_sample style sp' st') as [self' | e'];
      try contradiction; [ | rewrite Hstate; reflexivity].
    destruct Hstate as (Ht & Hl & Hh & Hs & Hc). cbn [bind].
    rewrite (substring_indexes_fields self self' Hh Hl).
    destruct (Gradient._substring_indexes self') as [indexes | e];
      [ | reflexivity].
    cbn [bind].
    rewrite (substring_spans_fields self self' indexes Hh Hc Hs).
    destruct (Gradient._substring_spans self' indexes) as [pre | e];
      [ | reflexivity].
    cbn [bind].
    destruct (Gradient.simplify_spans pre) as [simplified | e];
      [ | reflexivity].
    cbn [bind]. rewrite Ht, Hl, Hh, Hs, Hc. reflexivity. }
  split.
  - apply Hinit. right. split; reflexivity.
  - intros Hc. apply Hinit. left. exact Hc.
Qed.

Lemma init_ignores_spans_witness :
  Gradient.__init__ sample_rgb (Gradient.Str "ABCDE") (Some [red; blue])
    false false 2 false empty_style None 0 =
  Gradient.__init__ sample_rgb (Gradient.Str "ABCDE") (Some [red; blue])
    false true 2 false empty_style (Some [mkSpan 0 5 Style_null]) 7.
Proof.
  apply (proj2 (init_ignores_spans sample_rgb (Gradient.Str "ABCDE")
                  (Some [red; blue]) false false true 2 false empty_style
                  None (Some [mkSpan 0 5 Style_null]) 0 7)).
  discriminate.
Defined.

(** ** Colours against exact arithmetic *)

(** X19. In a constructed Gradient of at most [2 ^ 44] characters with
    8-bit colours, each channel of each character, computed in doubles
    as [int(c1 + (c2 - c1) * (i / L))], is the exact value
    [floor(c1 + (c2 - c1) * i / L)] or one below it, and it is the
    exact value whenever [(c2 - c1) * i / L] is not an integer. *)
Theorem constructed_colors_exact
  (named_rgb : string -> Z * Z * Z) (text : Gradient.TextArg)
  (colors : option (list Color)) (rainbow invert : bool) (hues : Z)
  (color_sample : bool) (style : Gradient.StyleArg) (spans : option (list Span))
  (start_index : Z) (g : Gradient.Self) (k i : nat) :
  Gradient.__init__ named_rgb text colors rainbow invert hues color_sample
    style spans start_index = Ok g ->
  forallb valid_color (Gradient._colors g) = true ->
  Gradient._length g <= 2 ^ 44 ->
  Z.of_nat k < Gradient.hues g - 1 ->
  (i < List.length (section (Gradient._length g) (Gradient.hues g - 1)
                      (Z.of_nat k)))%nat ->
  exists color1 color2 rgb,
    nth_error (Gradient._colors g) k = Some color1 /\
    nth_error (Gradient._colors g) (S k) = Some color2 /\
    style_at (Gradient._spans g)
      (div_point (Gradient._length g) (Gradient.hues g - 1) (Z.of_nat k)
       + Z.of_nat i) = Some (Style_add (color_style rgb) (Gradient._style g)) /\
    near_exact_rgb (rgb_tuple color1) (rgb_tuple color2) (Z.of_nat i)
      (Z.of_nat (List.length (section (Gradient._length g)
                                (Gradient.hues g - 1) (Z.of_nat k))))
      rgb.
Proof.
  intros Hg Hv HL Hk Hi.
  destruct (constructed_char_style named_rgb _ _ _ _ _ _ _ _ _ g k i
              Hg Hv Hk Hi)
    as (color1 & color2 & rgb & cs & Hc1 & Hc2 & Hst & Hcs).
  destruct Hcs as (Hint & _ & _ & -> & _).
  exists color1, color2, rgb.
  split; [exact Hc1 | ]. split; [exact Hc2 | ]. split; [exact Hst | ].
  destruct (init_hues_bounds named_rgb _ _ _ _ _ _ _ _ _ _ Hg)
    as (Hh & Hc & _).
  apply interpolated_near; try assumption.
  - eapply forallb_nth_error; eassumption.
  - eapply forallb_nth_error; eassumption.
  - lia.
  - pose proof (section_length_le (Gradient._length g) (Gradient.hues g - 1)
                  (Z.of_nat k) ltac:(lia) ltac:(lia) ltac:(lia)). lia.
Qed.

Lemma constructed_colors_exact_witness :
  exists g color1 color2 rgb,
    Gradient.__init__ sample_rgb (Gradient.Str "ABCDE") (Some [red; blue])
      false false 2 false empty_style None 0 = Ok g /\
    nth_error (Gradient._colors g) 0 = Some color1 /\
    nth_error (Gradient._colors g) 1 = Some color2 /\
    near_exact_rgb (rgb_tuple color1) (rgb_tuple color2) 3 5 rgb.
Proof.
  destruct (Gradient.__init__ sample_rgb (Gradient.Str "ABCDE")
              (Some [red; blue]) false false 2 false empty_style None 0)
    as [g | e] eqn:Hg.
  - assert (Hc := Hg). vm_compute in Hc. injection Hc as Hc.
    assert (Hv : forallb valid_color (Gradient._colors g) = true)
      by (rewrite <- Hc; reflexivity).
    assert (HL : Gradient._length g <= 2 ^ 44)
      by (rewrite <- Hc; apply Z.leb_le; reflexivity).
    assert (Hk : Z.of_nat 0 < Gradient.hues g - 1)
      by (rewrite <- Hc; reflexivity).
    assert (Hi : (3 < List.length (section (Gradient._length g)
                                     (Gradient.hues g - 1) (Z.of_nat 0)))%nat)
      by (rewrite <- Hc; apply Nat.ltb_lt; reflexivity).
    destruct (constructed_colors_exact _ _ _ _ _ _ _ _ _ _ g 0 3
                Hg Hv HL Hk Hi)
      as (color1 & color2 & rgb & H1 & H2 & _ & Hn).
    exists g, color1, color2, rgb. split; [reflexivity | ].
    split; [exact H1 | ]. split; [exact H2 | ].
    rewrite <- Hc in Hn. exact Hn.
  - vm_compute in Hg. discriminate Hg.
Defined.

(** X20. The same holds for [GradientSubstring._calculate_span]: with
    8-bit colours and at most [2 ^ 44] characters the span of index
    [j] carries the colour whose channels are the exact interpolation
    at [j / length], or one below it where the exact value is an
    integer. *)
Theorem calculate_span_exact (self : GradientSubstring.Self) (j : Z) :
  valid_color (GradientSubstring.color_start self) = true ->
  valid_color (GradientSubstring.color_end self) = true ->
  0 <= j < GradientSubstring._length self ->
  GradientSubstring._length self <= 2 ^ 44 ->
  exists rgb,
    GradientSubstring._calculate_span self j =
      Ok (mkSpan (GradientSubstring.start_index self + j)
                 (GradientSubstring.start_index self + j + 1)
                 (Style_add (GradientSubstring.style self)
                    (color_style rgb))) /\
    near_exact_rgb (rgb_tuple (GradientSubstring.color_start self))
      (rgb_tuple (GradientSubstring.color_end self)) j
      (GradientSubstring._length self) rgb.
Proof.
  intros V1 V2 Hj HL.
  destruct (calculate_span_spec self j V1 V2 Hj) as (rgb & cs & Hspan & Hcs).
  destruct Hcs as (Hint & _ & _ & -> & _).
  exists rgb. split; [exact Hspan | ].
  apply interpolated_near; assumption.
Qed.

Lemma calculate_span_exact_witness :
  let sub := GradientSubstring.mkSelf 4 "ABCD" 0 red blue Style_null [] in
  exists rgb,
    GradientSubstring._calculate_span sub 1 =
      Ok (mkSpan 1 2 (Style_add Style_null (color_style rgb))) /\
    near_exact_rgb (255, 0, 0) (0, 0, 255) 1 4 rgb.
Proof.
  intros sub.
  destruct (calculate_span_exact sub 1 eq_refl eq_refl ltac:(cbn; lia)
              ltac:(apply Z.leb_le; reflexivity)) as (rgb & Hs & Hn).
  exists rgb. split; [exact Hs | exact Hn].
Defined.

(** X21. Within a segment of a constructed Gradient the colour moves
    in one direction: from a character to a later one of the same
    segment, a channel does not fall where the segment's second colour
    has the higher value and does not rise where it has the lower
    one. *)
Theorem segment_channels_monotone
  (named_rgb : string -> Z * Z * Z) (text : Gradient.TextArg)
  (colors : option (list Color)) (rainbow invert : bool) (hues : Z)
  (color_sample : bool) (style : Gradient.StyleArg) (spans : option (list Span))
  (start_index : Z) (g : Gradient.Self) (k i j : nat) :
  Gradient.__init__ named_rgb text colors rainbow invert hues color_sample
    style spans start_index = Ok g ->
  forallb valid_color (Gradient._colors g) = true ->
  Gradient._length g <= 2 ^ 44 ->
  Z.of_nat k < Gradient.hues g - 1 ->
  (i <= j)%nat ->
  (j < List.length (section (Gradient._length g) (Gradient.hues g - 1)
                      (Z.of_nat k)))%nat ->
  exists color1 color2 x y,
    nth_error (Gradient._colors g) k = Some color1 /\
    nth_error (Gradient._colors g) (S k) = Some color2 /\
    style_at (Gradient._spans g)
      (div_point (Gradient._length g) (Gradient.hues g - 1) (Z.of_nat k)
       + Z.of_nat i) = Some (Style_add (color_style x) (Gradient._style g)) /\
    style_at (Gradient._spans g)
      (div_point (Gradient._length g) (Gradient.hues g - 1) (Z.of_nat k)
       + Z.of_nat j) = Some (Style_add (color_style y) (Gradient._style g)) /\
    toward (rgb_tuple color1) (rgb_tuple color2) x y.
Proof.
  intros Hg Hv HL Hk Hij Hj.
  destruct (constructed_char_style named_rgb _ _ _ _ _ _ _ _ _ g k i
              Hg Hv Hk ltac:(lia))
    as (color1 & color2 & x & cs & Hc1 & Hc2 & Hst & Hcs).
  destruct (constructed_char_style named_rgb _ _ _ _ _ _ _ _ _ g k j
              Hg Hv Hk Hj)
    as (color1' & color2' & y & cs' & Hc1' & Hc2' & Hst' & Hcs').
  rewrite Hc1 in Hc1'. injection Hc1' as <-.
  rewrite Hc2 in Hc2'. injection Hc2' as <-.
  destruct Hcs as (Hint & _ & _ & -> & _).
  destruct Hcs' as (Hint' & _ & _ & -> & _).
  exists color1, color2, x, y.
  split; [exact Hc1 | ]. split; [exact Hc2 | ].
  split; [exact Hst | ]. split; [exact Hst' | ].
  destruct (init_hues_bounds named_rgb _ _ _ _ _ _ _ _ _ _ Hg)
    as (Hh & Hc & _).
  apply (interpolated_toward color1 color2 (Z.of_nat i) (Z.of_nat j)
           (Z.of_nat (List.length (section (Gradient._length g)
                                     (Gradient.hues g - 1) (Z.of_nat k)))));
    try assumption.
  - eapply forallb_nth_error; eassumption.
  - eapply forallb_nth_error; eassumption.
  - lia.
  - lia.
  - pose proof (section_length_le (Gradient._length g) (Gradient.hues g - 1)
                  (Z.of_nat k) ltac:(lia) ltac:(lia) ltac:(lia)). lia.
Qed.

Lemma segment_channels_monotone_witness :
  exists g color1 color2 x y,
    Gradient.__init__ sample_rgb (Gradient.Str "ABCDE") (Some [red; blue])
      false false 2 false empty_style None 0 = Ok g /\
    nth_error (Gradient._colors g) 0 = Some color1 /\
    nth_error (Gradient._colors g) 1 = Some color2 /\
    toward (rgb_tuple color1) (rgb_tuple color2) x y.
Proof.
  destruct (Gradient.__init__ sample_rgb (Gradient.Str "ABCDE")
              (Some [red; blue]) false false 2 false empty_style None 0)
    as [g | e] eqn:Hg.
  - assert (Hc := Hg). vm_compute in Hc. injection Hc as Hc.
    assert (Hv : forallb valid_color (Gradient._colors g) = true)
      by (rewrite <- Hc; reflexivity).
    assert (HL : Gradient._length g <= 2 ^ 44)
      by (rewrite <- Hc; apply Z.leb_le; reflexivity).
    assert (Hk : Z.of_nat 0 < Gradient.hues g - 1)
      by (rewrite <- Hc; reflexivity).
    assert (Hj : (4 < List.length (section (Gradient._length g)
                                     (Gradient.hues g - 1) (Z.of_nat 0)))%nat)
      by (rewrite <- Hc; apply Nat.ltb_lt; reflexivity).
    destruct (segment_channels_monotone _ _ _ _ _ _ _ _ _ _ g 0 1 4
                Hg Hv HL Hk ltac:(lia) Hj)
      as (color1 & color2 & x & y & H1 & H2 & _ & _ & Ht).
    exists g, color1, color2, x, y. split; [reflexivity | ].
    split; [exact H1 | ]. split; [exact H2 | exact Ht].
  - vm_compute in Hg. discriminate Hg.
Defined.

(** ** Anchor colours *)

Lemma within_same (c rgb : Z * Z * Z) : within c c rgb -> rgb = c.
Proof.
  destruct c as [[r1 g1] b1], rgb as [[r g] b]. cbn [within].
  intros (Hr & Hg & Hb). f_equal; [f_equal | ]; lia.
Qed.

(** X22. In a constructed Gradient with 8-bit colours every segment
    starts on its anchor: the first character of segment [k] gets
    exactly the colour [colors[k]], under the base style.  A segment
    between two equal colours is flat: all its characters get that
    colour.  The colour shows when the base style has no colour of its
    own; otherwise the colour of the base style shows. *)
Theorem segment_anchor_colors
  (named_rgb : string -> Z * Z * Z) (text : Gradient.TextArg)
  (colors : option (list Color)) (rainbow invert : bool) (hues : Z)
  (color_sample : bool) (style : Gradient.StyleArg) (spans : option (list Span))
  (start_index : Z) (g : Gradient.Self) (k : nat) :
  Gradient.__init__ named_rgb text colors rainbow invert hues color_sample
    style spans start_index = Ok g ->
  forallb valid_color (Gradient._colors g) = true ->
  Z.of_nat k < Gradient.hues g - 1 ->
  exists color1 color2,
    nth_error (Gradient._colors g) k = Some color1 /\
    nth_error (Gradient._colors g) (S k) = Some color2 /\
    (1 <= List.length (section (Gradient._length g) (Gradient.hues g - 1)
                         (Z.of_nat k)))%nat /\
    style_at (Gradient._spans g)
      (div_point (Gradient._length g) (Gradient.hues g - 1) (Z.of_nat k)) =
      Some (Style_add (color_style (rgb_tuple color1))
              (Gradient._style g)) /\
    color (Style_add (color_style (rgb_tuple color1)) (Gradient._style g)) =
      Some (resolved_color (Gradient._style g) (rgb_tuple color1)) /\
    (rgb_tuple color1 = rgb_tuple color2 ->
     forall i,
       (i < List.length (section (Gradient._length g) (Gradient.hues g - 1)
                           (Z.of_nat k)))%nat ->
       style_at (Gradient._spans g)
         (div_point (Gradient._length g) (Gradient.hues g - 1) (Z.of_nat k)
          + Z.of_nat i) =
       Some (Style_add (color_style (rgb_tuple color1))
               (Gradient._style g))).
Proof.
  intros Hg Hv Hk.
  destruct (init_hues_bounds named_rgb _ _ _ _ _ _ _ _ _ _ Hg)
    as (Hh & Hc & _).
  assert (Hlen : (1 <= List.length (section (Gradient._length g)
                                      (Gradient.hues g - 1) (Z.of_nat k)))%nat).
  { pose proof (section_length (Gradient._length g) (Gradient.hues g - 1)
                  (Z.of_nat k) ltac:(lia) ltac:(lia) ltac:(lia)) as Hl.
    assert (1 <= Gradient._length g / (Gradient.hues g - 1))
      by (apply Z.div_le_lower_bound; lia).
    destruct (Z.of_nat k <? Gradient._length g mod (Gradient.hues g - 1));
      lia. }
  destruct (constructed_char_style named_rgb _ _ _ _ _ _ _ _ _ g k 0
              Hg Hv Hk ltac:(lia))
    as (color1 & color2 & rgb & cs & Hc1 & Hc2 & Hst & Hcs).
  exists color1, color2.
  split; [exact Hc1 | ]. split; [exact Hc2 | ]. split; [exact Hlen | ].
  split; [ | split; [apply color_resolved | ]].
  - destruct Hcs as (_ & _ & _ & -> & H0).
    rewrite (H0 eq_refl) in Hst.
    change (Z.of_nat 0) with 0 in Hst. rewrite Z.add_0_r in Hst. exact Hst.
  - intros Hsame i Hi.
    destruct (constructed_char_style named_rgb _ _ _ _ _ _ _ _ _ g k i
                Hg Hv Hk Hi)
      as (color1' & color2' & rgb' & cs' & Hc1' & Hc2' & Hst' & Hcs').
    rewrite Hc1 in Hc1'. injection Hc1' as <-.
    rewrite Hc2 in Hc2'. injection Hc2' as <-.
    destruct Hcs' as (_ & Hw & _ & -> & _).
    rewrite <- Hsame in Hw. apply within_same in Hw. rewrite Hw in Hst'.
    exact Hst'.
Qed.

Lemma segment_anchor_colors_witness :
  exists g color1,
    Gradient.__init__ sample_rgb (Gradient.Str "ABCDEFG")
      (Some [red; lime; blue]) false false 3 false empty_style None 0 = Ok g /\
    nth_error (Gradient._colors g) 1 = Some color1 /\
    style_at (Gradient._spans g)
      (div_point (Gradient._length g) (Gradient.hues g - 1) (Z.of_nat 1)) =
      Some (Style_add (color_style (rgb_tuple color1)) (Gradient._style g)).
Proof.
  destruct (Gradient.__init__ sample_rgb (Gradient.Str "ABCDEFG")
              (Some [red; lime; blue]) false false 3 false empty_style None 0)
    as [g | e] eqn:Hg.
  - assert (Hc := Hg). vm_compute in Hc. injection Hc as Hc.
    assert (Hv : forallb valid_color (Gradient._colors g) = true)
      by (rewrite <- Hc; reflexivity).
    assert (Hk : Z.of_nat 1 < Gradient.hues g - 1)
      by (rewrite <- Hc; reflexivity).
    destruct (segment_anchor_colors _ _ _ _ _ _ _ _ _ _ g 1 Hg Hv Hk)
      as (color1 & color2 & H1 & _ & _ & Hst & _).
    exists g, color1. split; [reflexivity | ].
    split; [exact H1 | exact Hst].
  - vm_compute in Hg. discriminate Hg.
Defined.
